(** * reversible.py: invertible transforms and Gaussian-mixture transport losses

    A shallow embedding of the parts of [src/reversible.py] that the
    specification makes checkable statements about, with the statements
    themselves.  One module per component of the source:

    - [Quantiles]   the empirical probabilities of the order statistics,
                    [th.linspace(1/n, 1 - 1/n, n)];
    - [Mixture]     [sizes_from_weights], [sample_mixture_gaussian] and
                    [get_weights_per_sample];
    - [Training]    the projection of the mixture weights and stds that
                    ends [train_on_batch] and [train_on_batch_per_class];
    - [Batches]     [get_exact_size_batches] and [get_batches_equal_classes];
    - [Cdf]         [norm_and_var_directions] and
                    [multi_directions_gaussian_cdfs], in exact arithmetic;
    - [Float32]     [norm_and_var_directions] on single-precision floats;
    - [Reversible]  [ReversibleBlock], [SubsampleSplitter] and [invert].

    Floating-point tensors are modelled by exact numbers: rationals ([Q])
    where the source only adds, multiplies, divides, rounds and compares,
    reals ([R]) where it takes square roots or evaluates [erf], and any
    type with an exact subtraction for the invertible stages.  Rounding
    error is therefore outside the statements about them; where a
    statement turns on rounding, [Float32] has the function on IEEE 754
    binary32 numbers.  A call that can raise returns an [outcome]. *)

From Stdlib Require Import List Arith ZArith QArith Qround Qabs Lia Lqa Permutation.
From Stdlib Require Reals Lra RiemannInt SpecFloat.
Import ListNotations.

(** ** Python outcomes

    A call of the source either returns a value or raises.  The exceptions
    that matter below are the failed [assert], indexing past the end (also
    [np.argsort(...)[0]] on an empty array), and the errors torch and numpy
    raise on tensors whose shapes do not fit ([th.cat] of nothing, operands
    that cannot be broadcast, [np.concatenate] of arrays of different
    heights). *)

Inductive exn : Set :=
| AssertionError
| IndexError
| RuntimeError
| ValueError
| ZeroDivisionError.

Inductive outcome (A : Type) : Type :=
| Returns (a : A)
| Raises (e : exn).

Arguments Returns {A} a.
Arguments Raises {A} e.

Definition bind {A B : Type} (m : outcome A) (k : A -> outcome B) : outcome B :=
  match m with
  | Returns a => k a
  | Raises e => Raises e
  end.

Declare Scope outcome_scope.
Delimit Scope outcome_scope with outcome.
Notation "x <- m ;; k" := (bind m (fun x => k))
  (at level 61, m at next level, right associativity) : outcome_scope.
Notation "' p <- m ;; k" := (bind m (fun p => k))
  (at level 61, p pattern, m at next level, right associativity) : outcome_scope.

Definition assert (b : bool) : outcome unit :=
  if b then Returns tt else Raises AssertionError.

(** [for x in xs: acc = body(acc, x)] where the body may raise. *)
Fixpoint for_each {A S : Type} (body : S -> A -> outcome S) (xs : list A) (s : S)
  : outcome S :=
  match xs with
  | [] => Returns s
  | x :: xs' => bind (body s x) (for_each body xs')
  end.

(** [for x in xs: ys.append(f(x))] where [f] may raise. *)
Fixpoint map_outcome {A B : Type} (f : A -> outcome B) (xs : list A) : outcome (list B) :=
  match xs with
  | [] => Returns []
  | x :: xs' => bind (f x) (fun y => bind (map_outcome f xs') (fun ys => Returns (y :: ys)))
  end.

(** Two lists entry by entry, as far as the shorter one goes. *)
Fixpoint map2 {A B C : Type} (f : A -> B -> C) (a : list A) (b : list B) : list C :=
  match a, b with
  | x :: a', y :: b' => f x y :: map2 f a' b'
  | _, _ => []
  end.

Lemma map2_length {A B C : Type} (f : A -> B -> C) (a : list A) (b : list B) :
  length a = length b -> length (map2 f a b) = length a.
Proof.
  revert b. induction a as [|x a IH]; intros [|y b] H; try discriminate;
    [reflexivity|]. simpl. f_equal. apply IH. now injection H.
Qed.

(** ** Empirical probabilities of order statistics *)

Module Quantiles.

Local Open Scope Q_scope.

Definition Qnat (k : nat) : Q := inject_Z (Z.of_nat k).

(** [th.linspace(start, end, steps)]: [steps] points, the [k]-th being
    [start + k * (end - start) / (steps - 1)]. *)
Definition linspace (a b : Q) (steps : nat) : list Q :=
  map (fun k => a + Qnat k * ((b - a) / (Qnat steps - 1))) (seq 0 steps).

(** Lines 911-912 and 1258-1259:
    [empirical_cdf = th.linspace(1 / n_samples, 1 - (1 / n_samples), n_samples)]. *)
Definition empirical_cdf (n_samples : nat) : list Q :=
  linspace (1 / Qnat n_samples) (1 - 1 / Qnat n_samples) n_samples.

(** The common difference of the grid: [(1 - 2/n) / (n - 1)]. *)
Definition spacing (n : nat) : Q := (1 - 2 / Qnat n) / (Qnat n - 1).

Lemma Qnat_S (k : nat) : Qnat (S k) == Qnat k + 1.
Proof.
  unfold Qnat. rewrite Nat2Z.inj_succ, <- Z.add_1_r, inject_Z_plus. reflexivity.
Qed.

Lemma Qnat_le (j k : nat) : (j <= k)%nat -> Qnat j <= Qnat k.
Proof.
  intros H. unfold Qnat. rewrite <- Zle_Qle. lia.
Qed.

Lemma Qnat_lt (j k : nat) : (j < k)%nat -> Qnat j < Qnat k.
Proof.
  intros H. unfold Qnat. rewrite <- Zlt_Qlt. lia.
Qed.

Lemma linspace_length (a b : Q) (n : nat) : length (linspace a b n) = n.
Proof.
  unfold linspace. now rewrite length_map, length_seq.
Qed.

Lemma nth_map_seq {A} (f : nat -> A) (d : A) (n s k : nat) :
  (k < n)%nat -> nth k (map f (seq s n)) d = f (s + k)%nat.
Proof.
  revert s k. induction n as [|n IH]; intros s k Hk; [lia|].
  destruct k as [|k]; simpl.
  - now rewrite Nat.add_0_r.
  - rewrite IH by lia. f_equal. lia.
Qed.

Lemma linspace_nth (a b : Q) (n k : nat) :
  (k < n)%nat ->
  nth k (linspace a b n) 0 = a + Qnat k * ((b - a) / (Qnat n - 1)).
Proof.
  intros Hk. unfold linspace. now rewrite nth_map_seq.
Qed.

Lemma empirical_cdf_nth (n k : nat) :
  (k < n)%nat ->
  nth k (empirical_cdf n) 0 == 1 / Qnat n + Qnat k * spacing n.
Proof.
  intros Hk. unfold empirical_cdf. rewrite linspace_nth by assumption.
  unfold spacing.
  assert (E : 1 - 1 / Qnat n - 1 / Qnat n == 1 - 2 / Qnat n).
  { destruct n as [|n]; [lia|].
    assert (0 < Qnat (S n)) by (apply (Qnat_lt 0); lia).
    field. lra. }
  now rewrite E.
Qed.

Lemma spacing_nonneg (n : nat) : (2 <= n)%nat -> 0 <= spacing n.
Proof.
  intros Hn. unfold spacing.
  assert (H2 : Qnat 2 <= Qnat n) by now apply Qnat_le.
  change (Qnat 2) with 2 in H2.
  apply Qle_shift_div_l; [lra|]. rewrite Qmult_0_l.
  assert (2 / Qnat n <= 1); [|lra].
  apply Qle_shift_div_r; lra.
Qed.

(** C6. For every number of samples [n >= 2] the empirical probabilities
    [th.linspace(1/n, 1 - 1/n, n)] are [n] values, evenly spaced (the
    [k]-th is [1/n + k * (1 - 2/n)/(n - 1)], consecutive ones differ by
    the same amount), the first is [1/n], the last is [1 - 1/n], and every
    one lies strictly between 0 and 1. *)
Theorem empirical_cdf_grid (n : nat) :
  (2 <= n)%nat ->
  length (empirical_cdf n) = n /\
  nth 0 (empirical_cdf n) 0 == 1 / Qnat n /\
  nth (n - 1) (empirical_cdf n) 0 == 1 - 1 / Qnat n /\
  (forall k, (k < n)%nat ->
     nth k (empirical_cdf n) 0 == 1 / Qnat n + Qnat k * spacing n) /\
  (forall k, (S k < n)%nat ->
     nth (S k) (empirical_cdf n) 0 - nth k (empirical_cdf n) 0 == spacing n) /\
  (forall k, (k < n)%nat ->
     0 < nth k (empirical_cdf n) 0 < 1 /\
     1 / Qnat n <= nth k (empirical_cdf n) 0 <= 1 - 1 / Qnat n).
Proof.
  intros Hn.
  assert (Hpos : 2 <= Qnat n) by (apply (Qnat_le 2); exact Hn).
  assert (Hinv : 0 < 1 / Qnat n) by (apply Qlt_shift_div_l; lra).
  assert (Hinv' : 1 / Qnat n <= 1 # 2).
  { apply Qle_shift_div_r; lra. }
  assert (Hlast : 1 / Qnat n + Qnat (n - 1) * spacing n == 1 - 1 / Qnat n).
  { assert (E : Qnat (n - 1) == Qnat n - 1).
    { replace n with (S (n - 1)) at 2 by lia. rewrite Qnat_S. ring. }
    rewrite E. unfold spacing. field. lra. }
  split; [apply linspace_length|].
  split.
  { rewrite empirical_cdf_nth by lia. change (Qnat 0) with 0. ring. }
  split.
  { rewrite empirical_cdf_nth by lia. exact Hlast. }
  split; [intros k Hk; now apply empirical_cdf_nth|].
  split.
  { intros k Hk. rewrite !empirical_cdf_nth by lia. rewrite Qnat_S. ring. }
  intros k Hk. rewrite empirical_cdf_nth by assumption.
  pose proof (spacing_nonneg n Hn) as Hs.
  assert (H0 : 0 <= Qnat k) by (apply (Qnat_le 0); lia).
  assert (Hk1 : Qnat k <= Qnat (n - 1)) by (apply Qnat_le; lia).
  assert (Hlo : 0 <= Qnat k * spacing n) by (apply Qmult_le_0_compat; assumption).
  assert (Hhi : Qnat k * spacing n <= Qnat (n - 1) * spacing n).
  { apply Qmult_le_compat_r; assumption. }
  lra.
Qed.

Lemma empirical_cdf_grid_witness :
  length (empirical_cdf 4) = 4%nat /\
  nth 0 (empirical_cdf 4) 0 == 1 / Qnat 4.
Proof.
  destruct (empirical_cdf_grid 4 ltac:(lia)) as (H1 & H2 & _).
  split; assumption.
Defined.

(** *** The interpolation grid of [projected_samples_mixture_sorted] *)

(** What lines 575-586 compute from three numbers: for every point of the
    grid the index below, the index above, and how far the point is from
    the index below. *)
Record interpolation : Type := {
  i_low : list Z;
  i_high : list Z;
  weights_high : list Q
}.

(** Lines 575-586, in exact arithmetic.  [n_sorted] is
    [len(sorted_cluster_samples)]; dividing it by [n_samples = 0] raises.
    [weights_high] is taken before the indices are clamped, as in the
    source. *)
Definition interpolation_grid (n_sorted n_samples n_interpolation_samples : nat)
  : outcome interpolation :=
  if (n_samples =? 0)%nat then Raises ZeroDivisionError
  else
    let offset_x_in_input := - (1 # 2) + (1 # 2) * (Qnat n_sorted / Qnat n_samples) in
    let x_grid :=
      linspace offset_x_in_input (Qnat n_sorted - 1 - offset_x_in_input) n_samples in
    let i_low := map Qfloor x_grid in
    let i_high := map Qceiling x_grid in
    let weights_high := map2 (fun x i => x - inject_Z i) x_grid i_low in
    let i_low := map (Z.max 0) i_low in
    let i_high := map (Z.min (Z.of_nat n_interpolation_samples - 1)) i_high in
    Returns {| i_low := i_low; i_high := i_high; weights_high := weights_high |}.

Lemma map2_map_r {A B C : Type} (f : A -> B -> C) (g : A -> B) (l : list A) :
  map2 f l (map g l) = map (fun x => f x (g x)) l.
Proof.
  induction l as [|x l IH]; [reflexivity|]. cbn [map map2]. now rewrite IH.
Qed.

(** The [k]-th point of the grid over [n] sorted samples. *)
Definition grid_point (n n_samples k : nat) : Q :=
  let offset := - (1 # 2) + (1 # 2) * (Qnat n / Qnat n_samples) in
  offset + Qnat k * ((Qnat n - 1 - offset - offset) / (Qnat n_samples - 1)).

(** The callers use two shapes: twice as many interpolation samples as
    samples in the batch ([train_on_batch] and [eval_inputs], lines 1103
    and 1146), or as many (line 488).  There the grid falls on halves of
    odd numbers, or on whole numbers, which floats hold exactly; away from
    these shapes a float grid can miss a whole number by a rounding
    error, and this rendering in exact arithmetic says nothing. *)

Lemma Qnat_double (n : nat) : Qnat (2 * n) == 2 * Qnat n.
Proof.
  unfold Qnat. rewrite Nat2Z.inj_mul, inject_Z_mult. reflexivity.
Qed.

Lemma grid_point_double (n_samples k : nat) :
  (k < n_samples)%nat ->
  grid_point (2 * n_samples) n_samples k == Qnat (2 * k) + (1 # 2).
Proof.
  intros Hk. destruct (Nat.eq_dec n_samples 1) as [->|Hne].
  - assert (k = 0)%nat as -> by lia. reflexivity.
  - unfold grid_point. rewrite !Qnat_double.
    assert (HS : 2 <= Qnat n_samples) by (apply (Qnat_le 2); lia).
    field. split; lra.
Qed.

Lemma grid_point_same (n_samples k : nat) :
  (k < n_samples)%nat -> grid_point n_samples n_samples k == Qnat k.
Proof.
  intros Hk. destruct (Nat.eq_dec n_samples 1) as [->|Hne].
  - assert (k = 0)%nat as -> by lia. reflexivity.
  - unfold grid_point.
    assert (HS : 2 <= Qnat n_samples) by (apply (Qnat_le 2); lia).
    field. split; lra.
Qed.

Lemma Qfloor_half (z : Z) : Qfloor (inject_Z z + (1 # 2)) = z.
Proof.
  pose proof (Qfloor_le (inject_Z z + (1 # 2))) as H1.
  pose proof (Qlt_floor (inject_Z z + (1 # 2))) as H2.
  set (f := Qfloor (inject_Z z + (1 # 2))) in *.
  assert (A : (f < z + 1)%Z).
  { rewrite Zlt_Qlt, inject_Z_plus. change (inject_Z 1) with 1. lra. }
  assert (B : (z < f + 1)%Z) by (rewrite Zlt_Qlt; lra).
  lia.
Qed.

Lemma Qceiling_half (z : Z) : Qceiling (inject_Z z + (1 # 2)) = (z + 1)%Z.
Proof.
  pose proof (Qle_ceiling (inject_Z z + (1 # 2))) as H1.
  pose proof (Qceiling_lt (inject_Z z + (1 # 2))) as H2.
  set (c := Qceiling (inject_Z z + (1 # 2))) in *.
  assert (A : (z < c)%Z) by (rewrite Zlt_Qlt; lra).
  assert (B : (c - 1 < z + 1)%Z).
  { rewrite Zlt_Qlt, (inject_Z_plus z 1). change (inject_Z 1) with 1. lra. }
  lia.
Qed.

(** X17. At the shapes the callers use the interpolation is exact.  With
    twice as many sorted samples as the batch has, point [k] of the grid
    lies half way between the sorted samples [2k] and [2k + 1], which are
    what [i_low] and [i_high] name, with weight 1/2 each; with as many,
    point [k] is the sorted sample [k] itself, with no weight on a
    neighbour.  No index leaves the sorted samples. *)
Theorem interpolation_at_call_sites (n_samples : nat) :
  (0 < n_samples)%nat ->
  (exists r,
     interpolation_grid (2 * n_samples) n_samples (2 * n_samples) = Returns r /\
     i_low r = map (fun k => Z.of_nat (2 * k)) (seq 0 n_samples) /\
     i_high r = map (fun k => Z.of_nat (2 * k + 1)) (seq 0 n_samples) /\
     length (weights_high r) = n_samples /\
     Forall (fun w => w == 1 # 2) (weights_high r)) /\
  (exists r,
     interpolation_grid n_samples n_samples n_samples = Returns r /\
     i_low r = map Z.of_nat (seq 0 n_samples) /\
     i_high r = map Z.of_nat (seq 0 n_samples) /\
     length (weights_high r) = n_samples /\
     Forall (fun w => w == 0) (weights_high r)).
Proof.
  intros Hs. unfold interpolation_grid.
  destruct (Nat.eqb_spec n_samples 0) as [|_]; [lia|].
  split.
  - eexists. split; [reflexivity|]. cbn [i_low i_high weights_high].
    rewrite map2_map_r. unfold linspace. rewrite !map_map, !length_map, length_seq.
    assert (F : forall k, (k < n_samples)%nat ->
              Qfloor (grid_point (2 * n_samples) n_samples k) = Z.of_nat (2 * k)).
    { intros k Hk. rewrite (Qfloor_comp _ _ (grid_point_double n_samples k Hk)).
      apply Qfloor_half. }
    assert (C : forall k, (k < n_samples)%nat ->
              Qceiling (grid_point (2 * n_samples) n_samples k) = (Z.of_nat (2 * k) + 1)%Z).
    { intros k Hk. rewrite (Qceiling_comp _ _ (grid_point_double n_samples k Hk)).
      apply Qceiling_half. }
    split; [|split; [|split; [reflexivity|]]].
    + apply map_ext_in. intros k Hk. apply in_seq in Hk.
      fold (grid_point (2 * n_samples) n_samples k). rewrite F by lia. lia.
    + apply map_ext_in. intros k Hk. apply in_seq in Hk.
      fold (grid_point (2 * n_samples) n_samples k). rewrite C by lia. lia.
    + apply Forall_forall. intros w Hw. apply in_map_iff in Hw.
      destruct Hw as (k & <- & Hk). apply in_seq in Hk.
      fold (grid_point (2 * n_samples) n_samples k). rewrite F by lia.
      rewrite (grid_point_double n_samples k) by lia. unfold Qnat. ring.
  - eexists. split; [reflexivity|]. cbn [i_low i_high weights_high].
    rewrite map2_map_r. unfold linspace. rewrite !map_map, !length_map, length_seq.
    assert (F : forall k, (k < n_samples)%nat ->
              Qfloor (grid_point n_samples n_samples k) = Z.of_nat k).
    { intros k Hk. rewrite (Qfloor_comp _ _ (grid_point_same n_samples k Hk)).
      apply Qfloor_Z. }
    assert (C : forall k, (k < n_samples)%nat ->
              Qceiling (grid_point n_samples n_samples k) = Z.of_nat k).
    { intros k Hk. rewrite (Qceiling_comp _ _ (grid_point_same n_samples k Hk)).
      apply Qceiling_Z. }
    split; [|split; [|split; [reflexivity|]]].
    + apply map_ext_in. intros k Hk. apply in_seq in Hk.
      fold (grid_point n_samples n_samples k). rewrite F by lia. lia.
    + apply map_ext_in. intros k Hk. apply in_seq in Hk.
      fold (grid_point n_samples n_samples k). rewrite C by lia. lia.
    + apply Forall_forall. intros w Hw. apply in_map_iff in Hw.
      destruct Hw as (k & <- & Hk). apply in_seq in Hk.
      fold (grid_point n_samples n_samples k). rewrite F by lia.
      rewrite (grid_point_same n_samples k) by lia. unfold Qnat. ring.
Qed.

Lemma interpolation_at_call_sites_witness :
  (exists r,
     interpolation_grid (2 * 3) 3 (2 * 3) = Returns r /\
     i_low r = map (fun k => Z.of_nat (2 * k)) (seq 0 3) /\
     i_high r = map (fun k => Z.of_nat (2 * k + 1)) (seq 0 3) /\
     length (weights_high r) = 3%nat /\
     Forall (fun w => w == 1 # 2) (weights_high r)) /\
  (exists r,
     interpolation_grid 3 3 3 = Returns r /\
     i_low r = map Z.of_nat (seq 0 3) /\
     i_high r = map Z.of_nat (seq 0 3) /\
     length (weights_high r) = 3%nat /\
     Forall (fun w => w == 0) (weights_high r)).
Proof.
  apply interpolation_at_call_sites. lia.
Defined.

(** Four sorted samples read at two points: the points are 1/2 and 5/2,
    each half way between two samples. *)
Example interpolation_grid_4_2 :
  exists r, interpolation_grid 4 2 4 = Returns r /\
            i_low r = [0; 2]%Z /\ i_high r = [1; 3]%Z /\
            Forall2 Qeq (weights_high r) [1 # 2; 1 # 2].
Proof.
  eexists. split; [reflexivity|]. split; [reflexivity|]. split; [reflexivity|].
  repeat constructor.
Qed.

(** An empty batch: the division by [n_samples] raises. *)
Example interpolation_grid_empty_batch :
  interpolation_grid 4 0 4 = Raises ZeroDivisionError.
Proof. reflexivity. Qed.

End Quantiles.

(** ** Gaussian mixture: integer partition of a sample budget *)

Module Mixture.

Local Open Scope Q_scope.
Local Open Scope outcome_scope.

Definition Qsum (l : list Q) : Q := fold_right Qplus 0 l.
Definition Zsum (l : list Z) : Z := fold_right Z.add 0%Z l.

(** [np.round]: to the nearest integer, a tie going to the even one. *)
Definition np_round (q : Q) : Z :=
  let f := Qfloor q in
  match Qcompare (q - inject_Z f) (1 # 2) with
  | Lt => f
  | Gt => (f + 1)%Z
  | Eq => if Z.even f then f else (f + 1)%Z
  end.

(** [x % 1] on numpy floats: the part of [x] above its floor. *)
Definition mod1 (q : Q) : Q := q - inject_Z (Qfloor q).

(** [a[mask]]: the entries of [a] where [mask] holds. *)
Fixpoint masked {A : Type} (a : list A) (mask : list bool) : list A :=
  match a, mask with
  | x :: a', b :: mask' => if b then x :: masked a' mask' else masked a' mask'
  | _, _ => []
  end.

(** [np.flatnonzero(mask)]: the positions where [mask] holds. *)
Fixpoint flatnonzero_from (i : nat) (mask : list bool) : list nat :=
  match mask with
  | [] => []
  | b :: mask' =>
      if b then i :: flatnonzero_from (S i) mask' else flatnonzero_from (S i) mask'
  end.

Definition flatnonzero (mask : list bool) : list nat := flatnonzero_from 0 mask.

(** [np.sum(mask)]: how often [mask] holds. *)
Definition count_true (mask : list bool) : nat := length (filter (fun b => b) mask).

(** [np.argsort(a)[0]]: the position of a least entry of [a], the earliest
    one among equals; [IndexError] on an empty array.  (numpy's default
    sort keeps equal keys in order on arrays as short as a list of
    clusters; nothing proved below depends on which of several least
    entries is taken.) *)
Fixpoint argmin_from (i : nat) (best_i : nat) (best : Q) (a : list Q) : nat :=
  match a with
  | [] => best_i
  | x :: a' =>
      if Qlt_le_dec x best then argmin_from (S i) i x a'
      else argmin_from (S i) best_i best a'
  end.

Definition argsort_first (a : list Q) : outcome nat :=
  match a with
  | [] => Raises IndexError
  | x :: a' => Returns (argmin_from 1 0 x a')
  end.

(** [a[i]] for reading; [IndexError] past the end. *)
Definition getitem {A : Type} (a : list A) (i : nat) : outcome A :=
  match nth_error a i with
  | Some x => Returns x
  | None => Raises IndexError
  end.

(** [a[i] = f(a[i])] for the augmented assignments [a[i] += c], [a[i] -= c]. *)
Fixpoint update {A : Type} (a : list A) (i : nat) (f : A -> A) : list A :=
  match a, i with
  | [], _ => []
  | x :: a', O => f x :: a'
  | x :: a', S i' => x :: update a' i' f
  end.

Definition Zpos_b (z : Z) : bool := (0 <? z)%Z.
Definition Qpos_b (q : Q) : bool := if Qlt_le_dec 0 q then true else false.
Definition Qneg_b (q : Q) : bool := if Qlt_le_dec q 0 then true else false.

(** The state of the two correction loops (lines 233-250). *)
Record partition : Type := {
  diff_with_half : list Q;
  rounded : list Z;
  n_total : Z
}.

(** One pass of [while n_total > size] (lines 234-241). *)
Definition lower_once (st : partition) : outcome partition :=
  let mask := map2 (fun d r => Qpos_b d && Zpos_b r) (diff_with_half st) (rounded st) in
  let mask := if (count_true mask =? 0)%nat then map Zpos_b (rounded st) else mask in
  i_min <- argsort_first (masked (diff_with_half st) mask) ;;
  i_min <- getitem (flatnonzero mask) i_min ;;
  Returns {| diff_with_half := update (diff_with_half st) i_min (fun d => d + (1 # 2));
             rounded := update (rounded st) i_min (fun r => (r - 1)%Z);
             n_total := (n_total st - 1)%Z |}.

(** One pass of [while n_total < size] (lines 243-250). *)
Definition raise_once (st : partition) : outcome partition :=
  let mask := map2 (fun d r => Qneg_b d && Zpos_b r) (diff_with_half st) (rounded st) in
  let mask := if (count_true mask =? 0)%nat then map Zpos_b (rounded st) else mask in
  i_min <- argsort_first (masked (map Qopp (diff_with_half st)) mask) ;;
  i_min <- getitem (flatnonzero mask) i_min ;;
  Returns {| diff_with_half := update (diff_with_half st) i_min (fun d => d - (1 # 2));
             rounded := update (rounded st) i_min (fun r => (r + 1)%Z);
             n_total := (n_total st + 1)%Z |}.

(** A [while] loop whose guard compares a counter that every pass moves by
    one towards its bound runs as many passes as the two are apart. *)
Fixpoint passes (k : nat) (once : partition -> outcome partition) (st : partition)
  : outcome partition :=
  match k with
  | O => Returns st
  | S k' => st' <- once st ;; passes k' once st'
  end.

(** [sizes_from_weights(size, weights)], lines 223-255.  The division by
    [np.sum(weights)] is exact division; a zero sum (numpy: [nan]/[inf]
    entries) is outside the model and excluded wherever it would matter. *)
Definition initial (size : Z) (weights : list Q) : partition :=
  let weights := map (fun w => w / Qsum weights) weights in
  let fractional_sizes := map (fun w => w * inject_Z size) weights in
  let rounded := map np_round fractional_sizes in
  {| diff_with_half := map (fun f => mod1 f - (1 # 2)) fractional_sizes;
     rounded := rounded;
     n_total := Zsum rounded |}.

Definition sizes_from_weights (size : Z) (weights : list Q) : outcome (list Z) :=
  let st := initial size weights in
  st <- passes (Z.to_nat (n_total st - size)) lower_once st ;;
  st <- passes (Z.to_nat (size - n_total st)) raise_once st ;;
  _ <- assert (Zsum (rounded st) =? size)%Z ;;
  Returns (rounded st).

(** *** Sampling the mixture (lines 206-220) *)

(** An elementwise operation on two rows with torch's broadcasting along
    the one dimension they have: equal lengths, or one of them of length 1. *)
Definition broadcast2 (f : Q -> Q -> Q) (a b : list Q) : outcome (list Q) :=
  if (length a =? length b)%nat then Returns (map2 f a b)
  else match a, b with
       | [x], _ => Returns (map (f x) b)
       | _, [y] => Returns (map (fun x => f x y) a)
       | _, _ => Raises RuntimeError
       end.

(** [samples * std.unsqueeze(0) + mean.unsqueeze(0)], row by row. *)
Definition scale_shift (samples : list (list Q)) (std mean : list Q)
  : outcome (list (list Q)) :=
  map_outcome (fun row => scaled <- broadcast2 Qmult row std ;;
                          broadcast2 Qplus scaled mean) samples.

(** The width of a matrix given as its rows: [t.size()[1]]. *)
Definition width (t : list (list Q)) : nat := length (hd [] t).

(** [th.cat(parts, dim=0)]: needs at least one part, and parts of one width. *)
Definition cat_rows (parts : list (list (list Q))) : outcome (list (list Q)) :=
  match parts with
  | [] => Raises RuntimeError
  | p :: _ =>
      if forallb (fun q => (width q =? width p)%nat) parts
      then Returns (concat parts) else Raises RuntimeError
  end.

(** [zip(a, b, c)] stops with the shortest. *)
Fixpoint zip3 {A B C : Type} (a : list A) (b : list B) (c : list C) : list (A * B * C) :=
  match a, b, c with
  | x :: a', y :: b', z :: c' => (x, y, z) :: zip3 a' b' c'
  | _, _, _ => []
  end.

Section Sampling.

(** The random generator behind [th.randn]: a state that each call
    consumes and replaces. *)
Variable rng : Type.
Variable randn : nat -> nat -> rng -> list (list Q) * rng.

Definition sample_cluster (n_dims : nat) (st : list (list (list Q)) * rng)
  (c : Z * list Q * list Q) : outcome (list (list (list Q)) * rng) :=
  let '(parts, g) := st in
  let '(n_samples, mean, std) := c in
  if (n_samples =? 0)%Z then Returns (parts, g)
  else
    _ <- assert (0 <? n_samples)%Z ;;
    let '(samples, g) := randn (Z.to_nat n_samples) n_dims g in
    samples <- scale_shift samples std mean ;;
    Returns (parts ++ [samples], g).

Definition sample_mixture_gaussian (sizes_per_cluster : list Z)
  (means_per_dim stds_per_dim : list (list Q)) (g : rng)
  : outcome (list (list Q) * rng) :=
  let n_dims := width means_per_dim in
  '(parts, g) <- for_each (sample_cluster n_dims)
                   (zip3 sizes_per_cluster means_per_dim stds_per_dim) ([], g) ;;
  all_samples <- cat_rows parts ;;
  Returns (all_samples, g).

End Sampling.

(** *** Per-sample weights (lines 607-626) *)

(** A differentiable scalar: its numeric value ([var_to_np]) and its
    derivative along some perturbation of the parameters. *)
Record var : Type := { data : Q; grad : Q }.

(** [weight / np_weight]: division by a plain float, which carries no
    derivative. *)
Definition div_float (w : var) (c : Q) : var :=
  {| data := data w / c; grad := grad w / c |}.

(** [th.cat(parts)] on one-dimensional parts. *)
Definition cat_flat {A : Type} (parts : list (list A)) : outcome (list A) :=
  match parts with
  | [] => Raises RuntimeError
  | _ => Returns (concat parts)
  end.

Definition weight_of_cluster (weights_per_cluster : list var) (sizes : list Z)
  (all_weights : list (list var)) (i_cluster : nat) : outcome (list (list var)) :=
  size <- getitem sizes i_cluster ;;
  weight <- getitem weights_per_cluster i_cluster ;;
  if (size =? 0)%Z then Returns all_weights
  else
    _ <- assert (0 <? size)%Z ;;
    let np_weight := data weight in
    _ <- assert (Qle_bool 0 np_weight) ;;
    let new_weight := if Qpos_b np_weight then div_float weight np_weight else weight in
    Returns (all_weights ++ [repeat new_weight (Z.to_nat size)]).

Definition get_weights_per_sample (weights_per_cluster : list var) (sizes : list Z)
  : outcome (list var) :=
  all_weights <- for_each (weight_of_cluster weights_per_cluster sizes)
                   (seq 0 (length sizes)) [] ;;
  cat_flat all_weights.

(** *** Statements *)

Example sizes_10_thirds :
  sizes_from_weights 10 [1; 1; 1] = Returns [4; 3; 3]%Z.
Proof. vm_compute. reflexivity. Qed.

Example sizes_3_halves :
  sizes_from_weights 3 [1; 1] = Returns [1; 2]%Z.
Proof. vm_compute. reflexivity. Qed.

(** C2, at an input where the source fails.  With [size = 1] and three
    equal weights every fractional size is 1/3 and rounds to 0; the second
    loop then looks for a cluster with [rounded > 0] to enlarge, finds the
    mask empty both times, and [np.argsort(...)[0]] raises [IndexError]. *)
Theorem sizes_from_weights_one_of_three :
  rounded (initial 1 [1; 1; 1]) = [0; 0; 0]%Z /\
  sizes_from_weights 1 [1; 1; 1] = Raises IndexError.
Proof. split; vm_compute; reflexivity. Qed.

Lemma Zsum_cons (x : Z) (l : list Z) : Zsum (x :: l) = (x + Zsum l)%Z.
Proof. reflexivity. Qed.

Lemma Zsum_nonneg (l : list Z) : Forall (fun s => (0 <= s)%Z) l -> (0 <= Zsum l)%Z.
Proof.
  induction 1; [simpl; lia|]. rewrite Zsum_cons. lia.
Qed.

(** What [get_weights_per_sample] appends, cluster by cluster. *)
Fixpoint weight_blocks (weights : list var) (sizes : list Z) : list (list var) :=
  match weights, sizes with
  | w :: weights', s :: sizes' =>
      if (s =? 0)%Z then weight_blocks weights' sizes'
      else repeat (div_float w (data w)) (Z.to_nat s) :: weight_blocks weights' sizes'
  | _, _ => []
  end.

Lemma skipn_cons_inv {A : Type} (l : list A) (k : nat) (x : A) (r : list A) :
  skipn k l = x :: r -> nth_error l k = Some x /\ skipn (S k) l = r.
Proof.
  revert l. induction k as [|k IH]; intros [|y l] H; simpl in *; try discriminate.
  - injection H as -> ->. now split.
  - apply IH in H. exact H.
Qed.

Lemma Qpos_b_true (q : Q) : 0 < q -> Qpos_b q = true.
Proof.
  intros H. unfold Qpos_b. destruct (Qlt_le_dec 0 q); [reflexivity|lra].
Qed.

Lemma for_each_weights (weights : list var) (sizes : list Z) :
  forall (rest_s : list Z) (rest_w : list var) (k : nat) (acc : list (list var)),
    skipn k sizes = rest_s ->
    skipn k weights = rest_w ->
    length rest_w = length rest_s ->
    Forall (fun s => (0 <= s)%Z) rest_s ->
    Forall (fun w => 0 < data w) rest_w ->
    for_each (weight_of_cluster weights sizes) (seq k (length rest_s)) acc
      = Returns (acc ++ weight_blocks rest_w rest_s).
Proof.
  induction rest_s as [|s rest_s IH]; intros rest_w k acc Hs Hw Hlen Hnn Hpos.
  - destruct rest_w; [|discriminate]. simpl. now rewrite app_nil_r.
  - destruct rest_w as [|w rest_w]; [discriminate|].
    apply skipn_cons_inv in Hs. destruct Hs as [Hks Hs].
    apply skipn_cons_inv in Hw. destruct Hw as [Hkw Hw].
    pose proof (Forall_inv Hnn) as Hs0. pose proof (Forall_inv_tail Hnn) as Hnn'.
    pose proof (Forall_inv Hpos) as Hw0. pose proof (Forall_inv_tail Hpos) as Hpos'.
    cbn beta in Hs0, Hw0.
    cbn [length seq for_each]. unfold weight_of_cluster at 1, getitem.
    rewrite Hks, Hkw. cbn [bind weight_blocks].
    destruct (Z.eqb_spec s 0) as [->|Hne].
    + cbn [bind]. apply IH; auto.
    + replace (0 <? s)%Z with true by (symmetry; apply Z.ltb_lt; lia).
      replace (Qle_bool 0 (data w)) with true
        by (symmetry; apply Qle_bool_iff; lra).
      rewrite Qpos_b_true by assumption. cbn [assert bind].
      rewrite (IH rest_w (S k)); auto.
      now rewrite <- app_assoc.
Qed.

Lemma weight_blocks_length (weights : list var) (sizes : list Z) :
  length weights = length sizes ->
  Forall (fun s => (0 <= s)%Z) sizes ->
  length (concat (weight_blocks weights sizes)) = Z.to_nat (Zsum sizes).
Proof.
  revert sizes. induction weights as [|w weights IH]; intros [|s sizes] Hlen Hnn;
    try discriminate; try reflexivity.
  inversion Hnn as [|? ? Hs Hnn']; subst.
  assert (Hsum : (0 <= Zsum sizes)%Z).
  { clear -Hnn'. induction Hnn'; simpl; lia. }
  cbn [weight_blocks Zsum fold_right].
  fold (Zsum sizes).
  destruct (Z.eqb_spec s 0) as [->|Hne].
  - rewrite IH by (auto; simpl in Hlen; lia). reflexivity.
  - cbn [concat]. rewrite length_app, repeat_length, IH by (auto; simpl in Hlen; lia).
    lia.
Qed.

Lemma weight_blocks_nonempty (weights : list var) (sizes : list Z) :
  length weights = length sizes ->
  Forall (fun s => (0 <= s)%Z) sizes ->
  (0 < Zsum sizes)%Z ->
  weight_blocks weights sizes <> [].
Proof.
  revert sizes. induction weights as [|w weights IH]; intros [|s sizes] Hlen Hnn Hsum;
    try discriminate; simpl in Hsum; try lia.
  inversion Hnn; subst. cbn [weight_blocks].
  destruct (Z.eqb_spec s 0) as [->|Hne]; [|discriminate].
  apply IH; auto.
Qed.

Lemma weight_blocks_entries (weights : list var) (sizes : list Z) :
  Forall (fun w => 0 < data w) weights ->
  Forall (fun w => data w == 1 /\
                   exists c, In c weights /\ grad w == grad c / data c)
         (concat (weight_blocks weights sizes)).
Proof.
  revert sizes. induction weights as [|c weights IH]; intros sizes Hpos.
  - constructor.
  - inversion Hpos as [|? ? Hc Hpos']; subst.
    assert (Htail : forall sizes',
      Forall (fun w => data w == 1 /\
                exists c0, In c0 (c :: weights) /\ grad w == grad c0 / data c0)
             (concat (weight_blocks weights sizes'))).
    { intros sizes'. eapply Forall_impl; [|apply (IH sizes' Hpos')].
      intros w [H1 (c0 & Hin & Hg)]. split; [exact H1|].
      exists c0. split; [now right|exact Hg]. }
    destruct sizes as [|s sizes]; [constructor|]. cbn [weight_blocks].
    destruct (s =? 0)%Z; [apply Htail|].
    cbn [concat]. apply Forall_app. split; [|apply Htail].
    apply Forall_forall. intros w Hin. apply repeat_spec in Hin. subst w.
    split.
    + simpl. field. lra.
    + exists c. split; [now left|reflexivity].
Qed.

(** C9. For weights that are all strictly positive, one per cluster, and
    sizes (non-negative counts, as the source asserts) of positive total,
    [get_weights_per_sample] returns one weight per sample, each of numeric
    value exactly 1; its derivative is that of its cluster's weight divided
    by the weight's own value, the relative gradient. *)
Theorem get_weights_per_sample_ones (weights_per_cluster : list var) (sizes : list Z) :
  length weights_per_cluster = length sizes ->
  Forall (fun w => 0 < data w) weights_per_cluster ->
  Forall (fun s => (0 <= s)%Z) sizes ->
  (0 < Zsum sizes)%Z ->
  exists ws,
    get_weights_per_sample weights_per_cluster sizes = Returns ws /\
    length ws = Z.to_nat (Zsum sizes) /\
    Forall (fun w => data w == 1 /\
                     exists c, In c weights_per_cluster /\ grad w == grad c / data c) ws.
Proof.
  intros Hlen Hpos Hnn Hsum.
  exists (concat (weight_blocks weights_per_cluster sizes)).
  split; [|split].
  - unfold get_weights_per_sample.
    rewrite (for_each_weights weights_per_cluster sizes sizes weights_per_cluster 0 [])
      by auto.
    cbn [bind app]. unfold cat_flat.
    pose proof (weight_blocks_nonempty _ _ Hlen Hnn Hsum) as Hne.
    destruct (weight_blocks weights_per_cluster sizes); [contradiction|reflexivity].
  - now apply weight_blocks_length.
  - now apply weight_blocks_entries.
Qed.

Lemma get_weights_per_sample_ones_witness :
  exists ws,
    get_weights_per_sample
      [ {| data := 1 # 4; grad := 1 |}; {| data := 3 # 4; grad := -1 |} ] [2; 0]%Z
      = Returns ws /\
    length ws = Z.to_nat (Zsum [2; 0]%Z) /\
    Forall (fun w => data w == 1 /\
                     exists c, In c [ {| data := 1 # 4; grad := 1 |};
                                      {| data := 3 # 4; grad := -1 |} ] /\
                               grad w == grad c / data c) ws.
Proof.
  apply get_weights_per_sample_ones.
  - reflexivity.
  - repeat constructor.
  - repeat constructor; discriminate.
  - reflexivity.
Defined.

Example weights_per_sample_quarter :
  get_weights_per_sample
    [ {| data := 1 # 4; grad := 1 |}; {| data := 3 # 4; grad := -1 |} ] [2; 1]%Z
  = Returns [ {| data := (1 # 4) / (1 # 4); grad := 1 / (1 # 4) |};
              {| data := (1 # 4) / (1 # 4); grad := 1 / (1 # 4) |};
              {| data := (3 # 4) / (3 # 4); grad := -1 / (3 # 4) |} ].
Proof. reflexivity. Qed.

(** *** The partition, where the call returns *)

Lemma update_length {A : Type} (a : list A) (i : nat) (f : A -> A) :
  length (update a i f) = length a.
Proof.
  revert i. induction a as [|x a IH]; intros [|i]; simpl; try reflexivity.
  now rewrite IH.
Qed.

Lemma update_Zsum (r : list Z) (i : nat) (f : Z -> Z) (ri : Z) :
  nth_error r i = Some ri ->
  Zsum (update r i f) = (Zsum r + (f ri - ri))%Z.
Proof.
  revert i. induction r as [|x r IH]; intros [|i] E; simpl in E; try discriminate.
  - injection E as ->. cbn [update]. rewrite !Zsum_cons. lia.
  - cbn [update]. rewrite !Zsum_cons, (IH i E). lia.
Qed.

Lemma update_Forall {A : Type} (P : A -> Prop) (a : list A) (i : nat) (f : A -> A) :
  Forall P a ->
  (forall x, nth_error a i = Some x -> P (f x)) ->
  Forall P (update a i f).
Proof.
  intros Ha. revert i. induction Ha as [|x a Hx Ha IH]; intros i Hf.
  - destruct i; constructor.
  - destruct i as [|i]; cbn [update].
    + constructor; [apply Hf; reflexivity|exact Ha].
    + constructor; [exact Hx|apply IH; intros y Hy; apply Hf; exact Hy].
Qed.

Lemma update_Exists_grow (r : list Z) (i : nat) :
  Exists (fun z => (0 < z)%Z) r ->
  Forall (fun z => (0 <= z)%Z) r ->
  Exists (fun z => (0 < z)%Z) (update r i (fun z => (z + 1)%Z)).
Proof.
  intros Hex Hnn. revert i.
  induction Hnn as [|x r Hx Hnn IH]; intros i; [inversion Hex|].
  destruct i as [|i]; cbn [update].
  - left. lia.
  - inversion Hex as [? ? Hpos|? ? Hex']; subst; [now left|right; now apply IH].
Qed.

Lemma flatnonzero_from_spec (mask : list bool) :
  forall s i, In i (flatnonzero_from s mask) ->
    (s <= i)%nat /\ nth_error mask (i - s) = Some true.
Proof.
  induction mask as [|b mask IH]; intros s i Hin; [contradiction|].
  cbn [flatnonzero_from] in Hin.
  assert (Htail : In i (flatnonzero_from (S s) mask) ->
                  (s <= i)%nat /\ nth_error (b :: mask) (i - s) = Some true).
  { intros H. apply IH in H. destruct H as [Hle H]. split; [lia|].
    replace (i - s)%nat with (S (i - S s)) by lia. exact H. }
  destruct b; [|now apply Htail].
  destruct Hin as [<-|Hin]; [|now apply Htail].
  split; [lia|]. now rewrite Nat.sub_diag.
Qed.

Lemma flatnonzero_spec (mask : list bool) (i : nat) :
  In i (flatnonzero mask) -> nth_error mask i = Some true.
Proof.
  intros H. apply flatnonzero_from_spec in H. destruct H as [_ H].
  now rewrite Nat.sub_0_r in H.
Qed.

Lemma flatnonzero_length (mask : list bool) :
  length (flatnonzero mask) = count_true mask.
Proof.
  unfold flatnonzero, count_true. generalize 0%nat.
  induction mask as [|b mask IH]; intros s; [reflexivity|].
  cbn [flatnonzero_from filter]. destruct b; simpl; now rewrite IH.
Qed.

Lemma masked_length {A : Type} (a : list A) (mask : list bool) :
  length a = length mask -> length (masked a mask) = count_true mask.
Proof.
  unfold count_true. revert mask.
  induction a as [|x a IH]; intros [|b mask] H; try discriminate; [reflexivity|].
  cbn [masked filter]. destruct b; simpl; rewrite IH; auto.
Qed.

Lemma argmin_from_bound (a : list Q) :
  forall i best_i best, (best_i < i)%nat ->
    (argmin_from i best_i best a < i + length a)%nat.
Proof.
  induction a as [|x a IH]; intros i best_i best H; cbn [argmin_from length]; [lia|].
  destruct (Qlt_le_dec x best).
  - pose proof (IH (S i) i x ltac:(lia)). lia.
  - pose proof (IH (S i) best_i best ltac:(lia)). lia.
Qed.

(** The two lines that choose the cluster to change: they return a
    position where the mask holds, and they return as soon as the mask
    holds somewhere. *)
Definition choose (keys : list Q) (mask : list bool) : outcome nat :=
  i_min <- argsort_first (masked keys mask) ;;
  getitem (flatnonzero mask) i_min.

Lemma choose_in_mask (keys : list Q) (mask : list bool) (i : nat) :
  choose keys mask = Returns i -> nth_error mask i = Some true.
Proof.
  unfold choose. destruct (argsort_first (masked keys mask)) as [k|]; [|discriminate].
  cbn [bind]. unfold getitem.
  destruct (nth_error (flatnonzero mask) k) as [j|] eqn:E; [|discriminate].
  intros H. injection H as <-. apply flatnonzero_spec. eapply nth_error_In, E.
Qed.

Lemma choose_returns (keys : list Q) (mask : list bool) :
  length keys = length mask -> (0 < count_true mask)%nat ->
  exists i, choose keys mask = Returns i.
Proof.
  intros Hlen Hpos. unfold choose.
  pose proof (masked_length keys mask Hlen) as Hm.
  destruct (masked keys mask) as [|x a] eqn:E; [simpl in Hm; lia|].
  cbn [argsort_first bind]. unfold getitem.
  pose proof (argmin_from_bound a 1 0 x ltac:(lia)) as Hb.
  destruct (nth_error (flatnonzero mask) (argmin_from 1 0 x a)) as [i|] eqn:Ei;
    [now exists i|].
  apply nth_error_None in Ei. rewrite flatnonzero_length in Ei.
  simpl in Hm. lia.
Qed.

Lemma choose_empty (keys : list Q) (mask : list bool) :
  count_true mask = 0%nat -> length keys = length mask ->
  choose keys mask = Raises IndexError.
Proof.
  intros Hz Hlen. unfold choose.
  pose proof (masked_length keys mask Hlen) as Hm. rewrite Hz in Hm.
  destruct (masked keys mask); [reflexivity|discriminate].
Qed.

(** The mask of either loop: the clusters on the wanted side of one half
    that hold a sample, or, when there is none, the clusters that hold a
    sample. *)
Definition loop_mask (side : Q -> bool) (ds : list Q) (rs : list Z) : list bool :=
  let mask := map2 (fun d r => side d && Zpos_b r) ds rs in
  if (count_true mask =? 0)%nat then map Zpos_b rs else mask.

Lemma nth_error_map2 {A B C : Type} (f : A -> B -> C) (a : list A) (b : list B)
  (i : nat) (c : C) :
  nth_error (map2 f a b) i = Some c ->
  exists x y, nth_error a i = Some x /\ nth_error b i = Some y /\ c = f x y.
Proof.
  revert b i. induction a as [|x a IH]; intros [|y b] [|i] E; simpl in E;
    try discriminate.
  - injection E as <-. exists x, y. auto.
  - apply IH in E. exact E.
Qed.

Lemma loop_mask_positive (side : Q -> bool) (ds : list Q) (rs : list Z) (i : nat) :
  nth_error (loop_mask side ds rs) i = Some true ->
  exists r, nth_error rs i = Some r /\ (0 < r)%Z.
Proof.
  unfold loop_mask.
  destruct (count_true (map2 (fun d r => side d && Zpos_b r) ds rs) =? 0)%nat; intros E.
  - rewrite nth_error_map in E. destruct (nth_error rs i) as [r|]; [|discriminate].
    exists r. split; [reflexivity|]. injection E as E. now apply Z.ltb_lt.
  - apply nth_error_map2 in E. destruct E as (d & r & _ & Hr & E).
    exists r. split; [exact Hr|]. symmetry in E. apply andb_true_iff in E.
    now apply Z.ltb_lt.
Qed.

Lemma loop_mask_length (side : Q -> bool) (ds : list Q) (rs : list Z) :
  length ds = length rs -> length (loop_mask side ds rs) = length ds.
Proof.
  intros H. unfold loop_mask.
  destruct (count_true _ =? 0)%nat; [now rewrite length_map|now apply map2_length].
Qed.

Lemma count_true_positive (rs : list Z) :
  Exists (fun z => (0 < z)%Z) rs -> (0 < count_true (map Zpos_b rs))%nat.
Proof.
  unfold count_true. induction 1 as [r rs Hr|r rs _ IH]; cbn [map filter].
  - replace (Zpos_b r) with true by (symmetry; now apply Z.ltb_lt). simpl. lia.
  - destruct (Zpos_b r); simpl; lia.
Qed.

Lemma loop_mask_inhabited (side : Q -> bool) (ds : list Q) (rs : list Z) :
  Exists (fun z => (0 < z)%Z) rs -> (0 < count_true (loop_mask side ds rs))%nat.
Proof.
  intros H. unfold loop_mask.
  destruct (Nat.eqb_spec (count_true (map2 (fun d r => side d && Zpos_b r) ds rs)) 0);
    [now apply count_true_positive|lia].
Qed.

Lemma loop_mask_empty (side : Q -> bool) (ds : list Q) (rs : list Z) :
  Forall (fun z => (z <= 0)%Z) rs -> count_true (loop_mask side ds rs) = 0%nat.
Proof.
  intros H.
  assert (H2 : count_true (map Zpos_b rs) = 0%nat).
  { unfold count_true. induction H as [|r rs Hr _ IH]; [reflexivity|].
    cbn [map filter]. replace (Zpos_b r) with false; [exact IH|].
    symmetry. apply Z.ltb_ge. exact Hr. }
  unfold loop_mask. destruct (Nat.eqb_spec (count_true
    (map2 (fun d r => side d && Zpos_b r) ds rs)) 0) as [E|E]; [exact H2|].
  exfalso. apply E. clear E H2. unfold count_true. revert ds.
  induction H as [|r rs Hr _ IH]; intros [|d ds]; try reflexivity.
  cbn [map2 filter]. replace (Zpos_b r) with false
    by (symmetry; apply Z.ltb_ge; exact Hr).
  rewrite andb_false_r. apply IH.
Qed.

Lemma lower_once_choose (st : partition) :
  lower_once st
  = bind (choose (diff_with_half st) (loop_mask Qpos_b (diff_with_half st) (rounded st)))
      (fun i_min =>
         Returns {| diff_with_half := update (diff_with_half st) i_min (fun d => d + (1 # 2));
                    rounded := update (rounded st) i_min (fun r => (r - 1)%Z);
                    n_total := (n_total st - 1)%Z |}).
Proof.
  unfold lower_once, choose, loop_mask.
  destruct (argsort_first _); reflexivity.
Qed.

Lemma raise_once_choose (st : partition) :
  raise_once st
  = bind (choose (map Qopp (diff_with_half st))
            (loop_mask Qneg_b (diff_with_half st) (rounded st)))
      (fun i_min =>
         Returns {| diff_with_half := update (diff_with_half st) i_min (fun d => d - (1 # 2));
                    rounded := update (rounded st) i_min (fun r => (r + 1)%Z);
                    n_total := (n_total st + 1)%Z |}).
Proof.
  unfold raise_once, choose, loop_mask.
  destruct (argsort_first _); reflexivity.
Qed.

(** What the loops keep: counts that are not negative, [n_total] their
    sum, one [diff_with_half] per count. *)
Definition consistent (st : partition) : Prop :=
  Forall (fun r => (0 <= r)%Z) (rounded st) /\
  n_total st = Zsum (rounded st) /\
  length (diff_with_half st) = length (rounded st).

Lemma lower_once_keeps (st st' : partition) :
  consistent st -> lower_once st = Returns st' ->
  consistent st' /\ n_total st' = (n_total st + -1)%Z /\
  length (rounded st') = length (rounded st).
Proof.
  intros (Hnn & Hsum & Hlen) E. rewrite lower_once_choose in E.
  destruct (choose _ _) as [i|] eqn:Ec; [|discriminate].
  cbn [bind] in E. injection E as <-. unfold consistent.
  cbn [rounded diff_with_half n_total].
  apply choose_in_mask, loop_mask_positive in Ec. destruct Ec as (r & Hr & Hpos).
  split; [|split; [reflexivity|apply update_length]].
  split; [|split].
  - apply update_Forall; [exact Hnn|]. intros x Hx.
    rewrite Hr in Hx. injection Hx as <-. lia.
  - rewrite (update_Zsum _ _ _ r Hr). lia.
  - now rewrite !update_length.
Qed.

Lemma raise_once_keeps (st st' : partition) :
  consistent st -> raise_once st = Returns st' ->
  consistent st' /\ n_total st' = (n_total st + 1)%Z /\
  length (rounded st') = length (rounded st).
Proof.
  intros (Hnn & Hsum & Hlen) E. rewrite raise_once_choose in E.
  destruct (choose _ _) as [i|] eqn:Ec; [|discriminate].
  cbn [bind] in E. injection E as <-. unfold consistent.
  cbn [rounded diff_with_half n_total].
  apply choose_in_mask, loop_mask_positive in Ec. destruct Ec as (r & Hr & Hpos).
  split; [|split; [reflexivity|apply update_length]].
  split; [|split].
  - apply update_Forall; [exact Hnn|]. intros x Hx.
    rewrite Hr in Hx. injection Hx as <-. lia.
  - rewrite (update_Zsum _ _ _ r Hr). lia.
  - now rewrite !update_length.
Qed.

Lemma passes_keep (once : partition -> outcome partition) (step : Z) :
  (forall st st', consistent st -> once st = Returns st' ->
     consistent st' /\ n_total st' = (n_total st + step)%Z /\
     length (rounded st') = length (rounded st)) ->
  forall k st st',
    consistent st -> passes k once st = Returns st' ->
    consistent st' /\ n_total st' = (n_total st + Z.of_nat k * step)%Z /\
    length (rounded st') = length (rounded st).
Proof.
  intros Honce. induction k as [|k IH]; intros st st' Hc E; cbn [passes] in E.
  - injection E as <-. split; [exact Hc|]. split; [lia|reflexivity].
  - destruct (once st) as [st1|] eqn:E1; [|discriminate]. cbn [bind] in E.
    destruct (Honce _ _ Hc E1) as (Hc1 & Hn1 & Hl1).
    destruct (IH _ _ Hc1 E) as (Hc' & Hn' & Hl').
    split; [exact Hc'|]. split; [lia|congruence].
Qed.

Lemma np_round_nonneg (q : Q) : 0 <= q -> (0 <= np_round q)%Z.
Proof.
  intros Hq. pose proof (Qfloor_resp_le 0 q Hq) as Hf.
  change (Qfloor 0) with 0%Z in Hf. unfold np_round.
  destruct (Qcompare (q - inject_Z (Qfloor q)) (1 # 2)); [|lia|lia].
  destruct (Z.even (Qfloor q)); lia.
Qed.

Lemma initial_rounded (size : Z) (weights : list Q) :
  rounded (initial size weights)
  = map (fun w => np_round (w / Qsum weights * inject_Z size)) weights.
Proof.
  unfold initial. cbn [rounded]. now rewrite !map_map.
Qed.

Lemma initial_consistent (size : Z) (weights : list Q) :
  Forall (fun w => 0 <= w) weights -> 0 < Qsum weights -> (0 <= size)%Z ->
  consistent (initial size weights).
Proof.
  intros Hw Hsum Hsize. split; [|split].
  - rewrite initial_rounded. apply Forall_map. eapply Forall_impl; [|exact Hw].
    intros w H. apply np_round_nonneg. apply Qmult_le_0_compat.
    + apply Qle_shift_div_l; [exact Hsum|]. now rewrite Qmult_0_l.
    + change 0 with (inject_Z 0). now rewrite <- Zle_Qle.
  - reflexivity.
  - unfold initial. cbn [diff_with_half rounded]. now rewrite !length_map.
Qed.

(** X1. Where [sizes_from_weights] returns, what it returns is a partition
    of [size]: one count per weight, none negative, summing to [size]. *)
Lemma sizes_from_weights_partition (size : Z) (weights : list Q) (sizes : list Z) :
  Forall (fun w => 0 <= w) weights -> 0 < Qsum weights -> (0 <= size)%Z ->
  sizes_from_weights size weights = Returns sizes ->
  length sizes = length weights /\
  Forall (fun s => (0 <= s)%Z) sizes /\
  Zsum sizes = size.
Proof.
  intros Hw Hsum Hsize E. unfold sizes_from_weights in E.
  pose proof (initial_consistent size weights Hw Hsum Hsize) as H0.
  destruct (passes _ lower_once (initial size weights)) as [st1|] eqn:E1; [|discriminate].
  cbn [bind] in E.
  destruct (passes_keep lower_once (-1)
              lower_once_keeps _ _ _ H0 E1)
    as (H1 & _ & L1).
  destruct (passes _ raise_once st1) as [st2|] eqn:E2; [|discriminate].
  cbn [bind] in E.
  destruct (passes_keep raise_once 1
              raise_once_keeps _ _ _ H1 E2)
    as (H2 & _ & L2).
  destruct (Z.eqb_spec (Zsum (rounded st2)) size) as [Es|]; [|discriminate].
  cbn [assert bind] in E. injection E as <-.
  destruct H2 as (Hnn & _ & _). split; [|split; assumption].
  rewrite L2, L1, initial_rounded. apply length_map.
Qed.

Lemma Zsum_positive (l : list Z) :
  Forall (fun z => (0 <= z)%Z) l -> (0 < Zsum l)%Z -> Exists (fun z => (0 < z)%Z) l.
Proof.
  induction 1 as [|x l Hx Hl IH]; intros Hs; [simpl in Hs; lia|].
  rewrite Zsum_cons in Hs.
  destruct (Z.eq_dec x 0) as [->|Hne]; [right; apply IH; lia|left; lia].
Qed.

Lemma lower_once_returns (st : partition) :
  consistent st -> Exists (fun z => (0 < z)%Z) (rounded st) ->
  exists st', lower_once st = Returns st'.
Proof.
  intros (_ & _ & Hlen) Hex. rewrite lower_once_choose.
  destruct (choose_returns (diff_with_half st)
              (loop_mask Qpos_b (diff_with_half st) (rounded st))) as [i Ei].
  - now rewrite loop_mask_length.
  - now apply loop_mask_inhabited.
  - rewrite Ei. cbn [bind]. eauto.
Qed.

Lemma raise_once_returns (st : partition) :
  consistent st -> Exists (fun z => (0 < z)%Z) (rounded st) ->
  exists st', raise_once st = Returns st' /\
              Exists (fun z => (0 < z)%Z) (rounded st').
Proof.
  intros (Hnn & _ & Hlen) Hex. rewrite raise_once_choose.
  destruct (choose_returns (map Qopp (diff_with_half st))
              (loop_mask Qneg_b (diff_with_half st) (rounded st))) as [i Ei].
  - now rewrite length_map, loop_mask_length.
  - now apply loop_mask_inhabited.
  - rewrite Ei. cbn [bind]. eexists. split; [reflexivity|].
    cbn [rounded]. now apply update_Exists_grow.
Qed.

Lemma lower_passes_return (size : Z) :
  (0 <= size)%Z ->
  forall k st,
    consistent st -> (Z.of_nat k <= Z.max 0 (n_total st - size))%Z ->
    exists st', passes k lower_once st = Returns st'.
Proof.
  intros Hsize. induction k as [|k IH]; intros st Hc Hn; cbn [passes]; [eauto|].
  assert (Hex : Exists (fun z => (0 < z)%Z) (rounded st)).
  { destruct Hc as (Hnn & Hsum & _). apply Zsum_positive; [exact Hnn|]. lia. }
  destruct (lower_once_returns st Hc Hex) as [st1 E1]. rewrite E1. cbn [bind].
  destruct (lower_once_keeps _ _ Hc E1) as (Hc1 & Hn1 & _).
  apply IH; [exact Hc1|lia].
Qed.

Lemma raise_passes_return :
  forall k st,
    consistent st -> Exists (fun z => (0 < z)%Z) (rounded st) ->
    exists st', passes k raise_once st = Returns st'.
Proof.
  induction k as [|k IH]; intros st Hc Hex; cbn [passes]; [eauto|].
  destruct (raise_once_returns st Hc Hex) as (st1 & E1 & Hex1). rewrite E1. cbn [bind].
  destruct (raise_once_keeps _ _ Hc E1) as (Hc1 & _ & _).
  now apply IH.
Qed.

(** X2. [sizes_from_weights] returns whenever some fractional size rounds
    to a positive count ... *)
Lemma sizes_from_weights_returns (size : Z) (weights : list Q) :
  Forall (fun w => 0 <= w) weights -> 0 < Qsum weights -> (0 < size)%Z ->
  Exists (fun r => (0 < r)%Z) (rounded (initial size weights)) ->
  exists sizes, sizes_from_weights size weights = Returns sizes.
Proof.
  intros Hw Hsum Hsize Hex. unfold sizes_from_weights.
  pose proof (initial_consistent size weights Hw Hsum ltac:(lia)) as H0.
  set (st0 := initial size weights) in *.
  destruct (lower_passes_return size ltac:(lia) (Z.to_nat (n_total st0 - size)) st0 H0
              ltac:(lia)) as [st1 E1].
  rewrite E1. cbn [bind].
  destruct (passes_keep lower_once (-1)
              lower_once_keeps _ _ _ H0 E1)
    as (H1 & N1 & _).
  assert (Hex1 : Exists (fun r => (0 < r)%Z) (rounded st1)).
  { destruct (Z.to_nat (n_total st0 - size)) as [|k] eqn:Ek.
    - cbn [passes] in E1. now injection E1 as <-.
    - destruct H1 as (Hnn & Hs & _). apply Zsum_positive; [exact Hnn|]. lia. }
  destruct (raise_passes_return (Z.to_nat (size - n_total st1)) st1 H1 Hex1) as [st2 E2].
  rewrite E2. cbn [bind].
  destruct (passes_keep raise_once 1
              raise_once_keeps _ _ _ H1 E2)
    as ((_ & S2 & _) & N2 & _).
  replace (Zsum (rounded st2) =? size)%Z with true by (symmetry; apply Z.eqb_eq; lia).
  cbn [assert bind]. eauto.
Qed.

(** X3. ... and raises [IndexError] whenever every one of them rounds to 0. *)
Lemma sizes_from_weights_fails (size : Z) (weights : list Q) :
  (0 < size)%Z ->
  Forall (fun r => r = 0%Z) (rounded (initial size weights)) ->
  sizes_from_weights size weights = Raises IndexError.
Proof.
  intros Hsize Hz. unfold sizes_from_weights.
  set (st0 := initial size weights) in *.
  assert (Hn : n_total st0 = 0%Z).
  { change (n_total st0) with (Zsum (rounded st0)).
    induction Hz as [|r rs -> _ IH]; [reflexivity|]. now rewrite Zsum_cons, IH. }
  rewrite Hn. replace (Z.to_nat (0 - size)) with 0%nat by lia.
  cbn [passes bind]. rewrite Hn.
  destruct (Z.to_nat (size - 0)) as [|k] eqn:Ek; [lia|].
  cbn [passes]. rewrite raise_once_choose, choose_empty; [reflexivity| |].
  - apply loop_mask_empty. eapply Forall_impl; [|exact Hz]. intros r ->. lia.
  - rewrite length_map, loop_mask_length; [reflexivity|].
    unfold st0, initial. cbn [diff_with_half rounded]. now rewrite !length_map.
Qed.

(** *** Sampling skips empty clusters *)

Lemma scale_shift_rows (samples : list (list Q)) (std mean : list Q) (d : nat) :
  Forall (fun r => length r = d) samples ->
  length std = d -> length mean = d ->
  scale_shift samples std mean
    = Returns (map (fun row => map2 Qplus (map2 Qmult row std) mean) samples).
Proof.
  intros Hrows Hstd Hmean. unfold scale_shift.
  induction Hrows as [|row samples Hrow Hrows IH]; [reflexivity|].
  cbn [map_outcome map]. unfold broadcast2 at 1 2.
  replace (length row =? length std)%nat with true
    by (symmetry; apply Nat.eqb_eq; congruence).
  cbn [bind].
  replace (length (map2 Qmult row std) =? length mean)%nat with true
    by (symmetry; apply Nat.eqb_eq; rewrite map2_length; congruence).
  cbn [bind]. rewrite IH. reflexivity.
Qed.

Definition nonzero_size (c : Z * list Q * list Q) : bool :=
  negb (fst (fst c) =? 0)%Z.

Section SamplingFacts.

Variable rng : Type.
Variable randn : nat -> nat -> rng -> list (list Q) * rng.

(** How many times the generator has been drawn from. *)
Variable draws : rng -> nat.

Hypothesis randn_rows : forall n d g, length (fst (randn n d g)) = n.
Hypothesis randn_cols : forall n d g, Forall (fun r => length r = d) (fst (randn n d g)).
Hypothesis randn_draws : forall n d g, draws (snd (randn n d g)) = S (draws g).

(** One draw per listed cluster, in order: [n] standard-normal rows scaled
    by the cluster's stds and moved by its means. *)
Fixpoint draw_blocks (n_dims : nat) (cs : list (Z * list Q * list Q)) (g : rng)
  : list (list (list Q)) * rng :=
  match cs with
  | [] => ([], g)
  | (n, mean, std) :: cs' =>
      let '(z, g1) := randn (Z.to_nat n) n_dims g in
      let '(blocks, g2) := draw_blocks n_dims cs' g1 in
      (map (fun row => map2 Qplus (map2 Qmult row std) mean) z :: blocks, g2)
  end.

Definition cluster_ok (n_dims : nat) (c : Z * list Q * list Q) : Prop :=
  (0 <= fst (fst c))%Z /\ length (snd (fst c)) = n_dims /\ length (snd c) = n_dims.

Lemma for_each_sample_cluster (n_dims : nat) (cs : list (Z * list Q * list Q)) :
  Forall (cluster_ok n_dims) cs ->
  forall parts g,
    for_each (sample_cluster rng randn n_dims) cs (parts, g)
    = Returns (parts ++ fst (draw_blocks n_dims (filter nonzero_size cs) g),
               snd (draw_blocks n_dims (filter nonzero_size cs) g)).
Proof.
  induction 1 as [|[[n mean] std] cs (Hn & Hmean & Hstd) Hcs IH]; intros parts g.
  - simpl. now rewrite app_nil_r.
  - simpl in Hn, Hmean, Hstd.
    cbn [for_each filter].
    change (nonzero_size (n, mean, std)) with (negb (n =? 0)%Z).
    unfold sample_cluster at 1.
    destruct (Z.eqb_spec n 0) as [->|Hne]; cbn [negb bind].
    + apply IH.
    + replace (0 <? n)%Z with true by (symmetry; apply Z.ltb_lt; lia).
      cbn [assert bind draw_blocks].
      pose proof (randn_cols (Z.to_nat n) n_dims g) as Hcols.
      destruct (randn (Z.to_nat n) n_dims g) as [z g1] eqn:Ez.
      cbn [fst] in Hcols.
      rewrite (scale_shift_rows z std mean n_dims) by assumption.
      cbn [bind]. rewrite IH.
      destruct (draw_blocks n_dims (filter nonzero_size cs) g1) as [blocks g2].
      cbn [fst snd]. now rewrite <- app_assoc.
Qed.

Lemma draw_blocks_rows (n_dims : nat) (cs : list (Z * list Q * list Q)) :
  forall g,
    length (concat (fst (draw_blocks n_dims cs g)))
    = Z.to_nat (Zsum (map (fun c => Z.max 0 (fst (fst c))) cs)).
Proof.
  induction cs as [|[[n mean] std] cs IH]; intros g; [reflexivity|].
  cbn [draw_blocks].
  pose proof (randn_rows (Z.to_nat n) n_dims g) as Hrows.
  destruct (randn (Z.to_nat n) n_dims g) as [z g1]. cbn [fst] in Hrows.
  specialize (IH g1).
  destruct (draw_blocks n_dims cs g1) as [blocks g2]. cbn [fst] in IH |- *.
  cbn [concat map Zsum fold_right fst]. fold (Zsum (map (fun c => Z.max 0 (fst (fst c))) cs)).
  rewrite length_app, length_map, IH, Hrows.
  assert (0 <= Zsum (map (fun c => Z.max 0 (fst (fst c))) cs))%Z.
  { clear. induction cs as [|c cs IH]; simpl; lia. }
  lia.
Qed.

Lemma draw_blocks_draws (n_dims : nat) (cs : list (Z * list Q * list Q)) :
  forall g, draws (snd (draw_blocks n_dims cs g)) = (draws g + length cs)%nat.
Proof.
  induction cs as [|[[n mean] std] cs IH]; intros g; [simpl; lia|].
  cbn [draw_blocks].
  pose proof (randn_draws (Z.to_nat n) n_dims g) as Hd.
  destruct (randn (Z.to_nat n) n_dims g) as [z g1]. cbn [snd] in Hd.
  specialize (IH g1).
  destruct (draw_blocks n_dims cs g1) as [blocks g2]. cbn [snd length] in IH |- *.
  lia.
Qed.

Lemma draw_blocks_widths (n_dims : nat) (cs : list (Z * list Q * list Q)) :
  Forall (fun c => (0 < fst (fst c))%Z /\ cluster_ok n_dims c) cs ->
  forall g, Forall (fun b => width b = n_dims) (fst (draw_blocks n_dims cs g)).
Proof.
  induction 1 as [|[[n mean] std] cs (Hpos & Hn & Hmean & Hstd) Hcs IH]; intros g;
    [constructor|].
  simpl in Hpos, Hn, Hmean, Hstd. cbn [draw_blocks].
  pose proof (randn_rows (Z.to_nat n) n_dims g) as Hrows.
  pose proof (randn_cols (Z.to_nat n) n_dims g) as Hcols.
  destruct (randn (Z.to_nat n) n_dims g) as [z g1]. cbn [fst] in Hrows, Hcols.
  specialize (IH g1).
  destruct (draw_blocks n_dims cs g1) as [blocks g2]. cbn [fst] in IH |- *.
  constructor; [|exact IH].
  destruct z as [|row z]; [simpl in Hrows; lia|].
  unfold width. cbn [map hd].
  rewrite map2_length; rewrite map2_length; inversion Hcols; congruence.
Qed.

Lemma zip3_ok (n_dims : nat) (sizes : list Z) (means stds : list (list Q)) :
  Forall (fun r => length r = n_dims) means ->
  Forall (fun r => length r = n_dims) stds ->
  Forall (fun n => (0 <= n)%Z) sizes ->
  Forall (cluster_ok n_dims) (zip3 sizes means stds).
Proof.
  intros Hm. revert sizes stds.
  induction Hm as [|mean means Hmean Hm IH]; intros [|n sizes] [|std stds] Hs Hn;
    simpl; try constructor.
  - inversion Hs; inversion Hn; subst. repeat split; assumption.
  - inversion Hs; inversion Hn; subst. now apply IH.
Qed.

Lemma zip3_sizes (sizes : list Z) (means stds : list (list Q)) :
  length means = length sizes -> length stds = length sizes ->
  map (fun c => fst (fst c)) (zip3 sizes means stds) = sizes.
Proof.
  revert means stds.
  induction sizes as [|n sizes IH]; intros [|mean means] [|std stds] Hm Hs;
    try discriminate; [reflexivity|].
  simpl. f_equal. apply IH; simpl in *; lia.
Qed.

Lemma filter_nonzero_sum (cs : list (Z * list Q * list Q)) :
  Forall (fun c => (0 <= fst (fst c))%Z) cs ->
  Zsum (map (fun c => Z.max 0 (fst (fst c))) (filter nonzero_size cs))
  = Zsum (map (fun c => fst (fst c)) cs).
Proof.
  induction 1 as [|[[n mean] std] cs Hn Hcs IH]; [reflexivity|].
  simpl in Hn. cbn [filter map fst]. rewrite Zsum_cons.
  change (nonzero_size (n, mean, std)) with (negb (n =? 0)%Z).
  destruct (Z.eqb_spec n 0) as [->|Hne]; cbn [negb].
  - rewrite IH. lia.
  - cbn [map fst]. rewrite Zsum_cons, IH. lia.
Qed.

Lemma filter_nonzero_count (cs : list (Z * list Q * list Q)) :
  length (filter nonzero_size cs)
  = length (filter (fun n => negb (n =? 0)%Z) (map (fun c => fst (fst c)) cs)).
Proof.
  induction cs as [|[[n mean] std] cs IH]; [reflexivity|].
  cbn [filter map fst].
  change (nonzero_size (n, mean, std)) with (negb (n =? 0)%Z).
  destruct (negb (n =? 0)%Z); simpl; now rewrite IH.
Qed.

Lemma filter_nonzero_positive (n_dims : nat) (cs : list (Z * list Q * list Q)) :
  Forall (cluster_ok n_dims) cs ->
  Forall (fun c => (0 < fst (fst c))%Z /\ cluster_ok n_dims c) (filter nonzero_size cs).
Proof.
  induction 1 as [|[[n mean] std] cs Hc Hcs IH]; [constructor|].
  cbn [filter]. change (nonzero_size (n, mean, std)) with (negb (n =? 0)%Z).
  destruct (Z.eqb_spec n 0) as [->|Hne]; cbn [negb]; [exact IH|].
  constructor; [|exact IH]. split; [|exact Hc].
  destruct Hc as [Hn _]. simpl in *. lia.
Qed.

Lemma cat_rows_same_width (n_dims : nat) (parts : list (list (list Q))) :
  parts <> [] ->
  Forall (fun b => width b = n_dims) parts ->
  cat_rows parts = Returns (concat parts).
Proof.
  intros Hne Hw. destruct parts as [|p parts]; [contradiction|].
  unfold cat_rows.
  replace (forallb (fun q => (width q =? width p)%nat) (p :: parts)) with true;
    [reflexivity|].
  symmetry. apply forallb_forall. intros q Hq. apply Nat.eqb_eq.
  rewrite Forall_forall in Hw. rewrite (Hw q Hq). symmetry. apply Hw. now left.
Qed.

Lemma draw_blocks_nonempty (n_dims : nat) (cs : list (Z * list Q * list Q)) (g : rng) :
  cs <> [] -> fst (draw_blocks n_dims cs g) <> [].
Proof.
  destruct cs as [|[[n mean] std] cs]; [contradiction|]. intros _.
  cbn [draw_blocks]. destruct (randn (Z.to_nat n) n_dims g) as [z g1].
  destruct (draw_blocks n_dims cs g1). discriminate.
Qed.

(** C8. Given one size, one row of means and one row of stds per cluster,
    the sizes non-negative with at least one positive, the call returns (no
    error), and what it returns is what drawing for the clusters of
    non-zero size alone gives, in cluster order: the zero-sized clusters
    cost no draw and contribute no row.  The rows number [sum sizes], the
    draws as many as there are non-zero sizes. *)
Theorem sample_mixture_gaussian_skips_empty
  (sizes_per_cluster : list Z) (means_per_dim stds_per_dim : list (list Q)) (g : rng) :
  length means_per_dim = length sizes_per_cluster ->
  length stds_per_dim = length sizes_per_cluster ->
  Forall (fun r => length r = width means_per_dim) means_per_dim ->
  Forall (fun r => length r = width means_per_dim) stds_per_dim ->
  Forall (fun n => (0 <= n)%Z) sizes_per_cluster ->
  Exists (fun n => (0 < n)%Z) sizes_per_cluster ->
  let drawn :=
    draw_blocks (width means_per_dim)
      (filter nonzero_size (zip3 sizes_per_cluster means_per_dim stds_per_dim)) g in
  sample_mixture_gaussian rng randn sizes_per_cluster means_per_dim stds_per_dim g
    = Returns (concat (fst drawn), snd drawn) /\
  length (concat (fst drawn)) = Z.to_nat (Zsum sizes_per_cluster) /\
  draws (snd drawn)
    = (draws g + length (filter (fun n => negb (n =? 0)%Z) sizes_per_cluster))%nat.
Proof.
  intros Hlm Hls Hm Hs Hnn Hex drawn.
  set (n_dims := width means_per_dim) in *.
  set (cs := zip3 sizes_per_cluster means_per_dim stds_per_dim) in *.
  assert (Hok : Forall (cluster_ok n_dims) cs) by now apply zip3_ok.
  assert (Hsz : map (fun c => fst (fst c)) cs = sizes_per_cluster)
    by now apply zip3_sizes.
  assert (Hne : filter nonzero_size cs <> []).
  { apply Exists_exists in Hex. destruct Hex as (n & Hin & Hpos).
    rewrite <- Hsz in Hin. apply in_map_iff in Hin.
    destruct Hin as (c & Hc & Hin). intros E.
    assert (Hf : In c (filter nonzero_size cs)).
    { apply filter_In. split; [exact Hin|]. unfold nonzero_size. rewrite Hc.
      destruct (Z.eqb_spec n 0); [lia|reflexivity]. }
    rewrite E in Hf. exact Hf. }
  split; [|split].
  - unfold sample_mixture_gaussian. fold n_dims. fold cs.
    rewrite (for_each_sample_cluster n_dims cs Hok). cbn [app bind]. fold drawn.
    rewrite (cat_rows_same_width n_dims).
    + reflexivity.
    + now apply draw_blocks_nonempty.
    + apply draw_blocks_widths. now apply filter_nonzero_positive.
  - unfold drawn. rewrite draw_blocks_rows, filter_nonzero_sum, Hsz; [reflexivity|].
    eapply Forall_impl; [|exact Hok]. intros c Hc. apply Hc.
  - unfold drawn. rewrite draw_blocks_draws, filter_nonzero_count, Hsz. reflexivity.
Qed.

End SamplingFacts.

(** A generator for trying the statement: its state counts the draws and
    every draw is the matrix filled with that count. *)
Definition counting_randn (n d : nat) (g : nat) : list (list Q) * nat :=
  (repeat (repeat (inject_Z (Z.of_nat g)) d) n, S g).

Lemma sample_mixture_gaussian_skips_empty_witness :
  sample_mixture_gaussian nat counting_randn [0; 2; 0; 1]%Z
    [[1; 2]; [3; 4]; [5; 6]; [7; 8]] [[1; 1]; [2; 2]; [1; 1]; [3; 3]] O
  = Returns
      (concat (fst (draw_blocks nat counting_randn 2 [(2%Z, [3; 4], [2; 2]); (1%Z, [7; 8], [3; 3])] O)),
       snd (draw_blocks nat counting_randn 2 [(2%Z, [3; 4], [2; 2]); (1%Z, [7; 8], [3; 3])] O)).
Proof.
  refine (proj1 (sample_mixture_gaussian_skips_empty nat counting_randn (fun g => g)
            _ _ _ [0; 2; 0; 1]%Z [[1; 2]; [3; 4]; [5; 6]; [7; 8]]
            [[1; 1]; [2; 2]; [1; 1]; [3; 3]] O _ _ _ _ _ _)).
  - intros n d g. apply repeat_length.
  - intros n d g. apply Forall_forall. intros r Hr. apply repeat_spec in Hr.
    subst r. apply repeat_length.
  - intros n d g. reflexivity.
  - reflexivity.
  - reflexivity.
  - repeat constructor.
  - repeat constructor.
  - repeat constructor; discriminate.
  - right. left. reflexivity.
Defined.

Example sample_mixture_gaussian_rows :
  sample_mixture_gaussian nat counting_randn [0; 2; 0; 1]%Z
    [[1; 2]; [3; 4]; [5; 6]; [7; 8]] [[1; 1]; [2; 2]; [1; 1]; [3; 3]] O
  = Returns ([[0 * 2 + 3; 0 * 2 + 4]; [0 * 2 + 3; 0 * 2 + 4]; [1 * 3 + 7; 1 * 3 + 8]], 2%nat).
Proof. reflexivity. Qed.

(** *** More on the partition, the sampling and the weights *)

Lemma sizes_from_weights_partition_witness :
  length [4; 3; 3]%Z = length [1; 1; 1] /\
  Forall (fun s => (0 <= s)%Z) [4; 3; 3]%Z /\
  Zsum [4; 3; 3]%Z = 10%Z.
Proof.
  apply (sizes_from_weights_partition 10 [1; 1; 1] [4; 3; 3]%Z).
  - repeat constructor; discriminate.
  - reflexivity.
  - lia.
  - vm_compute. reflexivity.
Defined.

Lemma sizes_from_weights_returns_witness :
  exists sizes, sizes_from_weights 2 [1; 3] = Returns sizes.
Proof.
  apply sizes_from_weights_returns.
  - repeat constructor; discriminate.
  - reflexivity.
  - lia.
  - vm_compute. right. left. reflexivity.
Defined.

Lemma sizes_from_weights_fails_witness :
  sizes_from_weights 1 [1; 1] = Raises IndexError.
Proof.
  apply sizes_from_weights_fails.
  - lia.
  - vm_compute. repeat constructor.
Defined.

Lemma zip3_all_zero {B C : Type} (sizes : list Z) (b : list B) (c : list C) :
  Forall (fun n => n = 0%Z) sizes ->
  Forall (fun t => fst (fst t) = 0%Z) (zip3 sizes b c).
Proof.
  intros H. revert b c. induction H as [|n sizes Hn _ IH]; intros [|y b] [|z c];
    cbn [zip3]; try constructor; auto.
Qed.

Lemma for_each_weight_zero_sizes (weights : list var) (sizes : list Z) :
  forall rest k acc,
    skipn k sizes = rest ->
    Forall (fun s => s = 0%Z) rest ->
    (length sizes <= length weights)%nat ->
    for_each (weight_of_cluster weights sizes) (seq k (length rest)) acc = Returns acc.
Proof.
  induction rest as [|s rest IH]; intros k acc Hs Hz Hlen; [reflexivity|].
  pose proof Hs as Hs'. apply skipn_cons_inv in Hs. destruct Hs as [Hk Hs].
  cbn [length seq for_each]. unfold weight_of_cluster at 1, getitem. rewrite Hk.
  cbn [bind].
  assert (Hlt : (k < length sizes)%nat) by (apply nth_error_Some; congruence).
  destruct (nth_error weights k) as [w|] eqn:Ew;
    [|apply nth_error_None in Ew; lia].
  cbn [bind]. rewrite (Forall_inv Hz). cbn [Z.eqb].
  apply IH; [exact Hs|exact (Forall_inv_tail Hz)|exact Hlen].
Qed.

(** X4. Sizes that are all zero leave [th.cat] with nothing to
    concatenate: [sample_mixture_gaussian] raises, whatever the means and
    stds, and so does [get_weights_per_sample] (given a weight for every
    size). *)
Theorem nothing_to_concatenate
  (rng : Type) (randn : nat -> nat -> rng -> list (list Q) * rng)
  (sizes : list Z) (means stds : list (list Q)) (weights : list var) (g : rng) :
  Forall (fun n => n = 0%Z) sizes ->
  (length sizes <= length weights)%nat ->
  sample_mixture_gaussian rng randn sizes means stds g = Raises RuntimeError /\
  get_weights_per_sample weights sizes = Raises RuntimeError.
Proof.
  intros Hz Hlen. split.
  - unfold sample_mixture_gaussian.
    assert (E : forall cs parts,
      Forall (fun t : Z * list Q * list Q => fst (fst t) = 0%Z) cs ->
      for_each (sample_cluster rng randn (width means)) cs (parts, g)
      = Returns (parts, g)).
    { induction cs as [|[[n mean] std] cs IH]; intros parts H; [reflexivity|].
      cbn [for_each]. unfold sample_cluster at 1.
      pose proof (Forall_inv H) as Hn. cbn [fst] in Hn. rewrite Hn.
      cbn [Z.eqb bind]. apply IH. exact (Forall_inv_tail H). }
    rewrite E by now apply zip3_all_zero. reflexivity.
  - unfold get_weights_per_sample.
    rewrite (for_each_weight_zero_sizes weights sizes sizes 0 []); auto.
Qed.

Lemma nothing_to_concatenate_witness :
  sample_mixture_gaussian nat counting_randn [0; 0]%Z [[1]; [2]] [[1]; [1]] O
    = Raises RuntimeError /\
  get_weights_per_sample [ {| data := 1; grad := 0 |}; {| data := 1; grad := 0 |} ]
    [0; 0]%Z = Raises RuntimeError.
Proof.
  apply nothing_to_concatenate.
  - repeat constructor.
  - simpl. lia.
Defined.

(** What [get_weights_per_sample] makes of one weight. *)
Definition new_weight_of (w : var) : var :=
  if Qpos_b (data w) then div_float w (data w) else w.

Fixpoint weight_blocks_any (weights : list var) (sizes : list Z) : list (list var) :=
  match weights, sizes with
  | w :: weights', s :: sizes' =>
      if (s =? 0)%Z then weight_blocks_any weights' sizes'
      else repeat (new_weight_of w) (Z.to_nat s) :: weight_blocks_any weights' sizes'
  | _, _ => []
  end.

Lemma for_each_weights_any (weights : list var) (sizes : list Z) :
  forall (rest_s : list Z) (rest_w : list var) (k : nat) (acc : list (list var)),
    skipn k sizes = rest_s ->
    skipn k weights = rest_w ->
    length rest_w = length rest_s ->
    Forall (fun s => (0 <= s)%Z) rest_s ->
    Forall (fun w => 0 <= data w) rest_w ->
    for_each (weight_of_cluster weights sizes) (seq k (length rest_s)) acc
      = Returns (acc ++ weight_blocks_any rest_w rest_s).
Proof.
  induction rest_s as [|s rest_s IH]; intros rest_w k acc Hs Hw Hlen Hnn Hpos.
  - destruct rest_w; [|discriminate]. simpl. now rewrite app_nil_r.
  - destruct rest_w as [|w rest_w]; [discriminate|].
    apply skipn_cons_inv in Hs. destruct Hs as [Hks Hs].
    apply skipn_cons_inv in Hw. destruct Hw as [Hkw Hw].
    pose proof (Forall_inv Hnn) as Hs0. pose proof (Forall_inv_tail Hnn) as Hnn'.
    pose proof (Forall_inv Hpos) as Hw0. pose proof (Forall_inv_tail Hpos) as Hpos'.
    cbn beta in Hs0, Hw0.
    cbn [length seq for_each]. unfold weight_of_cluster at 1, getitem.
    rewrite Hks, Hkw. cbn [bind weight_blocks_any].
    destruct (Z.eqb_spec s 0) as [->|Hne].
    + cbn [bind]. apply IH; auto.
    + replace (0 <? s)%Z with true by (symmetry; apply Z.ltb_lt; lia).
      replace (Qle_bool 0 (data w)) with true
        by (symmetry; apply Qle_bool_iff; exact Hw0).
      cbn [assert bind]. fold (new_weight_of w).
      rewrite (IH rest_w (S k)); auto.
      now rewrite <- app_assoc.
Qed.

Lemma weight_blocks_any_entries (weights : list var) (sizes : list Z) :
  Forall (fun w => 0 <= data w) weights ->
  Forall (fun w => data w == 1 \/ (data w == 0 /\ In w weights))
         (concat (weight_blocks_any weights sizes)).
Proof.
  revert sizes. induction weights as [|c weights IH]; intros sizes Hnn.
  - constructor.
  - pose proof (Forall_inv Hnn) as Hc. pose proof (Forall_inv_tail Hnn) as Hnn'.
    cbn beta in Hc.
    assert (Htail : forall sizes',
      Forall (fun w => data w == 1 \/ (data w == 0 /\ In w (c :: weights)))
             (concat (weight_blocks_any weights sizes'))).
    { intros sizes'. eapply Forall_impl; [|apply (IH sizes' Hnn')].
      intros w [H1|[H0 Hin]]; [now left|right; split; [exact H0|now right]]. }
    destruct sizes as [|s sizes]; [constructor|]. cbn [weight_blocks_any].
    destruct (s =? 0)%Z; [apply Htail|].
    cbn [concat]. apply Forall_app. split; [|apply Htail].
    apply Forall_forall. intros w Hin. apply repeat_spec in Hin. subst w.
    unfold new_weight_of, Qpos_b. destruct (Qlt_le_dec 0 (data c)) as [Hpos|Hle].
    + left. simpl. field. lra.
    + right. split; [lra|now left].
Qed.

(** X5. With weights that are non-negative but not all positive, the
    per-sample weights are no longer all 1: a cluster whose weight is 0
    hands its samples that weight itself, of value 0 (the source's
    [# should be 0]); the samples of the other clusters get value 1. *)
Theorem get_weights_per_sample_zero_weight (weights_per_cluster : list var)
  (sizes : list Z) :
  length weights_per_cluster = length sizes ->
  Forall (fun w => 0 <= data w) weights_per_cluster ->
  Forall (fun s => (0 <= s)%Z) sizes ->
  (0 < Zsum sizes)%Z ->
  exists ws,
    get_weights_per_sample weights_per_cluster sizes = Returns ws /\
    Forall (fun w => data w == 1 \/ (data w == 0 /\ In w weights_per_cluster)) ws.
Proof.
  intros Hlen Hnn Hs Hsum.
  exists (concat (weight_blocks_any weights_per_cluster sizes)). split.
  - unfold get_weights_per_sample.
    rewrite (for_each_weights_any weights_per_cluster sizes sizes weights_per_cluster 0 [])
      by auto.
    cbn [bind app]. unfold cat_flat.
    assert (Hne : weight_blocks_any weights_per_cluster sizes <> []).
    { clear Hnn. revert sizes Hlen Hs Hsum.
      induction weights_per_cluster as [|w ws IH]; intros [|s sizes] Hlen Hs Hsum;
        try discriminate; simpl in Hsum; try lia.
      cbn [weight_blocks_any]. destruct (Z.eqb_spec s 0) as [->|]; [|discriminate].
      apply IH; [simpl in Hlen; lia|exact (Forall_inv_tail Hs)|lia]. }
    destruct (weight_blocks_any weights_per_cluster sizes); [contradiction|reflexivity].
  - now apply weight_blocks_any_entries.
Qed.

Lemma get_weights_per_sample_zero_weight_witness :
  exists ws,
    get_weights_per_sample
      [ {| data := 0; grad := 1 |}; {| data := 1 # 2; grad := 1 |} ] [1; 2]%Z
      = Returns ws /\
    Forall (fun w => data w == 1 \/
                     (data w == 0 /\
                      In w [ {| data := 0; grad := 1 |}; {| data := 1 # 2; grad := 1 |} ]))
           ws.
Proof.
  apply get_weights_per_sample_zero_weight.
  - reflexivity.
  - repeat constructor; discriminate.
  - repeat constructor; discriminate.
  - reflexivity.
Defined.

(** *** Drawing the samples to revert (lines 179-180) *)

(** The partition that [sizes_from_weights] returns, when its input lets
    it return. *)
Lemma sizes_from_weights_total (size : Z) (weights : list Q) :
  Forall (fun w => 0 <= w) weights -> 0 < Qsum weights -> (0 < size)%Z ->
  Exists (fun r => (0 < r)%Z) (rounded (initial size weights)) ->
  exists sizes,
    sizes_from_weights size weights = Returns sizes /\
    length sizes = length weights /\
    Forall (fun s => (0 <= s)%Z) sizes /\
    Zsum sizes = size.
Proof.
  intros Hw Hsum Hsize Hex. unfold sizes_from_weights.
  pose proof (initial_consistent size weights Hw Hsum ltac:(lia)) as H0.
  pose proof (initial_rounded size weights) as R0.
  set (st0 := initial size weights) in *.
  destruct (lower_passes_return size ltac:(lia) (Z.to_nat (n_total st0 - size)) st0 H0
              ltac:(lia)) as [st1 E1].
  rewrite E1. cbn [bind].
  destruct (passes_keep lower_once (-1)
              lower_once_keeps _ _ _ H0 E1)
    as (H1 & N1 & L1).
  assert (Hex1 : Exists (fun r => (0 < r)%Z) (rounded st1)).
  { destruct (Z.to_nat (n_total st0 - size)) as [|k] eqn:Ek.
    - cbn [passes] in E1. now injection E1 as <-.
    - destruct H1 as (Hnn & Hs & _). apply Zsum_positive; [exact Hnn|]. lia. }
  destruct (raise_passes_return (Z.to_nat (size - n_total st1)) st1 H1 Hex1) as [st2 E2].
  rewrite E2. cbn [bind].
  destruct (passes_keep raise_once 1
              raise_once_keeps _ _ _ H1 E2)
    as ((Hnn2 & S2 & _) & N2 & L2).
  assert (Es : Zsum (rounded st2) = size) by lia.
  replace (Zsum (rounded st2) =? size)%Z with true by (symmetry; now apply Z.eqb_eq).
  cbn [assert bind]. exists (rounded st2).
  split; [reflexivity|]. split; [|split; assumption].
  rewrite L2, L1, R0. apply length_map.
Qed.

Section Reverted.

Variable rng : Type.
Variable randn : nat -> nat -> rng -> list (list Q) * rng.
Hypothesis randn_rows : forall n d g, length (fst (randn n d g)) = n.
Hypothesis randn_cols : forall n d g, Forall (fun r => length r = d) (fst (randn n d g)).

(** Lines 179-180 of [get_inputs_from_reverted_samples]: the sizes from
    the weights, then the samples for those sizes. *)
Definition gauss_samples (n_inputs : Z) (weights_per_cluster : list Q)
  (means_per_dim stds_per_dim : list (list Q)) (g : rng)
  : outcome (list (list Q) * rng) :=
  sizes <- sizes_from_weights n_inputs weights_per_cluster ;;
  sample_mixture_gaussian rng randn sizes means_per_dim stds_per_dim g.

(** X20. The two functions fit together: for a positive number of inputs
    and weights that let [sizes_from_weights] return, the samples drawn
    for the sizes it returns are exactly [n_inputs] rows. *)
Theorem gauss_samples_count (n_inputs : Z) (weights_per_cluster : list Q)
  (means_per_dim stds_per_dim : list (list Q)) (g : rng) :
  (0 < n_inputs)%Z ->
  Forall (fun w => 0 <= w) weights_per_cluster -> 0 < Qsum weights_per_cluster ->
  Exists (fun r => (0 < r)%Z) (rounded (initial n_inputs weights_per_cluster)) ->
  length means_per_dim = length weights_per_cluster ->
  length stds_per_dim = length weights_per_cluster ->
  Forall (fun r => length r = width means_per_dim) means_per_dim ->
  Forall (fun r => length r = width means_per_dim) stds_per_dim ->
  exists samples g',
    gauss_samples n_inputs weights_per_cluster means_per_dim stds_per_dim g
      = Returns (samples, g') /\
    length samples = Z.to_nat n_inputs.
Proof.
  intros Hn Hw Hsum Hex Hlm Hls Hm Hs. unfold gauss_samples.
  destruct (sizes_from_weights_total n_inputs weights_per_cluster Hw Hsum Hn Hex)
    as (sizes & E & Hlen & Hnn & Htot).
  rewrite E. cbn [bind].
  set (n_dims := width means_per_dim) in *.
  set (cs := zip3 sizes means_per_dim stds_per_dim).
  assert (Hok : Forall (cluster_ok n_dims) cs) by now apply zip3_ok.
  assert (Hsz : map (fun c => fst (fst c)) cs = sizes)
    by (apply zip3_sizes; congruence).
  assert (Hne : filter nonzero_size cs <> []).
  { assert (Hpos : Exists (fun z => (0 < z)%Z) sizes)
      by (apply Zsum_positive; [exact Hnn|lia]).
    apply Exists_exists in Hpos. destruct Hpos as (n & Hin & Hpos).
    rewrite <- Hsz in Hin. apply in_map_iff in Hin.
    destruct Hin as (c & Hc & Hin). intros E0.
    assert (Hf : In c (filter nonzero_size cs)).
    { apply filter_In. split; [exact Hin|]. unfold nonzero_size. rewrite Hc.
      destruct (Z.eqb_spec n 0); [lia|reflexivity]. }
    rewrite E0 in Hf. exact Hf. }
  unfold sample_mixture_gaussian. fold n_dims. fold cs.
  rewrite (for_each_sample_cluster rng randn randn_cols n_dims cs Hok). cbn [app bind].
  rewrite (cat_rows_same_width n_dims).
  - cbn [bind]. eexists. eexists. split; [reflexivity|].
    rewrite (draw_blocks_rows rng randn randn_rows), filter_nonzero_sum, Hsz, Htot;
      [reflexivity|].
    eapply Forall_impl; [|exact Hok]. intros c Hc. apply Hc.
  - now apply draw_blocks_nonempty.
  - apply (draw_blocks_widths rng randn randn_rows randn_cols).
    now apply filter_nonzero_positive.
Qed.

End Reverted.

Lemma gauss_samples_count_witness :
  exists samples g',
    gauss_samples nat counting_randn 3 [1; 3] [[0; 0]; [5; 5]] [[1; 1]; [2; 2]] O
      = Returns (samples, g') /\
    length samples = Z.to_nat 3.
Proof.
  apply gauss_samples_count.
  - intros n d g. apply repeat_length.
  - intros n d g. apply Forall_forall. intros r Hr. apply repeat_spec in Hr.
    subst r. apply repeat_length.
  - lia.
  - repeat constructor; discriminate.
  - reflexivity.
  - vm_compute. left. reflexivity.
  - reflexivity.
  - reflexivity.
  - repeat constructor.
  - repeat constructor.
Defined.

End Mixture.

(** ** The projection that ends a training step *)

Module Training.

Local Open Scope Q_scope.

(** What a division of floats can give: a number, an infinity, or nan. *)
Inductive num : Set :=
| Finite (q : Q)
| PosInf
| NegInf
| NaN.

Definition float_div (x y : Q) : num :=
  if Qeq_bool y 0 then
    if Qeq_bool x 0 then NaN
    else if Qlt_le_dec 0 x then PosInf else NegInf
  else Finite (x / y).

(** The mixture as the optimizers leave it.  The means and the weights are
    numbers; a std is whatever a float can be (a number, an infinity or
    nan), since the clamp of line 1132 treats each of them in its own
    way. *)
Record mixture : Type := {
  means_per_dim : list (list Q);
  stds_per_dim : list (list num);
  weights_per_cluster : list Q
}.

(** The mixture after the in-place projection. *)
Record projected : Type := {
  means_after : list (list Q);
  stds_after : list (list num);
  weights_after : list num
}.

(** [t.clamp_(min=c)]. *)
Definition clamp_min (c x : Q) : Q := if Qlt_le_dec x c then c else x.

Definition Qsum (l : list Q) : Q := fold_right Qplus 0 l.

(** Lines 1130-1131 and 804-805:
    [weights_per_cluster.data.clamp_(min=0)] then
    [weights_per_cluster.data.div_(th.sum(weights_per_cluster.data))]. *)
Definition project_weights (w : list Q) : list num :=
  let w := map (clamp_min 0) w in
  map (fun x => float_div x (Qsum w)) w.

(** [t.clamp_(min=c)] on floats: minus infinity goes up to [c], plus
    infinity stays, and a nan stays a nan. *)
Definition clamp_min_num (c : Q) (x : num) : num :=
  match x with
  | Finite q => Finite (clamp_min c q)
  | PosInf => PosInf
  | NegInf => Finite c
  | NaN => NaN
  end.

(** Line 1132: [stds_per_dim.data.clamp_(min=1e-4)]. *)
Definition std_floor : Q := 1 # 10000.

Definition project_stds (s : list (list num)) : list (list num) :=
  map (map (clamp_min_num std_floor)) s.

(** [c <= x] for a float [x]: false for a nan. *)
Definition at_least (c : Q) (x : num) : Prop :=
  match x with
  | Finite q => c <= q
  | PosInf => True
  | NegInf => False
  | NaN => False
  end.

Section Step.

(** Everything a step does before the projection (the forward pass, the
    losses, [backward()], the optimizer steps, lines 1097-1129 and 760-803)
    is numerical code outside this development; what matters here is the
    mixture it leaves behind. *)
Variable optimizers_step : mixture -> mixture.

Definition train_on_batch (m : mixture) : projected :=
  let m := optimizers_step m in
  {| means_after := means_per_dim m;
     stds_after := project_stds (stds_per_dim m);
     weights_after := project_weights (weights_per_cluster m) |}.

(** The loss of [train_on_batch_per_class] is for two clusters only:
    [compute_class_trans_loss] asserts [len(means_per_dim) == 2] (line 823,
    under the default [add_mean_diff_directions]) and so does
    [transport_loss_per_class] (line 856), both before anything is
    changed.  Line 806 is commented out:
    [#stds_per_dim.data.clamp_(min=1e-4)]. *)
Definition train_on_batch_per_class (m : mixture) : outcome projected :=
  bind (assert (length (means_per_dim m) =? 2)%nat) (fun _ =>
  let m := optimizers_step m in
  Returns {| means_after := means_per_dim m;
             stds_after := stds_per_dim m;
             weights_after := project_weights (weights_per_cluster m) |}).

End Step.

(** The weights lie on the simplex: all are numbers, none negative, and
    they sum to 1. *)
Definition on_simplex (ws : list num) : Prop :=
  exists qs, ws = map Finite qs /\ Forall (fun q => 0 <= q) qs /\ Qsum qs == 1.

(** A plain gradient step on the weights, of the given length, down a
    gradient that is 1 for every weight (the L1 penalty on the weights
    pulls that way). *)
Definition descend (lr : Q) (m : mixture) : mixture :=
  {| means_per_dim := means_per_dim m;
     stds_per_dim := stds_per_dim m;
     weights_per_cluster := map (fun w => w - lr * 1) (weights_per_cluster m) |}.

Definition two_clusters : mixture :=
  {| means_per_dim := [[0]; [1]];
     stds_per_dim := [[Finite 1]; [Finite 1]];
     weights_per_cluster := [1 # 2; 1 # 2] |}.

(** A plain gradient step on the stds, of the given length, down a
    gradient that is 1 for every std (the L1 penalty on the stds pulls
    that way). *)
Definition lower_stds (lr : Q) (m : mixture) : mixture :=
  {| means_per_dim := means_per_dim m;
     stds_per_dim :=
       map (map (fun s => match s with
                          | Finite q => Finite (q - lr * 1)
                          | _ => s
                          end)) (stds_per_dim m);
     weights_per_cluster := weights_per_cluster m |}.

Lemma clamp_min_ge (c x : Q) : c <= clamp_min c x.
Proof.
  unfold clamp_min. destruct (Qlt_le_dec x c); [apply Qle_refl|assumption].
Qed.

Lemma clamp_min_id (c x : Q) : c <= x -> clamp_min c x = x.
Proof.
  intros H. unfold clamp_min. destruct (Qlt_le_dec x c); [lra|reflexivity].
Qed.

Lemma Qsum_nonneg (l : list Q) : Forall (fun q => 0 <= q) l -> 0 <= Qsum l.
Proof.
  induction 1; simpl; [apply Qle_refl|lra].
Qed.

Lemma Qsum_pos (l : list Q) :
  Forall (fun q => 0 <= q) l -> Exists (fun q => 0 < q) l -> 0 < Qsum l.
Proof.
  intros Hnn Hex. induction Hnn as [|x l Hx Hl IH]; [inversion Hex|].
  simpl. pose proof (Qsum_nonneg l Hl).
  inversion Hex as [? ? Hpos|? ? Hex']; subst; [lra|].
  specialize (IH Hex'). lra.
Qed.

Lemma Qsum_scale (l : list Q) (s : Q) :
  ~ s == 0 -> Qsum (map (fun x => x / s) l) == Qsum l / s.
Proof.
  intros Hs. induction l as [|x l IH]; simpl.
  - field. exact Hs.
  - rewrite IH. field. exact Hs.
Qed.

(** Where some weight is still positive after the optimizers' step, the
    projection puts the weights on the simplex. *)
Lemma project_weights_simplex (w : list Q) :
  Exists (fun q => 0 < q) w -> on_simplex (project_weights w).
Proof.
  intros Hex. unfold project_weights.
  set (c := map (clamp_min 0) w).
  assert (Hnn : Forall (fun q => 0 <= q) c).
  { apply Forall_forall. intros q Hq. apply in_map_iff in Hq.
    destruct Hq as (x & <- & _). apply clamp_min_ge. }
  assert (Hpos : 0 < Qsum c).
  { apply Qsum_pos; [exact Hnn|]. apply Exists_exists in Hex.
    destruct Hex as (x & Hin & Hx). apply Exists_exists. exists (clamp_min 0 x).
    split; [now apply in_map|]. rewrite clamp_min_id; lra. }
  assert (Hne : ~ Qsum c == 0) by lra.
  exists (map (fun x => x / Qsum c) c). split; [|split].
  - rewrite map_map. apply map_ext. intros x. unfold float_div.
    destruct (Qeq_bool (Qsum c) 0) eqn:E; [|reflexivity].
    apply Qeq_bool_iff in E. contradiction.
  - apply Forall_forall. intros q Hq. apply in_map_iff in Hq.
    destruct Hq as (x & <- & Hin). rewrite Forall_forall in Hnn.
    apply Qle_shift_div_l; [exact Hpos|]. rewrite Qmult_0_l. now apply Hnn.
  - rewrite Qsum_scale by exact Hne. field. exact Hne.
Qed.

(** X6. Whenever the optimizers leave some weight positive, both kinds of
    step end with the weights on the simplex: [train_on_batch] always,
    and [train_on_batch_per_class] whenever it returns, which it does for
    a mixture of two clusters. *)
Lemma train_steps_simplex (optimizers_step : mixture -> mixture) (m : mixture) :
  Exists (fun q => 0 < q) (weights_per_cluster (optimizers_step m)) ->
  on_simplex (weights_after (train_on_batch optimizers_step m)) /\
  (forall p, train_on_batch_per_class optimizers_step m = Returns p ->
             on_simplex (weights_after p)) /\
  (length (means_per_dim m) = 2%nat ->
   exists p, train_on_batch_per_class optimizers_step m = Returns p /\
             on_simplex (weights_after p)).
Proof.
  intros H. split; [now apply project_weights_simplex|].
  unfold train_on_batch_per_class. split.
  - intros p E. destruct (length (means_per_dim m) =? 2)%nat; [|discriminate].
    cbn [assert bind] in E. injection E as <-. now apply project_weights_simplex.
  - intros ->. cbn [Nat.eqb assert bind]. eexists. split; [reflexivity|].
    now apply project_weights_simplex.
Qed.

(** C3, at an input where the source fails.  Two clusters of weight 1/2
    and a step that takes 1 off each: the clamp leaves two
    zeros, their sum is zero, and the division makes both weights nan,
    in [train_on_batch] and in [train_on_batch_per_class] alike.  No list
    holding a nan is on the simplex. *)
Theorem projection_divides_by_zero :
  weights_after (train_on_batch (descend 1) two_clusters) = [NaN; NaN] /\
  (exists p, train_on_batch_per_class (descend 1) two_clusters = Returns p /\
             weights_after p = [NaN; NaN]) /\
  ~ on_simplex [NaN; NaN].
Proof.
  split; [reflexivity|]. split; [eexists; split; reflexivity|].
  intros (qs & E & _). destruct qs as [|q qs]; discriminate.
Qed.

(** C5, where it fails: [train_on_batch_per_class] has its clamp of the
    stds commented out.  Two clusters with stds 1 and a step that takes 2
    off each std: the step completes, on the weights as [train_on_batch]
    would, and the stds stay at -1, below every positive floor. *)
Lemma per_class_step_leaves_stds :
  exists p,
    train_on_batch_per_class (lower_stds 2) two_clusters = Returns p /\
    on_simplex (weights_after p) /\
    stds_after p = [[Finite (-1)]; [Finite (-1)]] /\
    ~ (exists floor, 0 < floor /\ Forall (Forall (at_least floor)) (stds_after p)).
Proof.
  eexists. split; [reflexivity|]. cbn [stds_after weights_after]. split; [|split].
  - apply project_weights_simplex. left. reflexivity.
  - reflexivity.
  - intros (floor & Hpos & H). cbn in H.
    pose proof (Forall_inv (Forall_inv H)) as H1. cbn in H1. lra.
Qed.

(** What the clamp of line 1132 makes of one std: a nan stays a nan, and
    anything else ends at or above the floor. *)
Definition floored (before after : num) : Prop :=
  match before with
  | NaN => after = NaN
  | _ => at_least std_floor after
  end.

Lemma Forall2_map_r {A B : Type} (R : A -> B -> Prop) (f : A -> B) (l : list A) :
  (forall x, R x (f x)) -> Forall2 R l (map f l).
Proof.
  intros H. induction l as [|x l IH]; constructor; auto.
Qed.

(** C5, as the source has it.  After [train_on_batch] every entry of
    [stds_per_dim] that the optimizers left as a number or an infinity is
    at least [1e-4], whatever it was; the only entries that are not are
    the nans, which the clamp keeps. *)
Theorem stds_floor_after_step (optimizers_step : mixture -> mixture) (m : mixture) :
  Forall2 (Forall2 floored)
    (stds_per_dim (optimizers_step m))
    (stds_after (train_on_batch optimizers_step m)).
Proof.
  cbn [train_on_batch stds_after]. unfold project_stds.
  apply Forall2_map_r. intros row. apply Forall2_map_r. intros s.
  destruct s as [q| | |]; cbn [floored clamp_min_num at_least].
  - apply clamp_min_ge.
  - exact I.
  - apply Qle_refl.
  - reflexivity.
Qed.

(** The clamp at work: a std of zero, a negative one, one above the floor,
    and a nan. *)
Example stds_after_train_on_batch :
  stds_after
    (train_on_batch (fun m => m)
       {| means_per_dim := [[0; 0]; [1; 1]];
          stds_per_dim := [[Finite 0; Finite (-1)]; [Finite 1; NaN]];
          weights_per_cluster := [1 # 2; 1 # 2] |})
  = [[Finite std_floor; Finite std_floor]; [Finite 1; NaN]].
Proof. reflexivity. Qed.

(** A single cluster: the per-class step stops at the assertion. *)
Example per_class_needs_two_clusters :
  train_on_batch_per_class (fun m => m)
    {| means_per_dim := [[0]]; stds_per_dim := [[Finite 1]];
       weights_per_cluster := [1] |}
  = Raises AssertionError.
Proof. reflexivity. Qed.

(** *** More on the projection *)

Lemma train_steps_simplex_witness :
  on_simplex (weights_after (train_on_batch (descend (1 # 4)) two_clusters)) /\
  exists p, train_on_batch_per_class (descend (1 # 4)) two_clusters = Returns p /\
            on_simplex (weights_after p).
Proof.
  destruct (train_steps_simplex (descend (1 # 4)) two_clusters) as (H1 & _ & H2).
  - left. reflexivity.
  - split; [exact H1|]. apply H2. reflexivity.
Defined.

Lemma map_clamp_min_id (c : Q) (l : list Q) :
  Forall (fun x => c <= x) l -> map (clamp_min c) l = l.
Proof.
  induction 1 as [|x l Hx _ IH]; [reflexivity|].
  cbn [map]. now rewrite clamp_min_id, IH.
Qed.

Lemma map_clamp_min_num_id (c : Q) (l : list num) :
  Forall (at_least c) l -> map (clamp_min_num c) l = l.
Proof.
  induction 1 as [|x l Hx _ IH]; [reflexivity|].
  cbn [map]. rewrite IH. f_equal.
  destruct x as [q| | |]; cbn [at_least clamp_min_num] in *;
    [now rewrite clamp_min_id|reflexivity|contradiction|contradiction].
Qed.

Lemma divide_by_one (t : Q) (l : list Q) :
  t == 1 -> Forall2 Qeq (map (fun x => x / t) l) l.
Proof.
  intros Ht. induction l as [|x l IH]; [constructor|].
  cbn [map]. constructor; [|exact IH]. rewrite Ht. field.
Qed.

(** X7. The projection is a projection: a mixture that the optimizers
    leave with its weights on the simplex and its stds at or above the
    floor comes out of [train_on_batch] with the same stds, and with
    weights that are numerically the same. *)
Theorem projection_keeps_valid_mixture (optimizers_step : mixture -> mixture)
  (m : mixture) :
  Forall (fun q => 0 <= q) (weights_per_cluster (optimizers_step m)) ->
  Qsum (weights_per_cluster (optimizers_step m)) == 1 ->
  Forall (Forall (at_least std_floor)) (stds_per_dim (optimizers_step m)) ->
  stds_after (train_on_batch optimizers_step m) = stds_per_dim (optimizers_step m) /\
  exists qs,
    weights_after (train_on_batch optimizers_step m) = map Finite qs /\
    Forall2 Qeq qs (weights_per_cluster (optimizers_step m)).
Proof.
  intros Hnn Hsum Hstd. cbn [train_on_batch stds_after weights_after].
  set (w := weights_per_cluster (optimizers_step m)) in *.
  set (sd := stds_per_dim (optimizers_step m)) in *.
  split.
  - unfold project_stds. rewrite <- (map_id sd) at 2. apply map_ext_Forall.
    eapply Forall_impl; [|exact Hstd]. intros row. apply map_clamp_min_num_id.
  - unfold project_weights. rewrite (map_clamp_min_id 0 w Hnn).
    exists (map (fun x => x / Qsum w) w). split.
    + rewrite map_map. apply map_ext. intros x. unfold float_div.
      destruct (Qeq_bool (Qsum w) 0) eqn:E; [|reflexivity].
      apply Qeq_bool_iff in E. rewrite Hsum in E. discriminate.
    + now apply divide_by_one.
Qed.

Lemma projection_keeps_valid_mixture_witness :
  stds_after (train_on_batch (fun m => m) two_clusters) = stds_per_dim two_clusters /\
  exists qs,
    weights_after (train_on_batch (fun m => m) two_clusters) = map Finite qs /\
    Forall2 Qeq qs (weights_per_cluster two_clusters).
Proof.
  apply (projection_keeps_valid_mixture (fun m => m) two_clusters).
  - repeat constructor; discriminate.
  - reflexivity.
  - repeat constructor; cbn; discriminate.
Defined.

(** *** The optimizer of the unlabelled weights (lines 988-1037) *)

(** One cluster as [OptimizerUnlabelled] sees it: the weight, its gradient,
    and the row of [grad_hist_unlabeled] that belongs to it (a running
    size of the gradients that were positive, and one of those that were
    negative).  The weights are a vector, and [__init__] gives the history
    a row for each of them. *)
Record unlabelled : Type := {
  weight : Q;
  weight_grad : Q;
  neg_grad : Q;
  pos_grad : Q
}.

(** What [step] leaves behind. *)
Record stepped : Type := {
  unlabeled_cluster_weights : list num;
  grad_hist_unlabeled : list (Q * Q)
}.

(** [th.clamp(t, min=lo, max=hi)]: an infinity goes to the bound on its
    side, a nan stays. *)
Definition clamp (lo hi x : Q) : Q :=
  if Qlt_le_dec x lo then lo else if Qlt_le_dec hi x then hi else x.

Definition clamp_num (lo hi : Q) (x : num) : num :=
  match x with
  | Finite q => Finite (clamp lo hi q)
  | PosInf => Finite hi
  | NegInf => Finite lo
  | NaN => NaN
  end.

Section Unlabelled.

Variable lr alpha : Q.
Variable always_accumulate : bool.

(** Lines 1009-1014: column 0 of the history moves where the gradient is
    positive. *)
Definition neg_grad_labels (s : unlabelled) : Q :=
  if Qlt_le_dec 0 (weight_grad s)
  then (1 - alpha) * neg_grad s + alpha * Qabs (weight_grad s)
  else neg_grad s.

(** Lines 1019-1024: column 1 moves where it is negative. *)
Definition pos_grad_labels (s : unlabelled) : Q :=
  if Qlt_le_dec (weight_grad s) 0
  then (1 - alpha) * pos_grad s + alpha * Qabs (weight_grad s)
  else pos_grad s.

(** Lines 1005-1006, 1015-1017, 1025-1027 and 1029-1031.  With
    [always_accumulate] the entry starts at 0 and is set where the
    gradient is not 0, from the other column as it stands at that point;
    without, it is the difference of the two columns after their
    updates. *)
Definition gradient_unlabeled (s : unlabelled) : Q :=
  if always_accumulate then
    if Qlt_le_dec 0 (weight_grad s) then Qabs (weight_grad s) - pos_grad s
    else if Qlt_le_dec (weight_grad s) 0 then - Qabs (weight_grad s) + neg_grad_labels s
    else 0
  else neg_grad_labels s - pos_grad_labels s.

(** Line 1032. *)
Definition descended (ss : list unlabelled) : list Q :=
  map (fun s => weight s - lr * gradient_unlabeled s) ss.

(** [th.mean(t, dim=0, keepdim=True)]. *)
Definition mean (t : list Q) : Q := Qsum t / Quantiles.Qnat (length t).

(** [OptimizerUnlabelled.step], lines 1004-1037. *)
Definition step (ss : list unlabelled) : stepped :=
  let data := descended ss in
  let data := map (fun x => float_div x (mean data * 2)) data in
  {| unlabeled_cluster_weights := map (clamp_num (1 # 100) (99 # 100)) data;
     grad_hist_unlabeled := map (fun s => (neg_grad_labels s, pos_grad_labels s)) ss |}.

End Unlabelled.

Lemma clamp_between (lo hi x : Q) : lo <= hi -> lo <= clamp lo hi x /\ clamp lo hi x <= hi.
Proof.
  intros H. unfold clamp.
  destruct (Qlt_le_dec x lo); [lra|]. destruct (Qlt_le_dec hi x); lra.
Qed.

Lemma mean_zero (t : list Q) : t <> [] -> mean t * 2 == 0 -> Qsum t == 0.
Proof.
  intros Hne H. unfold mean in H.
  assert (Hn : 0 < Quantiles.Qnat (length t)).
  { apply (Quantiles.Qnat_lt 0). destruct t; [contradiction|simpl; lia]. }
  assert (E : Qsum t == Qsum t / Quantiles.Qnat (length t) * Quantiles.Qnat (length t))
    by (field; lra).
  rewrite E. nra.
Qed.

(** X18. However far the gradient step and the division by twice the
    mean take the weights, [step] leaves every one of them between 0.01
    and 0.99, provided the weights after the gradient step do not sum to
    zero (then the division is by zero). *)
Theorem step_weights_between (lr alpha : Q) (always_accumulate : bool)
  (ss : list unlabelled) :
  ~ Qsum (descended lr alpha always_accumulate ss) == 0 ->
  Forall (fun x => exists q, x = Finite q /\ 1 # 100 <= q /\ q <= 99 # 100)
         (unlabeled_cluster_weights (step lr alpha always_accumulate ss)).
Proof.
  intros Hsum. cbn [step unlabeled_cluster_weights].
  set (data := descended lr alpha always_accumulate ss) in *.
  assert (Hne : data <> []) by (intros E; rewrite E in Hsum; now apply Hsum).
  assert (Hm : Qeq_bool (mean data * 2) 0 = false).
  { apply not_true_is_false. intros E. apply Qeq_bool_iff in E.
    apply Hsum. now apply mean_zero. }
  rewrite map_map. apply Forall_forall. intros x Hx. apply in_map_iff in Hx.
  destruct Hx as (q & <- & _). unfold float_div. rewrite Hm. cbn [clamp_num].
  eexists. split; [reflexivity|]. apply clamp_between. lra.
Qed.

Lemma step_weights_between_witness :
  Forall (fun x => exists q, x = Finite q /\ 1 # 100 <= q /\ q <= 99 # 100)
         (unlabeled_cluster_weights
            (step 10 (1 # 10) false
               [ {| weight := 1 # 2; weight_grad := 1; neg_grad := 0; pos_grad := 0 |};
                 {| weight := 1 # 2; weight_grad := -1; neg_grad := 0; pos_grad := 0 |} ])).
Proof.
  apply step_weights_between. vm_compute. discriminate.
Defined.

(** X19. The history only ever holds sizes of gradients: with [alpha]
    between 0 and 1, a history without negative entries (it starts as
    zeros) has none after [step] either. *)
Theorem step_keeps_history_nonneg (lr alpha : Q) (always_accumulate : bool)
  (ss : list unlabelled) :
  0 <= alpha -> alpha <= 1 ->
  Forall (fun s => 0 <= neg_grad s /\ 0 <= pos_grad s) ss ->
  Forall (fun h => 0 <= fst h /\ 0 <= snd h)
         (grad_hist_unlabeled (step lr alpha always_accumulate ss)).
Proof.
  intros Ha0 Ha1 H. cbn [step grad_hist_unlabeled]. apply Forall_map.
  eapply Forall_impl; [|exact H]. intros s [Hn Hp]. cbn [fst snd].
  pose proof (Qabs_nonneg (weight_grad s)) as Hg.
  unfold neg_grad_labels, pos_grad_labels.
  split.
  - destruct (Qlt_le_dec 0 (weight_grad s)); [nra|exact Hn].
  - destruct (Qlt_le_dec (weight_grad s) 0); [nra|exact Hp].
Qed.

Lemma step_keeps_history_nonneg_witness :
  Forall (fun h => 0 <= fst h /\ 0 <= snd h)
         (grad_hist_unlabeled
            (step 10 (1 # 10) true
               [ {| weight := 1 # 2; weight_grad := 1; neg_grad := 0; pos_grad := 0 |};
                 {| weight := 1 # 2; weight_grad := -1; neg_grad := 0; pos_grad := 0 |} ])).
Proof.
  apply step_keeps_history_nonneg.
  - discriminate.
  - discriminate.
  - repeat constructor; discriminate.
Defined.

(** A first step from the zero history, with opposite gradients of size 1
    on two weights of 1/2: the history takes a tenth of each gradient,
    the weights move to -1/2 and 3/2, their mean stays 1/2, and the clamp
    brings them back to 0.01 and 0.99. *)
Example first_step :
  unlabeled_cluster_weights
    (step 10 (1 # 10) false
       [ {| weight := 1 # 2; weight_grad := 1; neg_grad := 0; pos_grad := 0 |};
         {| weight := 1 # 2; weight_grad := -1; neg_grad := 0; pos_grad := 0 |} ])
  = [Finite (1 # 100); Finite (99 # 100)].
Proof. reflexivity. Qed.

(** Weights that the gradient step takes to zero: the mean is zero, and
    the division leaves nans that the clamp does not remove. *)
Example step_divides_by_zero :
  unlabeled_cluster_weights
    (step 1 1 false
       [ {| weight := 1; weight_grad := 1; neg_grad := 0; pos_grad := 0 |} ])
  = [NaN].
Proof. reflexivity. Qed.

End Training.

(** ** Batches with every class in them *)

Module Batches.

Local Open Scope nat_scope.
Local Open Scope outcome_scope.

(** [a[i:j]], [a[i:]] and [a[:j]] for [0 <= i], [0 <= j]. *)
Definition slice {A : Type} (a : list A) (i j : nat) : list A := firstn (j - i) (skipn i a).
Definition slice_from {A : Type} (a : list A) (i : nat) : list A := skipn i a.
Definition slice_to {A : Type} (a : list A) (j : nat) : list A := firstn j a.

(** [range(0, stop, step)] for [step > 0]: [0, step, 2*step, ...] below
    [stop]. *)
Definition range_step (stop step : nat) : list nat :=
  map (fun k => k * step) (seq 0 ((stop + step - 1) / step)).

(** [a[idx]] with an array of positions: [IndexError] past the end. *)
Fixpoint take_at {A : Type} (a : list A) (idx : list nat) : outcome (list A) :=
  match idx with
  | [] => Returns []
  | i :: idx' =>
      match nth_error a i with
      | Some x => xs <- take_at a idx' ;; Returns (x :: xs)
      | None => Raises IndexError
      end
  end.

(** [np.nonzero(targets == c)[0]] and [np.sum(targets == c)]. *)
Fixpoint positions_from (i : nat) (targets : list nat) (c : nat) : list nat :=
  match targets with
  | [] => []
  | t :: targets' =>
      if t =? c then i :: positions_from (S i) targets' c
      else positions_from (S i) targets' c
  end.

Definition positions (targets : list nat) (c : nat) : list nat :=
  positions_from 0 targets c.

Definition count_class (targets : list nat) (c : nat) : nat :=
  length (filter (fun t => t =? c) targets).

(** [np.concatenate(parts, axis=1)] where every part is a list of rows:
    there has to be a part, every part has to be a matrix (rows of one
    length) and all of them of one height; row [k] of the result is the
    rows [k] of the parts, end to end. *)
Definition rectangular (part : list (list nat)) : bool :=
  forallb (fun row => length row =? length (hd [] part)) part.

Fixpoint join_rows (parts : list (list (list nat))) (height : nat) : list (list nat) :=
  match parts with
  | [] => repeat [] height
  | p :: parts' => map (fun rr => fst rr ++ snd rr) (combine p (join_rows parts' height))
  end.

Definition concatenate_axis1 (parts : list (list (list nat))) : outcome (list (list nat)) :=
  match parts with
  | [] => Raises ValueError
  | p :: _ =>
      if forallb rectangular parts && forallb (fun q => length q =? length p) parts
      then Returns (join_rows parts (length p))
      else Raises ValueError
  end.

Section Shuffled.

(** [rng.shuffle(a)] puts [a] in some order and moves the generator on. *)
Variable rng : Type.
Variable shuffle : rng -> list nat -> list nat * rng.

(** Lines 680-693.  [n_trials - batch_size] is taken in the naturals: a
    negative stop and a zero stop both give the empty range.  The loop
    variable [i_trial] keeps its last value after the loop, or the 0 it
    was set to when the loop is empty.  [n_remain] is never negative, the
    tail being no longer than a batch. *)
Definition get_exact_size_batches (n_trials : nat) (g : rng) (batch_size : nat)
  : outcome (list (list nat) * rng) :=
  if batch_size =? 0 then Raises ValueError
  else
    let '(i_trials, g) := shuffle g (seq 0 n_trials) in
    let starts := range_step (n_trials - batch_size) batch_size in
    let batches := map (fun i_trial => slice i_trials i_trial (i_trial + batch_size)) starts in
    let i_trial := last starts 0 in
    let i_trial := i_trial + batch_size in
    let last_batch := slice_from i_trials i_trial in
    let n_remain := batch_size - length last_batch in
    let last_batch := last_batch ++ slice_to i_trials n_remain in
    Returns (batches ++ [last_batch], g).

(** One pass of the loop over the classes, lines 699-705. *)
Definition batches_of_class (targets : list nat) (batch_size : nat)
  (st : list (list (list nat)) * rng) (i_cluster : nat)
  : outcome (list (list (list nat)) * rng) :=
  let '(batches_per_cluster, g) := st in
  let n_examples := count_class targets i_cluster in
  '(examples_per_batch, g) <- get_exact_size_batches n_examples g batch_size ;;
  let this_cluster_indices := positions targets i_cluster in
  examples_per_batch <- map_outcome (take_at this_cluster_indices) examples_per_batch ;;
  Returns (batches_per_cluster ++ [examples_per_batch], g).

(** Lines 696-708. *)
Definition get_batches_equal_classes (targets : list nat) (n_classes : nat) (g : rng)
  (batch_size : nat) : outcome (list (list nat) * rng) :=
  '(batches_per_cluster, g) <-
     for_each (batches_of_class targets batch_size) (seq 0 n_classes) ([], g) ;;
  batches <- concatenate_axis1 batches_per_cluster ;;
  Returns (batches, g).

End Shuffled.

(** How many entries of a batch are examples of class [c]. *)
Definition class_count (targets : list nat) (c : nat) (batch : list nat) : nat :=
  length (filter (fun i => match nth_error targets i with
                           | Some t => t =? c
                           | None => false
                           end) batch).

(** A generator that leaves the order as it is, and one that reverses it. *)
Definition keep_order (g : unit) (a : list nat) : list nat * unit := (a, g).
Definition reverse_order (g : unit) (a : list nat) : list nat * unit := (rev a, g).

Example exact_size_batches_7_3 :
  get_exact_size_batches unit keep_order 7 tt 3
  = Returns ([[0; 1; 2]; [3; 4; 5]; [6; 0; 1]], tt).
Proof. reflexivity. Qed.

Example exact_size_batches_6_3 :
  get_exact_size_batches unit keep_order 6 tt 3
  = Returns ([[0; 1; 2]; [3; 4; 5]], tt).
Proof. reflexivity. Qed.

Example exact_size_batches_2_3 :
  get_exact_size_batches unit keep_order 2 tt 3 = Returns ([[0; 1]], tt).
Proof. reflexivity. Qed.

(** C4, where it fails.  Four examples, two of each class, and
    [batch_size = 2]: the one batch returned holds all four, so two of
    each class, not [2 / 2 = 1]. *)
Lemma equal_classes_batch_is_twice_as_long :
  get_batches_equal_classes unit keep_order [0; 0; 1; 1] 2 tt 2
    = Returns ([[0; 1; 2; 3]], tt) /\
  class_count [0; 0; 1; 1] 0 [0; 1; 2; 3] <> 2 / 2 /\
  class_count [0; 0; 1; 1] 1 [0; 1; 2; 3] <> 2 / 2.
Proof. repeat split; discriminate. Qed.

(** *** The batches of one class *)

Lemma In_firstn {A : Type} (x : A) (n : nat) (l : list A) :
  In x (firstn n l) -> In x l.
Proof.
  intros H. rewrite <- (firstn_skipn n l). apply in_or_app. now left.
Qed.

Lemma In_skipn {A : Type} (x : A) (n : nat) (l : list A) :
  In x (skipn n l) -> In x l.
Proof.
  intros H. rewrite <- (firstn_skipn n l). apply in_or_app. now right.
Qed.

Lemma range_step_bound (stop step i : nat) :
  0 < step -> In i (range_step stop step) -> i < stop.
Proof.
  intros Hstep Hin. unfold range_step in Hin. apply in_map_iff in Hin.
  destruct Hin as (k & <- & Hk). apply in_seq in Hk.
  pose proof (Nat.div_mod_eq (stop + step - 1) step) as E.
  pose proof (Nat.mod_upper_bound (stop + step - 1) step ltac:(lia)) as Hr.
  nia.
Qed.

Lemma last_map_seq (f : nat -> nat) (n : nat) :
  last (map f (seq 0 (S n))) 0 = f n.
Proof.
  change (S n) with (1 + n). rewrite Nat.add_comm, seq_app, map_app.
  simpl. now rewrite last_last.
Qed.

Lemma range_step_last (stop step : nat) :
  0 < step -> 0 < stop ->
  last (range_step stop step) 0 + step < stop + step /\
  stop <= last (range_step stop step) 0 + step.
Proof.
  intros Hstep Hstop. unfold range_step.
  pose proof (Nat.div_mod_eq (stop + step - 1) step) as E.
  pose proof (Nat.mod_upper_bound (stop + step - 1) step ltac:(lia)) as Hr.
  destruct ((stop + step - 1) / step) as [|c] eqn:Ec; [nia|].
  rewrite last_map_seq. nia.
Qed.

Section ShuffledFacts.

Variable rng : Type.
Variable shuffle : rng -> list nat -> list nat * rng.
Hypothesis shuffle_permutes : forall g a, Permutation a (fst (shuffle g a)).

Lemma exact_size_batches_full (n_trials batch_size : nat) (g g' : rng)
  (batches : list (list nat)) :
  batch_size <= n_trials ->
  get_exact_size_batches rng shuffle n_trials g batch_size = Returns (batches, g') ->
  Forall (fun b => length b = batch_size /\ Forall (fun i => i < n_trials) b) batches.
Proof.
  intros Hle. unfold get_exact_size_batches.
  destruct (Nat.eqb_spec batch_size 0) as [|Hpos]; [discriminate|].
  pose proof (shuffle_permutes g (seq 0 n_trials)) as Hperm.
  destruct (shuffle g (seq 0 n_trials)) as [i_trials g1]. cbn [fst] in Hperm.
  intros E. injection E as <- _.
  assert (Hlen : length i_trials = n_trials).
  { rewrite <- (Permutation_length Hperm). apply length_seq. }
  assert (Hin : forall i, In i i_trials -> i < n_trials).
  { intros i Hi. apply (Permutation_in _ (Permutation_sym Hperm)) in Hi.
    apply in_seq in Hi. lia. }
  assert (Hsub : forall b, incl b i_trials -> Forall (fun i => i < n_trials) b).
  { intros b Hb. apply Forall_forall. intros i Hi. apply Hin, Hb, Hi. }
  apply Forall_app. split.
  - apply Forall_forall. intros b Hb. apply in_map_iff in Hb.
    destruct Hb as (i & <- & Hi).
    apply range_step_bound in Hi; [|lia]. unfold slice. split.
    + rewrite length_firstn, length_skipn. lia.
    + apply Hsub. intros x Hx. eapply In_skipn, In_firstn, Hx.
  - constructor; [|constructor]. unfold slice_from, slice_to. split.
    + rewrite length_app, length_firstn, length_skipn, Hlen.
      destruct (Nat.eq_dec n_trials batch_size) as [->|Hne].
      * rewrite Nat.sub_diag. cbn [range_step]. unfold range_step.
        replace ((0 + batch_size - 1) / batch_size) with 0
          by (symmetry; apply Nat.div_small; lia).
        simpl. lia.
      * pose proof (range_step_last (n_trials - batch_size) batch_size
                      ltac:(lia) ltac:(lia)) as [H1 H2].
        lia.
    + apply Hsub. intros x Hx. apply in_app_or in Hx.
      destruct Hx as [Hx|Hx]; [eapply In_skipn, Hx|eapply In_firstn, Hx].
Qed.

(** *** The examples of one class *)

Lemma positions_from_spec (targets : list nat) (c : nat) :
  forall k i, In i (positions_from k targets c) ->
    k <= i /\ nth_error targets (i - k) = Some c.
Proof.
  induction targets as [|t targets IH]; intros k i Hin; [contradiction|].
  cbn [positions_from] in Hin.
  assert (Htail : In i (positions_from (S k) targets c) ->
                  k <= i /\ nth_error (t :: targets) (i - k) = Some c).
  { intros H. apply IH in H. destruct H as [Hle H]. split; [lia|].
    replace (i - k) with (S (i - S k)) by lia. exact H. }
  destruct (Nat.eqb_spec t c) as [->|Hne]; [|now apply Htail].
  destruct Hin as [<-|Hin]; [|now apply Htail].
  split; [lia|]. now rewrite Nat.sub_diag.
Qed.

Lemma positions_class (targets : list nat) (c i : nat) :
  In i (positions targets c) -> nth_error targets i = Some c.
Proof.
  intros H. apply positions_from_spec in H. destruct H as [_ H].
  now rewrite Nat.sub_0_r in H.
Qed.

Lemma positions_length (targets : list nat) (c : nat) :
  length (positions targets c) = count_class targets c.
Proof.
  unfold positions, count_class. generalize 0.
  induction targets as [|t targets IH]; intros k; [reflexivity|].
  cbn [positions_from filter]. destruct (t =? c); simpl; now rewrite IH.
Qed.

Lemma take_at_spec {A : Type} (a : list A) (idx : list nat) (xs : list A) :
  take_at a idx = Returns xs ->
  length xs = length idx /\ Forall (fun x => In x a) xs.
Proof.
  revert xs. induction idx as [|i idx IH]; intros xs E; cbn [take_at] in E.
  - injection E as <-. split; [reflexivity|constructor].
  - destruct (nth_error a i) as [x|] eqn:Ei; [|discriminate].
    destruct (take_at a idx) as [ys|]; [|discriminate].
    cbn [bind] in E. injection E as <-.
    destruct (IH ys eq_refl) as [Hl Hf]. split; [simpl; now rewrite Hl|].
    constructor; [|exact Hf]. eapply nth_error_In, Ei.
Qed.

Lemma map_outcome_spec {A B : Type} (f : A -> outcome B) (xs : list A) (ys : list B) :
  map_outcome f xs = Returns ys -> Forall2 (fun x y => f x = Returns y) xs ys.
Proof.
  revert ys. induction xs as [|x xs IH]; intros ys E; cbn [map_outcome] in E.
  - injection E as <-. constructor.
  - destruct (f x) as [y|] eqn:Ex; [|discriminate]. cbn [bind] in E.
    destruct (map_outcome f xs) as [ys'|]; [|discriminate].
    cbn [bind] in E. injection E as <-. constructor; [exact Ex|now apply IH].
Qed.

(** The rows of one class: each of [batch_size] examples, all of that class. *)
Definition class_row (targets : list nat) (batch_size c : nat) (row : list nat) : Prop :=
  length row = batch_size /\ Forall (fun i => nth_error targets i = Some c) row.

Definition class_part (targets : list nat) (batch_size c : nat)
  (part : list (list nat)) : Prop :=
  Forall (class_row targets batch_size c) part.

Lemma batches_of_class_spec (targets : list nat) (batch_size c : nat)
  (acc parts : list (list (list nat))) (g g' : rng) :
  batch_size <= count_class targets c ->
  batches_of_class rng shuffle targets batch_size (acc, g) c = Returns (parts, g') ->
  exists part, parts = acc ++ [part] /\ class_part targets batch_size c part.
Proof.
  intros Hle E. unfold batches_of_class in E.
  destruct (get_exact_size_batches rng shuffle (count_class targets c) g batch_size)
    as [[batches g1]|] eqn:Eb; [|discriminate].
  cbn [bind] in E.
  destruct (map_outcome (take_at (positions targets c)) batches)
    as [rows|] eqn:Er; [|discriminate].
  cbn [bind] in E. injection E as <- <-.
  exists rows. split; [reflexivity|].
  apply exact_size_batches_full in Eb; [|exact Hle].
  apply map_outcome_spec in Er. clear -Eb Er.
  induction Er as [|b row batches rows Hrow Hrows IH]; [constructor|].
  inversion Eb as [|? ? [Hlen _] Eb']; subst.
  constructor; [|now apply IH].
  apply take_at_spec in Hrow. destruct Hrow as [Hl Hin]. split; [congruence|].
  eapply Forall_impl; [|exact Hin]. intros i. apply positions_class.
Qed.

Lemma for_each_classes (targets : list nat) (batch_size : nat) :
  forall (m k : nat) (acc parts : list (list (list nat))) (g g' : rng),
    (forall c, k <= c < k + m -> batch_size <= count_class targets c) ->
    for_each (batches_of_class rng shuffle targets batch_size) (seq k m) (acc, g)
      = Returns (parts, g') ->
    exists new, parts = acc ++ new /\
                Forall2 (class_part targets batch_size) (seq k m) new.
Proof.
  induction m as [|m IH]; intros k acc parts g g' Hle E; cbn [seq for_each] in E.
  - injection E as <- <-. exists []. split; [now rewrite app_nil_r|constructor].
  - destruct (batches_of_class rng shuffle targets batch_size (acc, g) k)
      as [[acc1 g1]|] eqn:E1; [|discriminate].
    cbn [bind] in E.
    apply batches_of_class_spec in E1; [|apply Hle; lia].
    destruct E1 as (part & -> & Hpart).
    apply IH in E; [|intros c Hc; apply Hle; lia].
    destruct E as (new & -> & Hnew).
    exists (part :: new). split; [now rewrite <- app_assoc|].
    cbn [seq]. now constructor.
Qed.

End ShuffledFacts.

(** *** Rows end to end *)

Lemma join_rows_In (parts : list (list (list nat))) (height : nat) (batch : list nat) :
  In batch (join_rows parts height) ->
  exists rows, batch = concat rows /\ Forall2 (fun part row => In row part) parts rows.
Proof.
  revert batch. induction parts as [|p parts IH]; intros batch Hin; cbn [join_rows] in Hin.
  - apply repeat_spec in Hin. subst. exists []. split; [reflexivity|constructor].
  - apply in_map_iff in Hin. destruct Hin as ([r rest] & <- & Hin).
    pose proof (in_combine_l _ _ _ _ Hin) as Hr.
    apply in_combine_r in Hin. apply IH in Hin.
    destruct Hin as (rows & -> & Hrows).
    exists (r :: rows). split; [reflexivity|]. now constructor.
Qed.

Lemma class_count_app (targets : list nat) (c : nat) (a b : list nat) :
  class_count targets c (a ++ b) = class_count targets c a + class_count targets c b.
Proof.
  unfold class_count. now rewrite filter_app, length_app.
Qed.

Lemma class_count_same (targets : list nat) (c : nat) (row : list nat) :
  Forall (fun i => nth_error targets i = Some c) row ->
  class_count targets c row = length row.
Proof.
  unfold class_count. induction 1 as [|i row Hi Hrow IH]; [reflexivity|].
  cbn [filter]. rewrite Hi, Nat.eqb_refl. simpl. now rewrite IH.
Qed.

Lemma class_count_other (targets : list nat) (c c' : nat) (row : list nat) :
  c <> c' ->
  Forall (fun i => nth_error targets i = Some c') row ->
  class_count targets c row = 0.
Proof.
  intros Hne. unfold class_count. induction 1 as [|i row Hi Hrow IH]; [reflexivity|].
  cbn [filter]. rewrite Hi.
  destruct (Nat.eqb_spec c' c) as [E|_]; [congruence|exact IH].
Qed.

Lemma class_count_concat (targets : list nat) (batch_size c : nat) :
  forall (cs : list nat) (rows : list (list nat)),
    Forall2 (class_row targets batch_size) cs rows ->
    NoDup cs ->
    length (concat rows) = length cs * batch_size /\
    (In c cs -> class_count targets c (concat rows) = batch_size) /\
    (~ In c cs -> class_count targets c (concat rows) = 0).
Proof.
  induction 1 as [|c' row cs rows [Hlen Hrow] Hrows IH]; intros Hnd.
  - split; [reflexivity|]. split; [intros []|reflexivity].
  - apply NoDup_cons_iff in Hnd. destruct Hnd as [Hnotin Hnd'].
    destruct (IH Hnd') as (Hl & Hin & Hout).
    cbn [concat]. rewrite length_app, class_count_app, Hl. cbn [length].
    split; [lia|]. split.
    + intros [->|Hc].
      * rewrite class_count_same, Hout by assumption. lia.
      * rewrite (class_count_other targets c c' row), Hin; auto.
        intros ->. contradiction.
    + intros Hc. rewrite (class_count_other targets c c' row), Hout; auto.
      * intros Hc'. apply Hc. now right.
      * intros ->. apply Hc. now left.
Qed.

(** C4, as the source has it.  [batch_size] is the number of examples per
    class, not per batch: whenever every class has at least [batch_size]
    examples and the call returns, each batch holds exactly [batch_size]
    examples of each class, [n_classes * batch_size] in all, whatever the
    order the generator shuffles into. *)
Theorem equal_classes_batches
  (rng : Type) (shuffle : rng -> list nat -> list nat * rng)
  (targets : list nat) (n_classes : nat) (g g' : rng) (batch_size : nat)
  (batches : list (list nat)) :
  (forall g a, Permutation a (fst (shuffle g a))) ->
  (forall c, c < n_classes -> batch_size <= count_class targets c) ->
  get_batches_equal_classes rng shuffle targets n_classes g batch_size
    = Returns (batches, g') ->
  Forall (fun batch =>
            length batch = n_classes * batch_size /\
            forall c, c < n_classes -> class_count targets c batch = batch_size)
         batches.
Proof.
  intros Hperm Hle E. unfold get_batches_equal_classes in E.
  destruct (for_each (batches_of_class rng shuffle targets batch_size)
              (seq 0 n_classes) ([], g)) as [[parts g1]|] eqn:Ef; [|discriminate].
  cbn [bind] in E.
  destruct (concatenate_axis1 parts) as [joined|] eqn:Ec; [|discriminate].
  cbn [bind] in E. injection E as <- <-.
  apply (for_each_classes rng shuffle Hperm) in Ef; [|intros c Hc; apply Hle; lia].
  destruct Ef as (new & -> & Hparts). cbn [app] in Ec.
  unfold concatenate_axis1 in Ec.
  destruct new as [|p new']; [discriminate|].
  destruct (forallb rectangular (p :: new') &&
            forallb (fun q => length q =? length p) (p :: new')); [|discriminate].
  injection Ec as <-.
  apply Forall_forall. intros batch Hin.
  change (In batch (join_rows (p :: new') (length p))) in Hin.
  apply join_rows_In in Hin. destruct Hin as (rows & -> & Hrows).
  assert (H2 : Forall2 (class_row targets batch_size) (seq 0 n_classes) rows).
  { clear -Hparts Hrows. revert rows Hrows.
    induction Hparts as [|c part cs parts Hpart Hparts IH]; intros rows Hrows.
    - inversion Hrows. constructor.
    - inversion Hrows as [|? row ? rows' Hrow Hrows']; subst.
      constructor; [|now apply IH].
      unfold class_part in Hpart. rewrite Forall_forall in Hpart. now apply Hpart. }
  destruct (class_count_concat targets batch_size 0 _ _ H2 (seq_NoDup _ _)) as (Hl & _).
  rewrite length_seq in Hl. split; [exact Hl|].
  intros c Hc.
  destruct (class_count_concat targets batch_size c _ _ H2 (seq_NoDup _ _))
    as (_ & Hin & _).
  apply Hin. apply in_seq. lia.
Qed.

Lemma equal_classes_batches_witness :
  Forall (fun batch =>
            length batch = 2 * 2 /\
            forall c, c < 2 -> class_count [0; 1; 1; 0; 1; 0] c batch = 2)
         [[5; 3; 4; 2]; [0; 5; 1; 4]].
Proof.
  apply (equal_classes_batches unit reverse_order [0; 1; 1; 0; 1; 0] 2 tt tt 2).
  - intros g a. apply Permutation_rev.
  - intros c Hc. destruct c as [|[|c]]; [cbv; lia|cbv; lia|lia].
  - reflexivity.
Defined.


(** *** An epoch of batches *)

Lemma firstn_plus {A : Type} (a b : nat) (l : list A) :
  firstn (a + b) l = firstn a l ++ firstn b (skipn a l).
Proof.
  revert l. induction a as [|a IH]; intros l; [reflexivity|].
  destruct l as [|x l]; [now rewrite !firstn_nil|].
  cbn [Nat.add firstn skipn app]. now rewrite IH.
Qed.

Lemma concat_slices {A : Type} (a : list A) (batch_size count : nat) :
  concat (map (fun i => slice a i (i + batch_size))
              (map (fun k => k * batch_size) (seq 0 count)))
  = firstn (count * batch_size) a.
Proof.
  induction count as [|c IH]; [reflexivity|].
  rewrite seq_S, !map_app, concat_app, IH. cbn [map concat Nat.add].
  rewrite app_nil_r. unfold slice.
  replace (c * batch_size + batch_size - c * batch_size) with batch_size by lia.
  replace (S c * batch_size) with (c * batch_size + batch_size) by lia.
  now rewrite firstn_plus.
Qed.

(** The number of batches an epoch over [n] examples has. *)
Definition n_batches (n batch_size : nat) : nat :=
  (n - batch_size + batch_size - 1) / batch_size + 1.

(** X8. An epoch visits every example, and fewer than [batch_size] of
    them a second time: end to end, the batches of
    [get_exact_size_batches] are the shuffled indices followed by the
    first [r] of them again, for some [r < batch_size].  There are
    [n_batches] of them. *)
Theorem exact_size_batches_epoch
  (rng : Type) (shuffle : rng -> list nat -> list nat * rng)
  (n_trials : nat) (g : rng) (batch_size : nat) :
  (forall g a, Permutation a (fst (shuffle g a))) ->
  0 < batch_size ->
  exists batches r,
    get_exact_size_batches rng shuffle n_trials g batch_size
      = Returns (batches, snd (shuffle g (seq 0 n_trials))) /\
    r < batch_size /\
    length batches = n_batches n_trials batch_size /\
    concat batches
      = fst (shuffle g (seq 0 n_trials)) ++ firstn r (fst (shuffle g (seq 0 n_trials))).
Proof.
  intros Hperm Hpos. unfold get_exact_size_batches.
  destruct (Nat.eqb_spec batch_size 0) as [|_]; [lia|].
  pose proof (Hperm g (seq 0 n_trials)) as Hp.
  destruct (shuffle g (seq 0 n_trials)) as [i_trials g1]. cbn [fst snd] in *.
  assert (Hlen : length i_trials = n_trials).
  { rewrite <- (Permutation_length Hp). apply length_seq. }
  unfold range_step, n_batches.
  set (stop := n_trials - batch_size).
  pose proof (Nat.div_mod_eq (stop + batch_size - 1) batch_size) as Ediv.
  pose proof (Nat.mod_upper_bound (stop + batch_size - 1) batch_size ltac:(lia)) as Hr.
  set (count := (stop + batch_size - 1) / batch_size) in *.
  destruct count as [|c] eqn:Ec.
  - eexists. exists 0. split; [reflexivity|]. split; [exact Hpos|]. split; [reflexivity|].
    cbn [seq map last app concat Nat.add]. unfold slice_from, slice_to.
    assert (Hn : n_trials <= batch_size) by (unfold stop in *; nia).
    rewrite skipn_all2 by lia. cbn [app length].
    rewrite Nat.sub_0_r, firstn_all2 by lia. now rewrite !app_nil_r.
  - eexists. exists (batch_size - (n_trials - S c * batch_size)).
    split; [reflexivity|].
    assert (Hlt : S c * batch_size < n_trials) by (unfold stop in *; nia).
    split; [lia|]. split.
    + rewrite length_app, !length_map, length_seq. reflexivity.
    + rewrite concat_app, concat_slices. cbn [concat]. rewrite app_nil_r.
      rewrite last_map_seq. unfold slice_from, slice_to.
      replace (c * batch_size + batch_size) with (S c * batch_size) by lia.
      rewrite length_skipn, Hlen, app_assoc, firstn_skipn. reflexivity.
Qed.

Lemma exact_size_batches_epoch_witness :
  exists batches r,
    get_exact_size_batches unit reverse_order 7 tt 3
      = Returns (batches, snd (reverse_order tt (seq 0 7))) /\
    r < 3 /\
    length batches = n_batches 7 3 /\
    concat batches
      = fst (reverse_order tt (seq 0 7)) ++ firstn r (fst (reverse_order tt (seq 0 7))).
Proof.
  apply exact_size_batches_epoch.
  - intros g a. apply Permutation_rev.
  - lia.
Defined.

(** X9. With fewer examples than one batch holds there is nothing to wrap
    around to: the one batch returned is the shuffled indices, shorter
    than [batch_size]. *)
Theorem exact_size_batches_short
  (rng : Type) (shuffle : rng -> list nat -> list nat * rng)
  (n_trials : nat) (g : rng) (batch_size : nat) :
  (forall g a, Permutation a (fst (shuffle g a))) ->
  n_trials < batch_size ->
  get_exact_size_batches rng shuffle n_trials g batch_size
    = Returns ([fst (shuffle g (seq 0 n_trials))], snd (shuffle g (seq 0 n_trials))) /\
  length (fst (shuffle g (seq 0 n_trials))) < batch_size.
Proof.
  intros Hperm Hlt. unfold get_exact_size_batches.
  destruct (Nat.eqb_spec batch_size 0) as [|_]; [lia|].
  pose proof (Hperm g (seq 0 n_trials)) as Hp.
  destruct (shuffle g (seq 0 n_trials)) as [i_trials g1]. cbn [fst snd] in *.
  assert (Hlen : length i_trials = n_trials).
  { rewrite <- (Permutation_length Hp). apply length_seq. }
  split; [|lia].
  replace (n_trials - batch_size) with 0 by lia. unfold range_step.
  replace ((0 + batch_size - 1) / batch_size) with 0
    by (symmetry; apply Nat.div_small; lia).
  cbn [seq map last app Nat.add]. unfold slice_from, slice_to.
  rewrite skipn_all2 by lia. cbn [app length].
  rewrite Nat.sub_0_r, firstn_all2 by lia. reflexivity.
Qed.

Lemma exact_size_batches_short_witness :
  get_exact_size_batches unit reverse_order 2 tt 3
    = Returns ([fst (reverse_order tt (seq 0 2))], snd (reverse_order tt (seq 0 2))) /\
  length (fst (reverse_order tt (seq 0 2))) < 3.
Proof.
  apply exact_size_batches_short.
  - intros g a. apply Permutation_rev.
  - lia.
Defined.

(** *** When the classes can be put side by side *)

Lemma rectangular_same (len : nat) (part : list (list nat)) :
  Forall (fun row => length row = len) part -> rectangular part = true.
Proof.
  intros H. unfold rectangular. apply forallb_forall. intros row Hrow.
  apply Nat.eqb_eq. rewrite Forall_forall in H. rewrite (H row Hrow).
  destruct part as [|r0 part]; [contradiction|]. cbn [hd]. symmetry. apply H. now left.
Qed.

Lemma take_at_returns {A : Type} (a : list A) (idx : list nat) :
  Forall (fun i => i < length a) idx ->
  exists xs, take_at a idx = Returns xs /\ length xs = length idx.
Proof.
  induction 1 as [|i idx Hi _ [xs [E L]]]; [exists []; now split|].
  apply nth_error_Some in Hi. cbn [take_at].
  destruct (nth_error a i) as [x|]; [|contradiction].
  rewrite E. cbn [bind]. exists (x :: xs). split; [reflexivity|]. simpl. now rewrite L.
Qed.

Lemma take_at_all (a : list nat) (len : nat) (batches : list (list nat)) :
  Forall (fun b => length b = len /\ Forall (fun i => i < length a) b) batches ->
  exists rows, map_outcome (take_at a) batches = Returns rows /\
               length rows = length batches /\
               Forall (fun r => length r = len) rows.
Proof.
  induction 1 as [|b batches [Hl Hb] _ (rows & E & L & F)].
  - exists []. repeat split; constructor.
  - destruct (take_at_returns a b Hb) as (xs & Ex & Lx).
    cbn [map_outcome]. rewrite Ex. cbn [bind]. rewrite E. cbn [bind].
    exists (xs :: rows). split; [reflexivity|]. split; [simpl; now rewrite L|].
    constructor; [congruence|exact F].
Qed.

Lemma Forall2_in_r_exists {A B : Type} (R : A -> B -> Prop) (l1 : list A) (l2 : list B) :
  Forall2 R l1 l2 -> forall y, In y l2 -> exists x, In x l1 /\ R x y.
Proof.
  induction 1 as [|x y' l1 l2 Hxy _ IH]; intros y Hy; [contradiction|].
  destruct Hy as [<-|Hy]; [exists x; split; [now left|exact Hxy]|].
  destruct (IH y Hy) as (x' & Hx' & HR). exists x'. split; [now right|exact HR].
Qed.

Lemma Forall2_in_l_exists {A B : Type} (R : A -> B -> Prop) (l1 : list A) (l2 : list B) :
  Forall2 R l1 l2 -> forall x, In x l1 -> exists y, In y l2 /\ R x y.
Proof.
  induction 1 as [|x' y l1 l2 Hxy _ IH]; intros x Hx; [contradiction|].
  destruct Hx as [<-|Hx]; [exists y; split; [now left|exact Hxy]|].
  destruct (IH x Hx) as (y' & Hy' & HR). exists y'. split; [now right|exact HR].
Qed.

Section SideBySide.

Variable rng : Type.
Variable shuffle : rng -> list nat -> list nat * rng.
Hypothesis shuffle_permutes : forall g a, Permutation a (fst (shuffle g a)).

Lemma exact_size_batches_rows (n_trials batch_size : nat) (g : rng) :
  0 < batch_size ->
  exists batches len,
    get_exact_size_batches rng shuffle n_trials g batch_size
      = Returns (batches, snd (shuffle g (seq 0 n_trials))) /\
    length batches = n_batches n_trials batch_size /\
    Forall (fun b => length b = len /\ Forall (fun i => i < n_trials) b) batches.
Proof.
  intros Hpos.
  pose proof (exact_size_batches_full rng shuffle shuffle_permutes
                n_trials batch_size g) as Hfull.
  pose proof (shuffle_permutes g (seq 0 n_trials)) as Hp.
  revert Hfull. unfold get_exact_size_batches.
  destruct (Nat.eqb_spec batch_size 0) as [|_]; [lia|].
  destruct (shuffle g (seq 0 n_trials)) as [i_trials g1]. cbn [fst snd] in *.
  intros Hfull.
  destruct (Nat.le_gt_cases batch_size n_trials) as [Hle|Hlt].
  - eexists. exists batch_size. split; [reflexivity|]. split.
    + rewrite length_app. unfold range_step. rewrite !length_map, length_seq. reflexivity.
    + apply (Hfull g1 _ Hle eq_refl).
  - unfold n_batches. replace (n_trials - batch_size) with 0 by lia. unfold range_step.
    replace ((0 + batch_size - 1) / batch_size) with 0
      by (symmetry; apply Nat.div_small; lia).
    cbn [seq map last app Nat.add].
    eexists. eexists. split; [reflexivity|]. split; [reflexivity|].
    constructor; [|constructor]. split; [reflexivity|].
    apply Forall_forall. intros i Hi.
    assert (Hin : In i i_trials).
    { unfold slice_from, slice_to in Hi. apply in_app_or in Hi.
      destruct Hi as [Hi|Hi]; [eapply In_skipn, Hi|eapply In_firstn, Hi]. }
    apply (Permutation_in _ (Permutation_sym Hp)) in Hin.
    apply in_seq in Hin. lia.
Qed.

(** What the loop over the classes leaves for one class: as many rows as
    the class has batches, all of one length. *)
Definition class_rows (targets : list nat) (batch_size c : nat)
  (part : list (list nat)) : Prop :=
  length part = n_batches (count_class targets c) batch_size /\
  exists len, Forall (fun row => length row = len) part.

Lemma batches_of_class_returns (targets : list nat) (batch_size c : nat)
  (acc : list (list (list nat))) (g : rng) :
  0 < batch_size ->
  exists part g',
    batches_of_class rng shuffle targets batch_size (acc, g) c
      = Returns (acc ++ [part], g') /\
    class_rows targets batch_size c part.
Proof.
  intros Hpos. unfold batches_of_class.
  destruct (exact_size_batches_rows (count_class targets c) batch_size g Hpos)
    as (batches & len & E & Hn & Hb).
  rewrite E. cbn [bind].
  destruct (take_at_all (positions targets c) len batches) as (rows & Er & Lr & Fr).
  { eapply Forall_impl; [|exact Hb]. intros b [Hl Hi]. split; [exact Hl|].
    now rewrite positions_length. }
  rewrite Er. cbn [bind]. exists rows. eexists. split; [reflexivity|].
  split; [congruence|]. now exists len.
Qed.

Lemma for_each_classes_return (targets : list nat) (batch_size : nat) :
  0 < batch_size ->
  forall (m k : nat) (acc : list (list (list nat))) (g : rng),
    exists parts g',
      for_each (batches_of_class rng shuffle targets batch_size) (seq k m) (acc, g)
        = Returns (acc ++ parts, g') /\
      Forall2 (class_rows targets batch_size) (seq k m) parts.
Proof.
  intros Hpos. induction m as [|m IH]; intros k acc g.
  - exists [], g. split; [now rewrite app_nil_r|constructor].
  - cbn [seq for_each].
    destruct (batches_of_class_returns targets batch_size k acc g Hpos)
      as (part & g1 & E & Hpart).
    rewrite E. cbn [bind].
    destruct (IH (S k) (acc ++ [part]) g1) as (parts & g2 & E2 & Hparts).
    rewrite E2. exists (part :: parts), g2. split; [now rewrite <- app_assoc|].
    now constructor.
Qed.

Lemma join_rows_length (parts : list (list (list nat))) (height : nat) :
  Forall (fun part => length part = height) parts ->
  length (join_rows parts height) = height.
Proof.
  induction 1 as [|p parts Hp _ IH]; cbn [join_rows]; [apply repeat_length|].
  rewrite length_map, length_combine, IH. lia.
Qed.

(** X10. [get_batches_equal_classes] returns exactly when every class has
    as many batches as class 0: if so it returns that many batches, and if
    some class has a different number, [np.concatenate] raises. *)
Theorem equal_classes_need_equal_batch_counts
  (targets : list nat) (n_classes : nat) (g : rng) (batch_size : nat) :
  0 < batch_size -> 0 < n_classes ->
  ((forall c, c < n_classes ->
      n_batches (count_class targets c) batch_size
      = n_batches (count_class targets 0) batch_size) ->
   exists batches g',
     get_batches_equal_classes rng shuffle targets n_classes g batch_size
       = Returns (batches, g') /\
     length batches = n_batches (count_class targets 0) batch_size) /\
  ((exists c, c < n_classes /\
      n_batches (count_class targets c) batch_size
      <> n_batches (count_class targets 0) batch_size) ->
   get_batches_equal_classes rng shuffle targets n_classes g batch_size
     = Raises ValueError).
Proof.
  intros Hpos Hcls. unfold get_batches_equal_classes.
  destruct (for_each_classes_return targets batch_size Hpos n_classes 0 [] g)
    as (parts & g1 & E & Hparts).
  rewrite E. cbn [app bind].
  destruct n_classes as [|k]; [lia|]. cbn [seq] in Hparts.
  inversion Hparts as [|c0 p cs parts' [Hp0 Hrect0] Hrest]; subst.
  unfold concatenate_axis1.
  assert (Hrect : forallb rectangular (p :: parts') = true).
  { apply forallb_forall. intros q Hq.
    destruct (Forall2_in_r_exists _ _ _ Hparts q Hq) as (c & _ & _ & len & Hlen).
    now apply (rectangular_same len). }
  rewrite Hrect. cbn [andb].
  split.
  - intros Hall.
    assert (Hheights : Forall (fun q => length q = length p) (p :: parts')).
    { apply Forall_forall. intros q Hq.
      destruct (Forall2_in_r_exists _ _ _ Hparts q Hq) as (c & Hc & Hq' & _).
      change (In c (seq 0 (S k))) in Hc.
      rewrite Hq', Hp0. apply Hall. apply in_seq in Hc. lia. }
    replace (forallb (fun q => length q =? length p) (p :: parts')) with true.
    + cbn [bind]. eexists. eexists. split; [reflexivity|].
      rewrite join_rows_length; [exact Hp0|exact Hheights].
    + symmetry. apply forallb_forall. intros q Hq. apply Nat.eqb_eq.
      rewrite Forall_forall in Hheights. now apply Hheights.
  - intros (c & Hc & Hne).
    replace (forallb (fun q => length q =? length p) (p :: parts')) with false;
      [reflexivity|].
    symmetry. apply not_true_is_false. intros Hall.
    rewrite forallb_forall in Hall.
    assert (Hin : In c (seq 0 (S k))) by (apply in_seq; lia).
    destruct (Forall2_in_l_exists _ _ _ Hparts c Hin) as (q & Hq & Hlen & _).
    specialize (Hall q Hq). apply Nat.eqb_eq in Hall. congruence.
Qed.

End SideBySide.

Lemma equal_classes_need_equal_batch_counts_witness :
  get_batches_equal_classes unit keep_order [0; 0; 0; 1] 2 tt 2 = Raises ValueError.
Proof.
  refine (proj2 (equal_classes_need_equal_batch_counts unit keep_order _
                   [0; 0; 0; 1] 2 tt 2 _ _) _).
  - intros g a. apply Permutation_refl.
  - lia.
  - lia.
  - exists 1. split; [lia|]. cbv. discriminate.
Defined.

End Batches.

(** ** Directions and mixture CDFs, over the reals *)

Module Cdf.

Import Reals Lra RiemannInt.

Local Open Scope R_scope.

Definition Rsum (l : list R) : R := fold_right Rplus 0 l.

(** *** The error function

    [th.erf]: [erf x = 2/sqrt(pi) * integral from 0 to x of exp(-t^2) dt]. *)

Definition gauss (t : R) : R := exp (- (t * t)).

Lemma gauss_continuous (x : R) : continuity_pt gauss x.
Proof. unfold gauss. reg. Qed.

Lemma gauss_integrable (a b : R) : Riemann_integrable gauss a b.
Proof.
  destruct (Rle_dec a b) as [Hab|Hba].
  - apply continuity_implies_RiemannInt; [exact Hab|].
    intros x _. apply gauss_continuous.
  - apply RiemannInt_P1. apply continuity_implies_RiemannInt; [lra|].
    intros x _. apply gauss_continuous.
Qed.

Definition erf (x : R) : R := 2 / sqrt PI * RiemannInt (gauss_integrable 0 x).

Lemma erf_scale_pos : 0 < 2 / sqrt PI.
Proof.
  apply Rdiv_lt_0_compat; [lra|]. apply sqrt_lt_R0. apply PI_RGT_0.
Qed.

Lemma erf_0 : erf 0 = 0.
Proof.
  unfold erf. rewrite RiemannInt_P9. ring.
Qed.

Lemma erf_diff (x y : R) :
  erf y - erf x = 2 / sqrt PI * RiemannInt (gauss_integrable x y).
Proof.
  unfold erf.
  rewrite <- (RiemannInt_P26 (gauss_integrable 0 x) (gauss_integrable x y)
                (gauss_integrable 0 y)).
  ring.
Qed.

Lemma gauss_pos (t : R) : 0 < gauss t.
Proof. apply exp_pos. Qed.

Lemma gauss_le_1 (t : R) : gauss t <= 1.
Proof.
  unfold gauss. rewrite <- exp_0.
  destruct (Req_dec t 0) as [->|Hne].
  - right. f_equal. ring.
  - left. apply exp_increasing. nra.
Qed.

Lemma gauss_int_nonneg (a b : R) :
  a <= b -> 0 <= RiemannInt (gauss_integrable a b).
Proof.
  intros Hab.
  rewrite <- (Rmult_0_l (b - a)), <- (RiemannInt_P15 (RiemannInt_P14 a b 0)).
  apply RiemannInt_P19; [exact Hab|].
  intros x _. unfold fct_cte. left. apply gauss_pos.
Qed.

Lemma gauss_int_upper (a b : R) :
  a <= b -> RiemannInt (gauss_integrable a b) <= b - a.
Proof.
  intros Hab.
  rewrite <- (Rmult_1_l (b - a)), <- (RiemannInt_P15 (RiemannInt_P14 a b 1)).
  apply RiemannInt_P19; [exact Hab|].
  intros x _. unfold fct_cte. apply gauss_le_1.
Qed.

Lemma gauss_int_lower (a b : R) :
  0 <= a -> a <= b -> gauss b * (b - a) <= RiemannInt (gauss_integrable a b).
Proof.
  intros Ha Hab.
  rewrite <- (RiemannInt_P15 (RiemannInt_P14 a b (gauss b))).
  apply RiemannInt_P19; [exact Hab|].
  intros x Hx. unfold fct_cte, gauss.
  left. apply exp_increasing. nra.
Qed.

Lemma erf_increasing (x y : R) : x <= y -> erf x <= erf y.
Proof.
  intros Hxy.
  pose proof (erf_diff x y) as E.
  pose proof (gauss_int_nonneg x y Hxy) as Hn.
  pose proof erf_scale_pos as Hs.
  assert (0 <= 2 / sqrt PI * RiemannInt (gauss_integrable x y)); [|lra].
  apply Rmult_le_pos; lra.
Qed.

(** *** The source *)

(** [th.clamp(t, min=eps)]. *)
Definition clamp_min (eps x : R) : R := Rmax x eps.

Definition eps : R := 1 / 1000000.

(** Lines 1294-1301 at one point [x] of one direction: [means] and [stds]
    are the row of that direction, one entry per cluster, [weights] has
    one entry per cluster.  The division by [th.sum(weights)] is exact
    division; a zero sum ([nan] and [inf] in the source) is outside the
    model and excluded wherever it would matter. *)
Definition gaussian_cdf (x mean std : R) : R :=
  (1 / 2) * (1 + erf ((x - mean) / (std * sqrt 2))).

Definition mixture_cdf (x : R) (means stds weights : list R) : R :=
  let stds := map (clamp_min eps) stds in
  let weights := map (fun w => w / Rsum weights) weights in
  Rsum (map (fun msw => gaussian_cdf x (fst (fst msw)) (snd (fst msw)) * snd msw)
            (combine (combine means stds) weights)).

(** [multi_directions_gaussian_cdfs(x, means, stds, weights)], lines
    1288-1303: [x] is directions x points, [means] and [stds] are
    directions x clusters, the result is directions x points. *)
Definition multi_directions_gaussian_cdfs (x means stds : list (list R))
  (weights : list R) : list (list R) :=
  map (fun row => map (fun x_point => mixture_cdf x_point (fst (snd row)) (snd (snd row)) weights)
                      (fst row))
      (combine x (combine means stds)).

(** Lines 642-647 in exact arithmetic: every row divided by its Euclidean
    norm ([th.norm(directions, p=2, dim=1, keepdim=True)]), with the
    square root and the quotients as the real numbers they round.  The
    same lines on floats are [Float32.norm_and_var_directions]. *)
Definition norm2 (row : list R) : R := sqrt (Rsum (map (fun v => v * v) row)).

Definition norm_and_var_directions (directions : list (list R)) : list (list R) :=
  map (fun row => map (fun v => v / norm2 row) row) directions.

(** *** Unit rows stay as they are *)

Lemma Rsum_squares_nonneg (row : list R) : 0 <= Rsum (map (fun v => v * v) row).
Proof.
  induction row as [|v row IH]; simpl; [lra|nra].
Qed.





(** *** The mixture CDF along a direction *)

Lemma clamp_min_pos (x : R) : 0 < clamp_min eps x.
Proof.
  unfold clamp_min, eps. pose proof (Rmax_r x (1 / 1000000)). lra.
Qed.

Lemma sqrt2_pos : 0 < sqrt 2.
Proof. apply sqrt_lt_R0. lra. Qed.

Lemma gaussian_cdf_increasing (x x' mean std : R) :
  0 < std -> x <= x' -> gaussian_cdf x mean std <= gaussian_cdf x' mean std.
Proof.
  intros Hstd Hx. unfold gaussian_cdf.
  assert (Hd : 0 < std * sqrt 2) by (apply Rmult_lt_0_compat; [exact Hstd|apply sqrt2_pos]).
  assert (He : erf ((x - mean) / (std * sqrt 2)) <= erf ((x' - mean) / (std * sqrt 2))).
  { apply erf_increasing. unfold Rdiv. apply Rmult_le_compat_r; [|lra].
    left. now apply Rinv_0_lt_compat. }
  lra.
Qed.

Lemma weighted_sum_increasing (x x' : R) (terms : list (R * R * R)) :
  Forall (fun msw => 0 < snd (fst msw) /\ 0 <= snd msw) terms ->
  x <= x' ->
  Rsum (map (fun msw => gaussian_cdf x (fst (fst msw)) (snd (fst msw)) * snd msw) terms)
  <= Rsum (map (fun msw => gaussian_cdf x' (fst (fst msw)) (snd (fst msw)) * snd msw) terms).
Proof.
  intros Hterms Hx. induction Hterms as [|[[m sd] w] terms [Hs Hw] Hterms IH]; simpl.
  - lra.
  - simpl in Hs, Hw.
    pose proof (gaussian_cdf_increasing x x' m sd Hs Hx).
    assert (gaussian_cdf x m sd * w <= gaussian_cdf x' m sd * w)
      by (apply Rmult_le_compat_r; assumption).
    lra.
Qed.

Lemma mixture_cdf_increasing (x x' : R) (means stds weights : list R) :
  Forall (fun w => 0 <= w) weights ->
  0 < Rsum weights ->
  x <= x' ->
  mixture_cdf x means stds weights <= mixture_cdf x' means stds weights.
Proof.
  intros Hw Hsum Hx. unfold mixture_cdf.
  apply weighted_sum_increasing; [|exact Hx].
  apply Forall_forall. intros [[m sd] w] Hin. cbn [fst snd]. split.
  - apply in_combine_l, in_combine_r in Hin. apply in_map_iff in Hin.
    destruct Hin as (s0 & <- & _). apply clamp_min_pos.
  - apply in_combine_r, in_map_iff in Hin. destruct Hin as (w0 & <- & Hw0).
    rewrite Forall_forall in Hw. specialize (Hw w0 Hw0).
    unfold Rdiv. apply Rmult_le_pos; [exact Hw|]. left. now apply Rinv_0_lt_compat.
Qed.

Lemma cdfs_row (weights : list R) (x means stds : list (list R)) :
  forall d,
    nth d (multi_directions_gaussian_cdfs x means stds weights) [] = [] \/
    exists mean_row std_row,
      nth d (multi_directions_gaussian_cdfs x means stds weights) []
      = map (fun x_point => mixture_cdf x_point mean_row std_row weights) (nth d x []).
Proof.
  unfold multi_directions_gaussian_cdfs. revert means stds.
  induction x as [|xrow x IH]; intros means stds d.
  - left. destruct d; reflexivity.
  - destruct means as [|mrow means]; [left; destruct d; reflexivity|].
    destruct stds as [|srow stds]; [left; destruct d; reflexivity|].
    destruct d as [|d].
    + right. exists mrow, srow. reflexivity.
    + cbn [combine map nth]. apply IH.
Qed.

Lemma nth_map_in_range {A B : Type} (f : A -> B) (l : list A) (p : nat) (a : A) (b : B) :
  (p < length l)%nat -> nth p (map f l) b = f (nth p l a).
Proof.
  intros Hp. rewrite (nth_indep _ b (f a)) by now rewrite length_map.
  apply map_nth.
Qed.

(** C7, as the source has it.  With weights that are non-negative and of
    positive sum, the CDF is non-decreasing along every direction row:
    where one point of the row is at most another, so are their CDF
    values.  Means and stds are arbitrary (the stds are clamped to
    [1e-6] from below by the source itself). *)
Theorem cdfs_non_decreasing (x means stds : list (list R)) (weights : list R)
  (d p p' : nat) :
  Forall (fun w => 0 <= w) weights ->
  0 < Rsum weights ->
  (p < length (nth d x []))%nat ->
  (p' < length (nth d x []))%nat ->
  nth p (nth d x []) 0 <= nth p' (nth d x []) 0 ->
  nth p (nth d (multi_directions_gaussian_cdfs x means stds weights) []) 0
  <= nth p' (nth d (multi_directions_gaussian_cdfs x means stds weights) []) 0.
Proof.
  intros Hw Hsum Hp Hp' Hx.
  destruct (cdfs_row weights x means stds d) as [E|(mean_row & std_row & E)];
    rewrite E.
  - destruct p, p'; simpl; lra.
  - rewrite (nth_map_in_range _ _ p 0), (nth_map_in_range _ _ p' 0) by assumption.
    now apply mixture_cdf_increasing.
Qed.

Lemma cdfs_non_decreasing_witness :
  nth 0 (nth 0 (multi_directions_gaussian_cdfs [[0; 1]] [[0; 3]] [[1; 2]] [1; 3]) []) 0
  <= nth 1 (nth 0 (multi_directions_gaussian_cdfs [[0; 1]] [[0; 3]] [[1; 2]] [1; 3]) []) 0.
Proof.
  apply cdfs_non_decreasing.
  - repeat constructor; lra.
  - simpl. lra.
  - simpl. lia.
  - simpl. lia.
  - simpl. lra.
Defined.

Lemma clamp_min_above (x : R) : eps <= x -> clamp_min eps x = x.
Proof. intros H. unfold clamp_min. now apply Rmax_left. Qed.

Lemma gaussian_cdf_at_mean (mean std : R) : gaussian_cdf mean mean std = 1 / 2.
Proof.
  unfold gaussian_cdf. replace ((mean - mean) / (std * sqrt 2)) with 0.
  - rewrite erf_0. lra.
  - unfold Rdiv. rewrite Rminus_diag. ring.
Qed.

Lemma erf_upper (z : R) : 0 <= z -> erf z <= 2 / sqrt PI * z.
Proof.
  intros Hz. pose proof (erf_diff 0 z) as E. rewrite erf_0 in E.
  pose proof (gauss_int_upper 0 z Hz) as Hu.
  pose proof erf_scale_pos as Hs.
  assert (2 / sqrt PI * RiemannInt (gauss_integrable 0 z) <= 2 / sqrt PI * (z - 0))
    by (apply Rmult_le_compat_l; lra).
  lra.
Qed.

Lemma erf_lower (z : R) : 0 <= z -> 2 / sqrt PI * (gauss z * z) <= erf z.
Proof.
  intros Hz. pose proof (erf_diff 0 z) as E. rewrite erf_0 in E.
  pose proof (gauss_int_lower 0 z (Rle_refl 0) Hz) as Hl.
  pose proof erf_scale_pos as Hs.
  assert (2 / sqrt PI * (gauss z * (z - 0)) <= 2 / sqrt PI * RiemannInt (gauss_integrable 0 z))
    by (apply Rmult_le_compat_l; lra).
  replace (z - 0) with z in * by ring. lra.
Qed.

Lemma exp_minus_half : 1 / 3 <= exp (- (1 / 2)).
Proof.
  rewrite exp_Ropp.
  assert (H : exp (1 / 2) <= 3).
  { apply Rle_trans with (exp 1); [|apply exp_le_3].
    left. apply exp_increasing. lra. }
  pose proof (exp_pos (1 / 2)) as Hp.
  apply Rmult_le_reg_r with (exp (1 / 2)); [exact Hp|].
  rewrite Rinv_l by lra. lra.
Qed.

(** C7, where it fails.  Weights 2 and -1 (their sum is 1), both means 0,
    stds 10 and 1: from [x = 0] to [x = 1] the narrow cluster, which
    counts negatively, gains more than twice what the wide one gains, and
    the CDF goes down. *)
Lemma cdf_decreases_with_negative_weight :
  nth 0 (nth 0 [[0; 1]] []) 0 <= nth 1 (nth 0 [[0; 1]] []) 0 /\
  nth 1 (nth 0 (multi_directions_gaussian_cdfs [[0; 1]] [[0; 0]] [[10; 1]] [2; -1]) []) 0
  < nth 0 (nth 0 (multi_directions_gaussian_cdfs [[0; 1]] [[0; 0]] [[10; 1]] [2; -1]) []) 0.
Proof.
  split; [simpl; lra|].
  unfold multi_directions_gaussian_cdfs, mixture_cdf.
  cbn [map combine fst snd nth Rsum fold_right].
  rewrite !clamp_min_above by (unfold eps; lra).
  rewrite !gaussian_cdf_at_mean. unfold gaussian_cdf.
  pose proof sqrt2_pos as H2.
  set (b := (1 - 0) / (1 * sqrt 2)).
  assert (Ea : (1 - 0) / (10 * sqrt 2) = b / 10) by (unfold b; field; lra).
  rewrite Ea.
  assert (Hb : 0 < b).
  { unfold b. apply Rdiv_lt_0_compat; lra. }
  assert (Hbb : b * b = 1 / 2).
  { unfold b. replace ((1 - 0) / (1 * sqrt 2) * ((1 - 0) / (1 * sqrt 2)))
      with (1 / (sqrt 2 * sqrt 2)) by (field; lra).
    rewrite sqrt_sqrt by lra. reflexivity. }
  pose proof (erf_upper (b / 10) ltac:(lra)) as Hup.
  pose proof (erf_lower b ltac:(lra)) as Hlo.
  unfold gauss in Hlo. rewrite Hbb in Hlo.
  pose proof exp_minus_half as He.
  pose proof erf_scale_pos as Hs.
  set (c := 2 / sqrt PI) in *.
  assert (H1 : c * (1 / 3 * b) <= c * (exp (- (1 / 2)) * b)).
  { apply Rmult_le_compat_l; [lra|]. apply Rmult_le_compat_r; lra. }
  assert (H3 : 0 < c * b) by (apply Rmult_lt_0_compat; lra).
  nra.
Qed.

(** *** Projecting the mixture on directions (lines 650-664) *)

(** [th.mm] of one row with one row. *)
Definition dot (a b : list R) : R := Rsum (map2 Rmult a b).

(** The variance of [N(0, diag(std^2))] along [dir]:
    [th.sum((directions * directions) * (stds * stds), dim=1)]. *)
Definition variance_along (dir std : list R) : R :=
  Rsum (map2 (fun d s => (d * d) * (s * s)) dir std).

(** [transform_gaussian_by_dirs(means, stds, directions)]: [means] and
    [stds] are clusters x dims, [directions] is directions x dims, both
    results are directions x clusters.  (The rows are taken to be of one
    length, as [th.mm] demands.) *)
Definition transform_gaussian_by_dirs (means stds directions : list (list R))
  : list (list R) * list (list R) :=
  (map (fun dir => map (fun mean => dot mean dir) means) directions,
   map (fun dir => map (fun std => sqrt (variance_along dir std)) stds) directions).

Lemma variance_along_bounds (lo hi : R) (dir std : list R) :
  length dir = length std ->
  Forall (fun s => lo <= s * s <= hi) std ->
  lo * Rsum (map (fun v => v * v) dir) <= variance_along dir std
  <= hi * Rsum (map (fun v => v * v) dir).
Proof.
  intros Hlen Hstd. unfold variance_along. revert dir Hlen.
  induction Hstd as [|s std [Hlo Hhi] _ IH]; intros [|d dir] Hlen; try discriminate.
  - simpl. lra.
  - cbn [map2 map Rsum fold_right].
    fold (Rsum (map (fun v => v * v) dir)).
    fold (Rsum (map2 (fun d s => d * d * (s * s)) dir std)).
    specialize (IH dir ltac:(simpl in Hlen; lia)).
    pose proof (Rle_0_sqr d) as Hd. unfold Rsqr in Hd. nra.
Qed.

(** X11. Along a direction of norm 1 a cluster is no wider than in its
    widest dimension and no narrower than in its narrowest: if every std
    of the cluster lies between [lo] and [hi], so does its std along the
    direction (so an isotropic cluster keeps its std along every unit
    direction). *)
Theorem transformed_std_between (lo hi : R) (means stds directions : list (list R))
  (d c : nat) :
  (d < length directions)%nat -> (c < length stds)%nat ->
  norm2 (nth d directions []) = 1 ->
  length (nth d directions []) = length (nth c stds []) ->
  0 <= lo ->
  Forall (fun s => lo <= Rabs s <= hi) (nth c stds []) ->
  lo <= nth c (nth d (snd (transform_gaussian_by_dirs means stds directions)) []) 0 <= hi.
Proof.
  intros Hd Hc Hnorm Hlen Hlo Hstd. cbn [transform_gaussian_by_dirs snd].
  rewrite (nth_map_in_range _ _ d []) by exact Hd.
  rewrite (nth_map_in_range _ _ c []) by exact Hc.
  set (dir := nth d directions []) in *. set (std := nth c stds []) in *.
  assert (Hunit : Rsum (map (fun v => v * v) dir) = 1).
  { unfold norm2 in Hnorm.
    rewrite <- (sqrt_sqrt (Rsum (map (fun v => v * v) dir))) by apply Rsum_squares_nonneg.
    rewrite Hnorm. ring. }
  assert (Hsq : Forall (fun s => lo * lo <= s * s <= hi * hi) std).
  { eapply Forall_impl; [|exact Hstd]. intros s [H1 H2].
    pose proof (Rabs_pos s). pose proof (Rsqr_abs s) as E. unfold Rsqr in E.
    rewrite E. nra. }
  pose proof (variance_along_bounds (lo * lo) (hi * hi) dir std Hlen Hsq) as [H1 H2].
  rewrite Hunit, Rmult_1_r in H1, H2.
  assert (Hhi : 0 <= hi).
  { destruct std as [|s std']; [|].
    - destruct dir; [|discriminate]. simpl in Hunit. lra.
    - inversion Hstd as [|? ? [Ha Hb] _]; subst. lra. }
  split.
  - apply Rle_trans with (sqrt (lo * lo)); [rewrite sqrt_square by exact Hlo; lra|].
    now apply sqrt_le_1_alt.
  - apply Rle_trans with (sqrt (hi * hi)); [now apply sqrt_le_1_alt|].
    rewrite sqrt_square by exact Hhi. lra.
Qed.

Lemma transformed_std_between_witness :
  2 <= nth 0 (nth 0 (snd (transform_gaussian_by_dirs [[0; 0]] [[2; -3]] [[1; 0]])) []) 0
  <= 3.
Proof.
  apply transformed_std_between.
  - simpl. lia.
  - simpl. lia.
  - unfold norm2. simpl. replace (1 * 1 + (0 * 0 + 0)) with 1 by ring. apply sqrt_1.
  - reflexivity.
  - lra.
  - simpl. constructor; [|constructor; [|constructor]].
    + rewrite Rabs_right; lra.
    + rewrite Rabs_left; lra.
Defined.




End Cdf.

(** ** Directions in single precision *)

Module Float32.

Import SpecFloat.

Local Open Scope Z_scope.

(** The entries of a [th.FloatTensor], the default tensor type: IEEE 754
    binary32 numbers, 24 bits of precision, every operation rounded to
    the nearest of them, ties to even. *)
Definition prec : Z := 24.
Definition emax : Z := 128.
Definition float32 : Set := spec_float.

Definition of_Z (z : Z) : float32 := binary_normalize prec emax z 0 false.

(** [th.norm(row, p=2)]: the square root of the sum of the squares, each
    step rounded. *)
Definition norm2 (row : list float32) : float32 :=
  SFsqrt prec emax
    (fold_left (fun acc v => SFadd prec emax acc (SFmul prec emax v v)) row
               (S754_zero false)).

(** Lines 642-647: [directions / th.norm(directions, p=2, dim=1, keepdim=True)]. *)
Definition norm_and_var_directions (directions : list (list float32))
  : list (list float32) :=
  map (fun row => map (fun v => SFdiv prec emax v (norm2 row)) row) directions.


(** A row that rounding leaves alone: (3, 4) has norm 5 exactly, and the
    row (0.6, 0.8) of rounded quotients has norm 1 in single precision. *)
Example second_normalization_keeps_3_4 :
  norm_and_var_directions (norm_and_var_directions [[of_Z 3; of_Z 4]])
  = norm_and_var_directions [[of_Z 3; of_Z 4]].
Proof. vm_compute. reflexivity. Qed.

End Float32.

(** ** The invertible transform *)

Module Reversible.

Local Open Scope nat_scope.
Local Open Scope outcome_scope.

Section Tensors.

(** The entries of a tensor, with the arithmetic the two stages use. *)
Variable T : Type.
Variable zero : T.
Variable add sub : T -> T -> T.

(** A four-dimensional tensor as nested lists: samples of the batch, their
    channels, the rows of a channel, the entries of a row.  Torch tensors
    are rectangular and (in the versions the source is written for) have no
    dimension of size zero; [shaped] below says so. *)
Definition matrix : Type := list (list T).
Definition tensor : Type := list (list matrix).

(** [x.size()[k]]. *)
Definition size0 (x : tensor) : nat := length x.
Definition size1 (x : tensor) : nat := length (hd [] x).
Definition size2 (x : tensor) : nat := length (hd [] (hd [] x)).
Definition size3 (x : tensor) : nat := length (hd [] (hd [] (hd [] x))).

(** [x[:, lo:hi]]. *)
Definition chans (lo hi : nat) (x : tensor) : tensor :=
  map (fun sample => firstn (hi - lo) (skipn lo sample)) x.

(** [th.chunk(x, 2, dim=1)]: pieces of [ceil(n / 2)] channels, so two
    pieces from two channels on and one piece when there is a single
    channel. *)
Definition chunk2 (x : tensor) : list tensor :=
  let n := size1 x in
  let split_size := (n + 1) / 2 in
  if n <=? split_size then [x]
  else [chans 0 split_size x; chans split_size n x].

(** [l[i::step]]: the entries at [i], [i + step], [i + 2*step], ... *)
Definition every {A : Type} (d : A) (i step : nat) (l : list A) : list A :=
  map (fun k => nth (i + k * step) l d) (seq 0 ((length l - i + step - 1) / step)).

(** [x[:, :, i::sh, j::sw]]. *)
Definition subgrid (i sh j sw : nat) (m : matrix) : matrix :=
  map (every zero j sw) (every [] i sh m).

Definition grid (i sh j sw : nat) (x : tensor) : tensor :=
  map (map (subgrid i sh j sw)) x.

(** [th.cat(ts, dim=1)]: needs a tensor to start from, and tensors that
    agree in every dimension but the second. *)
Fixpoint join_chans (ts : list tensor) (batch : nat) : tensor :=
  match ts with
  | [] => repeat [] batch
  | t :: ts' => map2 (@app matrix) t (join_chans ts' batch)
  end.

Definition cat1 (ts : list tensor) : outcome tensor :=
  match ts with
  | [] => Raises RuntimeError
  | t :: _ =>
      if forallb (fun u => (size0 u =? size0 t) && (size2 u =? size2 t)
                           && (size3 u =? size3 t)) ts
      then Returns (join_chans ts (size0 t))
      else Raises RuntimeError
  end.

(** [th.zeros(b, c, h, w)]. *)
Definition zeros (b c h w : nat) : tensor :=
  repeat (repeat (repeat (repeat zero w) h) c) b.

(** [dst[i::step] = src] on one axis: position [k] of [dst] takes entry
    [(k - i) / step] of [src] when [k] is [i] plus a multiple of [step];
    [put] says how an entry of [src] replaces an entry of [dst]. *)
Definition assign_every {S D : Type} (d : S) (put : S -> D -> D) (i step : nat)
  (src : list S) (dst : list D) : list D :=
  map (fun kd => if (i <=? fst kd) && ((fst kd - i) mod step =? 0)
                 then put (nth ((fst kd - i) / step) src d) (snd kd)
                 else snd kd)
      (combine (seq 0 (length dst)) dst).

Definition assign_subgrid (i sh j sw : nat) (src dst : matrix) : matrix :=
  assign_every [] (assign_every zero (fun v _ => v) j sw) i sh src dst.

(** [dst[:, :, i::sh, j::sw] = src]; the shapes have to agree (what torch
    would broadcast is not modelled). *)
Definition assign_grid (i sh j sw : nat) (dst src : tensor) : outcome tensor :=
  if (size0 src =? size0 dst) && (size1 src =? size1 dst)
     && (size2 src =? (size2 dst - i + sh - 1) / sh)
     && (size3 src =? (size3 dst - j + sw - 1) / sw)
  then Returns (map2 (map2 (assign_subgrid i sh j sw)) src dst)
  else Raises RuntimeError.

(** Entrywise [a + b] and [a - b] on tensors of one shape. *)
Definition same_shape (a b : tensor) : bool :=
  (size0 a =? size0 b) && (size1 a =? size1 b) && (size2 a =? size2 b)
  && (size3 a =? size3 b).

Definition pointwise (op : T -> T -> T) (a b : tensor) : outcome tensor :=
  if same_shape a b then Returns (map2 (map2 (map2 (map2 op))) a b)
  else Raises RuntimeError.

(** The two kinds of stage. *)
Inductive module : Type :=
| ReversibleBlock (F G : tensor -> tensor)
| SubsampleSplitter (stride : nat * nat) (chunk_chans_first : bool).

(** [for i_stride in range(sh): for j_stride in range(sw)]. *)
Definition strides (sh sw : nat) : list (nat * nat) :=
  flat_map (fun i => map (fun j => (i, j)) (seq 0 sw)) (seq 0 sh).

(** [ReversibleBlock.forward], lines 19-26. *)
Definition reversible_forward (F G : tensor -> tensor) (x : tensor) : outcome tensor :=
  let n_chans := size1 x in
  _ <- assert (n_chans mod 2 =? 0) ;;
  let x1 := chans 0 (n_chans / 2) x in
  let x2 := chans (n_chans / 2) n_chans x in
  y1 <- pointwise add (F x1) x2 ;;
  y2 <- pointwise add (G y1) x1 ;;
  cat1 [y1; y2].

(** [SubsampleSplitter.forward], lines 37-53. *)
Definition subsample_forward (stride : nat * nat) (chunk_chans_first : bool)
  (x : tensor) : outcome tensor :=
  let xs := if chunk_chans_first then chunk2 x else [x] in
  let new_x :=
    flat_map (fun one_x =>
                map (fun ij => grid (fst ij) (fst stride) (snd ij) (snd stride) one_x)
                    (strides (fst stride) (snd stride))) xs in
  cat1 new_x.

Definition forward_module (m : module) (x : tensor) : outcome tensor :=
  match m with
  | ReversibleBlock F G => reversible_forward F G x
  | SubsampleSplitter stride chunk_chans_first =>
      subsample_forward stride chunk_chans_first x
  end.

(** A feature model: one stage, or an [nn.Sequential] of stages. *)
Inductive model : Type :=
| Single (m : module)
| Sequential (ms : list module).

Definition children (fm : model) : list module :=
  match fm with
  | Single m => [m]
  | Sequential ms => ms
  end.

Definition forward (fm : model) (x : tensor) : outcome tensor :=
  for_each (fun x m => forward_module m x) (children fm) x.

(** The branch of [invert] for a [ReversibleBlock], lines 61-69. *)
Definition reversible_invert (F G : tensor -> tensor) (features : tensor)
  : outcome tensor :=
  let n_chans := size1 features in
  let y1 := chans 0 (n_chans / 2) features in
  let y2 := chans (n_chans / 2) n_chans features in
  x1 <- pointwise sub y2 (G y1) ;;
  x2 <- pointwise sub y1 (F x1) ;;
  cat1 [x1; x2].

(** Lines 83-100: one piece of the features back onto its grid. *)
Definition unsplit (stride : nat * nat) (one_chan_features : tensor) : outcome tensor :=
  let previous_features :=
    zeros (size0 one_chan_features)
          (size1 one_chan_features / (fst stride * snd stride))
          (size2 one_chan_features * fst stride)
          (size3 one_chan_features * snd stride) in
  let n_chans_before := size1 previous_features in
  '(previous_features, _) <-
     for_each (fun st ij =>
                 let '(previous_features, cur_chan) := st in
                 previous_features <-
                   assign_grid (fst ij) (fst stride) (snd ij) (snd stride)
                     previous_features
                     (chans (cur_chan * n_chans_before)
                            (cur_chan * n_chans_before + n_chans_before)
                            one_chan_features) ;;
                 Returns (previous_features, cur_chan + 1))
              (strides (fst stride) (snd stride)) (previous_features, 0) ;;
  Returns previous_features.

(** The branch of [invert] for a [SubsampleSplitter], lines 75-101. *)
Definition subsample_invert (stride : nat * nat) (chunk_chans_first : bool)
  (features : tensor) : outcome tensor :=
  if fst stride * snd stride =? 0 then Raises ZeroDivisionError
  else
    let n_all_chans_before := size1 features / (fst stride * snd stride) in
    let chan_features :=
      if chunk_chans_first && (1 <? n_all_chans_before) then chunk2 features
      else [features] in
    all_previous_features <- map_outcome (unsplit stride) chan_features ;;
    cat1 all_previous_features.

Definition invert_module (m : module) (features : tensor) : outcome tensor :=
  match m with
  | ReversibleBlock F G => reversible_invert F G features
  | SubsampleSplitter stride chunk_chans_first =>
      subsample_invert stride chunk_chans_first features
  end.

(** [invert(feature_model, features)], lines 56-102. *)
Definition invert (fm : model) (features : tensor) : outcome tensor :=
  for_each (fun features m => invert_module m features) (rev (children fm)) features.

(** *** Shapes *)

Definition matrix_shaped (h w : nat) (m : matrix) : Prop :=
  length m = h /\ Forall (fun row => length row = w) m.

Definition sample_shaped (c h w : nat) (sample : list matrix) : Prop :=
  length sample = c /\ Forall (matrix_shaped h w) sample.

(** A [b x c x h x w] tensor. *)
Definition shaped (b c h w : nat) (x : tensor) : Prop :=
  length x = b /\ Forall (sample_shaped c h w) x.

Lemma shaped_sizes (b c h w : nat) (x : tensor) :
  shaped b c h w x -> 0 < b -> 0 < c -> 0 < h ->
  size0 x = b /\ size1 x = c /\ size2 x = h /\ size3 x = w.
Proof.
  intros [Hb Hx] Hb0 Hc0 Hh0. unfold size0, size1, size2, size3.
  destruct x as [|sample x]; [simpl in Hb; lia|].
  inversion Hx as [|? ? [Hc Hs] _]; subst. cbn [hd].
  destruct sample as [|m sample]; [simpl in Hc0; lia|].
  inversion Hs as [|? ? [Hh Hm] _]; subst. cbn [hd].
  destruct m as [|row m]; [simpl in Hh0; lia|].
  inversion Hm; subst. cbn [hd]. auto.
Qed.

Lemma map2_Forall {A B C : Type} (f : A -> B -> C) (P : A -> Prop) (Q : B -> Prop)
  (R : C -> Prop) (a : list A) (b : list B) :
  (forall x y, P x -> Q y -> R (f x y)) ->
  Forall P a -> Forall Q b -> Forall R (map2 f a b).
Proof.
  intros Hf Ha. revert b. induction Ha as [|x a Hx Ha IH]; intros b Hb; [constructor|].
  destruct Hb as [|y b Hy Hb]; [constructor|]. simpl. constructor; auto.
Qed.

Lemma map2_map_map {A B C D : Type} (f : B -> C -> D) (g : A -> B) (h : A -> C)
  (l : list A) :
  map2 f (map g l) (map h l) = map (fun x => f (g x) (h x)) l.
Proof.
  induction l as [|x l IH]; [reflexivity|]. simpl. now rewrite IH.
Qed.

Lemma map2_app_firstn_skipn {A : Type} (n : nat) (x : list (list A)) :
  map2 (@app A) (map (firstn n) x) (map (skipn n) x) = x.
Proof.
  rewrite map2_map_map. rewrite <- (map_id x) at 2. apply map_ext.
  intros l. apply firstn_skipn.
Qed.

Lemma map2_app_nil {A : Type} (x : list (list A)) :
  map2 (@app A) x (repeat [] (length x)) = x.
Proof.
  induction x as [|l x IH]; [reflexivity|]. simpl. now rewrite app_nil_r, IH.
Qed.

Ltac same_length :=
  first [ assumption
        | congruence
        | etransitivity; [eassumption | symmetry; eassumption] ].

(** *** Slices and concatenation along the channels *)

Lemma chans_shaped (b c h w lo hi : nat) (x : tensor) :
  shaped b c h w x -> lo <= hi <= c -> shaped b (hi - lo) h w (chans lo hi x).
Proof.
  intros [Hb Hx] Hlh. unfold chans. split; [now rewrite length_map|].
  apply Forall_map. eapply Forall_impl; [|exact Hx].
  intros sample [Hc Hs]. split.
  - rewrite length_firstn, length_skipn. lia.
  - apply Forall_forall. intros m Hm. rewrite Forall_forall in Hs. apply Hs.
    rewrite <- (firstn_skipn lo sample). apply in_or_app. right.
    rewrite <- (firstn_skipn (hi - lo) (skipn lo sample)). apply in_or_app. now left.
Qed.

Lemma chans_halves (b c h w n : nat) (x : tensor) :
  shaped b c h w x -> n <= c ->
  map2 (@app matrix) (chans 0 n x) (chans n c x) = x.
Proof.
  intros [Hb Hx] Hn. unfold chans.
  rewrite <- (map2_app_firstn_skipn n x) at 3.
  f_equal.
  - apply map_ext. intros sample. now rewrite Nat.sub_0_r.
  - apply map_ext_Forall. eapply Forall_impl; [|exact Hx].
    intros sample [Hc _]. apply firstn_all2. rewrite length_skipn. lia.
Qed.

Lemma app_shaped (b c1 c2 h w : nat) (y1 y2 : tensor) :
  shaped b c1 h w y1 -> shaped b c2 h w y2 ->
  shaped b (c1 + c2) h w (map2 (@app matrix) y1 y2).
Proof.
  intros [Hb1 H1] [Hb2 H2]. split; [rewrite map2_length; congruence|].
  eapply map2_Forall; [|exact H1|exact H2].
  intros s1 s2 [Hc1 Hs1] [Hc2 Hs2]. split.
  - rewrite length_app. lia.
  - apply Forall_app. now split.
Qed.

Lemma chans_of_app (b c1 c2 h w : nat) (y1 y2 : tensor) :
  shaped b c1 h w y1 -> shaped b c2 h w y2 ->
  chans 0 c1 (map2 (@app matrix) y1 y2) = y1 /\
  chans c1 (c1 + c2) (map2 (@app matrix) y1 y2) = y2.
Proof.
  intros [Hb1 H1] [Hb2 H2]. unfold chans. subst b.
  revert y2 Hb2 H2. induction H1 as [|s1 y1 [Hc1 _] H1 IH]; intros y2 Hb2 H2.
  - destruct y2; [split; reflexivity|discriminate].
  - destruct H2 as [|s2 y2 [Hc2 _] H2]; [discriminate|].
    simpl in Hb2. destruct (IH y2 ltac:(lia) H2) as [E1 E2].
    cbn [map2 map]. rewrite E1, E2. split; f_equal.
    + cbn [skipn]. rewrite Nat.sub_0_r, firstn_app, <- Hc1, firstn_all, Nat.sub_diag.
      cbn [firstn]. apply app_nil_r.
    + rewrite skipn_app, <- Hc1, skipn_all, Nat.sub_diag. cbn [skipn app].
      apply firstn_all2. lia.
Qed.

Lemma cat1_returns (b h w : nat) (ts : list tensor) :
  0 < b -> 0 < h -> ts <> [] ->
  Forall (fun t => exists c, 0 < c /\ shaped b c h w t) ts ->
  cat1 ts = Returns (join_chans ts b).
Proof.
  intros Hb Hh Hne Hts. destruct ts as [|t ts]; [contradiction|].
  unfold cat1.
  assert (Ht : size0 t = b /\ size2 t = h /\ size3 t = w).
  { inversion Hts as [|? ? (c & Hc & Hs) _]; subst.
    destruct (shaped_sizes _ _ _ _ _ Hs Hb Hc Hh) as (? & ? & ? & ?). auto. }
  destruct Ht as (E0 & E2 & E3).
  replace (forallb _ (t :: ts)) with true; [now rewrite E0|].
  symmetry. apply forallb_forall. intros u Hu.
  rewrite Forall_forall in Hts. destruct (Hts u Hu) as (c & Hc & Hs).
  destruct (shaped_sizes _ _ _ _ _ Hs Hb Hc Hh) as (F0 & _ & F2 & F3).
  rewrite E0, E2, E3, F0, F2, F3, !Nat.eqb_refl. reflexivity.
Qed.

Lemma cat1_pair (b c1 c2 h w : nat) (y1 y2 : tensor) :
  0 < b -> 0 < c1 -> 0 < c2 -> 0 < h ->
  shaped b c1 h w y1 -> shaped b c2 h w y2 ->
  cat1 [y1; y2] = Returns (map2 (@app matrix) y1 y2).
Proof.
  intros Hb Hc1 Hc2 Hh H1 H2.
  rewrite (cat1_returns b h w) by
    (auto; try discriminate; repeat constructor; eauto).
  cbn [join_chans]. destruct H2 as [<- _]. now rewrite map2_app_nil.
Qed.

(** *** Entrywise arithmetic *)

Lemma pointwise_returns (op : T -> T -> T) (b c h w : nat) (x y : tensor) :
  0 < b -> 0 < c -> 0 < h ->
  shaped b c h w x -> shaped b c h w y ->
  pointwise op x y = Returns (map2 (map2 (map2 (map2 op))) x y) /\
  shaped b c h w (map2 (map2 (map2 (map2 op))) x y).
Proof.
  intros Hb Hc Hh Hx Hy. split.
  - unfold pointwise, same_shape.
    destruct (shaped_sizes _ _ _ _ _ Hx Hb Hc Hh) as (-> & -> & -> & ->).
    destruct (shaped_sizes _ _ _ _ _ Hy Hb Hc Hh) as (-> & -> & -> & ->).
    now rewrite !Nat.eqb_refl.
  - destruct Hx as [Hbx Hx], Hy as [Hby Hy].
    split; [rewrite map2_length; same_length|].
    eapply map2_Forall; [|exact Hx|exact Hy].
    intros s1 s2 [Hc1 Hs1] [Hc2 Hs2].
    split; [rewrite map2_length; same_length|].
    eapply map2_Forall; [|exact Hs1|exact Hs2].
    intros m1 m2 [Hh1 Hm1] [Hh2 Hm2].
    split; [rewrite map2_length; same_length|].
    eapply map2_Forall; [|exact Hm1|exact Hm2].
    intros r1 r2 Hr1 Hr2. cbn beta in *. rewrite map2_length; same_length.
Qed.

(** The arithmetic is exact: taking [a] off [a + b] leaves [b]. *)
Hypothesis add_sub : forall a b, sub (add a b) a = b.

Lemma map2_cancel {A : Type} (f g : A -> A -> A) (P Q : A -> Prop) (a b : list A) :
  (forall x y, P x -> Q y -> g (f x y) x = y) ->
  length a = length b -> Forall P a -> Forall Q b ->
  map2 g (map2 f a b) a = b.
Proof.
  intros Hfg Hlen Ha. revert b Hlen.
  induction Ha as [|x a Hx Ha IH]; intros [|y b] Hlen Hb; try discriminate;
    [reflexivity|].
  inversion Hb; subst. simpl. rewrite Hfg, IH; auto.
Qed.

Lemma pointwise_add_sub (b c h w : nat) (x y : tensor) :
  shaped b c h w x -> shaped b c h w y ->
  map2 (map2 (map2 (map2 sub))) (map2 (map2 (map2 (map2 add))) x y) x = y.
Proof.
  intros [Hbx Hx] [Hby Hy].
  eapply map2_cancel; [|same_length|exact Hx|exact Hy].
  intros s1 s2 [Hc1 Hs1] [Hc2 Hs2].
  eapply map2_cancel; [|same_length|exact Hs1|exact Hs2].
  intros m1 m2 [Hh1 Hm1] [Hh2 Hm2].
  eapply map2_cancel; [|same_length|exact Hm1|exact Hm2].
  intros r1 r2 Hr1 Hr2. cbn beta in *.
  apply (map2_cancel add sub (fun _ => True) (fun _ => True)).
  - intros. apply add_sub.
  - same_length.
  - apply Forall_forall. auto.
  - apply Forall_forall. auto.
Qed.

(** *** A coupling block and its inverse *)

(** [F] keeps the shape of what it is given. *)
Definition keeps_shape (b c h w : nat) (F : tensor -> tensor) : Prop :=
  forall x, shaped b c h w x -> shaped b c h w (F x).

Lemma reversible_round_trip (F G : tensor -> tensor) (b n h w : nat) (x : tensor) :
  0 < b -> 0 < n -> 0 < h ->
  keeps_shape b n h w F -> keeps_shape b n h w G ->
  shaped b (2 * n) h w x ->
  exists y, reversible_forward F G x = Returns y /\
            shaped b (2 * n) h w y /\
            reversible_invert F G y = Returns x.
Proof.
  intros Hb Hn Hh HF HG Hx.
  destruct (shaped_sizes _ _ _ _ _ Hx Hb ltac:(lia) Hh) as (_ & Ec & _ & _).
  assert (Ehalf : 2 * n / 2 = n) by (rewrite Nat.mul_comm; apply Nat.div_mul; lia).
  assert (H1 : shaped b n h w (chans 0 n x)).
  { replace n with (n - 0) at 1 by lia. apply (chans_shaped b (2 * n)); [exact Hx|lia]. }
  assert (H2 : shaped b n h w (chans n (2 * n) x)).
  { replace n with (2 * n - n) at 1 by lia. apply (chans_shaped b (2 * n)); [exact Hx|lia]. }
  set (x1 := chans 0 n x) in *. set (x2 := chans n (2 * n) x) in *.
  destruct (pointwise_returns add b n h w (F x1) x2 Hb Hn Hh (HF _ H1) H2) as [Ey1 Hy1].
  set (y1 := map2 (map2 (map2 (map2 add))) (F x1) x2) in *.
  destruct (pointwise_returns add b n h w (G y1) x1 Hb Hn Hh (HG _ Hy1) H1) as [Ey2 Hy2].
  set (y2 := map2 (map2 (map2 (map2 add))) (G y1) x1) in *.
  exists (map2 (@app matrix) y1 y2).
  assert (Hy : shaped b (2 * n) h w (map2 (@app matrix) y1 y2)).
  { replace (2 * n) with (n + n) by lia. now apply app_shaped. }
  split; [|split; [exact Hy|]].
  - unfold reversible_forward. rewrite Ec, Ehalf.
    replace (2 * n mod 2 =? 0) with true
      by (symmetry; apply Nat.eqb_eq; rewrite Nat.mul_comm; apply Nat.Div0.mod_mul).
    cbn [assert bind]. fold x1 x2. rewrite Ey1. cbn [bind]. rewrite Ey2. cbn [bind].
    apply (cat1_pair b n n h w); assumption.
  - unfold reversible_invert.
    destruct (shaped_sizes _ _ _ _ _ Hy Hb ltac:(lia) Hh) as (_ & Ec' & _ & _).
    rewrite Ec', Ehalf.
    destruct (chans_of_app b n n h w y1 y2 Hy1 Hy2) as [E1 E2].
    replace (2 * n) with (n + n) by lia. rewrite E1, E2.
    assert (Ex1 : map2 (map2 (map2 (map2 sub))) y2 (G y1) = x1)
      by (apply (pointwise_add_sub b n h w (G y1) x1 (HG _ Hy1) H1)).
    assert (Ex2 : map2 (map2 (map2 (map2 sub))) y1 (F x1) = x2)
      by (apply (pointwise_add_sub b n h w (F x1) x2 (HF _ H1) H2)).
    destruct (pointwise_returns sub b n h w y2 (G y1) Hb Hn Hh Hy2 (HG _ Hy1)) as [Es1 _].
    rewrite Es1. cbn [bind]. rewrite Ex1.
    destruct (pointwise_returns sub b n h w y1 (F x1) Hb Hn Hh Hy1 (HF _ H1)) as [Es2 _].
    rewrite Es2. cbn [bind]. rewrite Ex2.
    rewrite (cat1_pair b n n h w) by assumption.
    f_equal. unfold x1, x2. apply (chans_halves b (2 * n) h w); [exact Hx|lia].
Qed.

(** *** Strided slices of a list *)

Lemma nth_map_default {A B : Type} (f : A -> B) (l : list A) (k : nat) (a : A) (b : B) :
  k < length l -> nth k (map f l) b = f (nth k l a).
Proof.
  intros Hk. rewrite (nth_indep _ b (f a)) by now rewrite length_map.
  apply map_nth.
Qed.

Lemma every_count (i step n : nat) :
  i < step -> (n * step - i + step - 1) / step = n.
Proof.
  intros Hi. destruct n as [|n]; [apply Nat.div_small; lia|].
  symmetry. apply Nat.div_unique with (r := step - 1 - i); nia.
Qed.

Lemma every_length {A : Type} (d : A) (i step n : nat) (l : list A) :
  i < step -> length l = n * step -> length (every d i step l) = n.
Proof.
  intros Hi Hl. unfold every. rewrite length_map, length_seq, Hl.
  now apply every_count.
Qed.

Lemma every_nth {A : Type} (d d' : A) (i step n k : nat) (l : list A) :
  i < step -> length l = n * step -> k < n ->
  nth k (every d i step l) d' = nth (i + k * step) l d.
Proof.
  intros Hi Hl Hk. unfold every. rewrite Hl, every_count by exact Hi.
  rewrite (nth_map_default _ _ _ 0) by now rewrite length_seq.
  now rewrite seq_nth.
Qed.

Lemma assign_every_length {S D : Type} (d : S) (put : S -> D -> D) (i step : nat)
  (src : list S) (dst : list D) :
  length (assign_every d put i step src dst) = length dst.
Proof.
  unfold assign_every. rewrite length_map, length_combine, length_seq. lia.
Qed.

Lemma assign_every_nth {S D : Type} (d : S) (dd : D) (put : S -> D -> D) (i step k : nat)
  (src : list S) (dst : list D) :
  k < length dst ->
  nth k (assign_every d put i step src dst) dd
  = if (i <=? k) && ((k - i) mod step =? 0)
    then put (nth ((k - i) / step) src d) (nth k dst dd)
    else nth k dst dd.
Proof.
  intros Hk. unfold assign_every.
  rewrite (nth_map_default _ _ _ (0, dd))
    by (rewrite length_combine, length_seq; lia).
  rewrite combine_nth by apply length_seq.
  rewrite seq_nth by exact Hk. reflexivity.
Qed.

Lemma assign_every_In {S D : Type} (d : S) (put : S -> D -> D) (i step : nat)
  (src : list S) (dst : list D) (y : D) :
  In y (assign_every d put i step src dst) ->
  In y dst \/ exists s x, In x dst /\ y = put s x.
Proof.
  unfold assign_every. intros Hin. apply in_map_iff in Hin.
  destruct Hin as ([k x] & <- & Hin). apply in_combine_r in Hin. cbn [fst snd].
  destruct ((i <=? k) && ((k - i) mod step =? 0)); [|now left].
  right. eauto.
Qed.

Lemma on_stride (i step k : nat) :
  i < step ->
  (i <=? k) && ((k - i) mod step =? 0) = (k mod step =? i).
Proof.
  intros Hi.
  destruct (Nat.eqb_spec (k mod step) i) as [E|E].
  - pose proof (Nat.div_mod_eq k step) as Hk.
    apply andb_true_intro. split; [apply Nat.leb_le; lia|].
    apply Nat.eqb_eq. replace (k - i) with (k / step * step) by lia.
    apply Nat.Div0.mod_mul.
  - apply andb_false_iff.
    destruct (Nat.leb_spec i k) as [Hle|Hlt]; [right|now left].
    apply Nat.eqb_neq. intros E0. apply E.
    pose proof (Nat.div_mod_eq (k - i) step) as Hk. rewrite E0 in Hk.
    replace k with (i + (k - i) / step * step) by lia.
    rewrite Nat.Div0.mod_add. now apply Nat.mod_small.
Qed.

Lemma back_on_stride (i step k : nat) :
  i < step -> k mod step = i -> i + (k - i) / step * step = k /\ (k - i) / step = k / step.
Proof.
  intros Hi E. pose proof (Nat.div_mod_eq k step) as Hk.
  assert (Eq : (k - i) / step = k / step).
  { replace (k - i) with (k / step * step) by lia. apply Nat.div_mul. lia. }
  rewrite Eq. split; [lia|reflexivity].
Qed.

(** *** Sub-grids of one channel, and putting them back *)

Definition entry (h w : nat) (m : matrix) : T := nth w (nth h m []) zero.

Lemma matrix_ext (H W : nat) (m m' : matrix) :
  matrix_shaped H W m -> matrix_shaped H W m' ->
  (forall h w, h < H -> w < W -> entry h w m = entry h w m') ->
  m = m'.
Proof.
  intros [Hm Hr] [Hm' Hr'] E.
  apply (nth_ext m m' [] []); [congruence|].
  intros h Hh. rewrite Hm in Hh.
  assert (L : length (nth h m []) = W).
  { rewrite Forall_forall in Hr. apply Hr, nth_In. lia. }
  assert (L' : length (nth h m' []) = W).
  { rewrite Forall_forall in Hr'. apply Hr', nth_In. lia. }
  apply (nth_ext _ _ zero zero); [congruence|].
  intros w Hw. apply E; lia.
Qed.

Lemma subgrid_shaped (i sh j sw h w : nat) (m : matrix) :
  i < sh -> j < sw ->
  matrix_shaped (h * sh) (w * sw) m ->
  matrix_shaped h w (subgrid i sh j sw m).
Proof.
  intros Hi Hj [Hm Hr]. unfold subgrid. split.
  - rewrite length_map. now apply every_length.
  - apply Forall_map. apply Forall_forall. intros row Hin.
    apply every_length; [exact Hj|].
    unfold every in Hin. apply in_map_iff in Hin. destruct Hin as (k & <- & Hk).
    rewrite Hm, every_count in Hk by exact Hi. apply in_seq in Hk.
    rewrite Forall_forall in Hr. apply Hr, nth_In. nia.
Qed.

Lemma subgrid_row (i sh j sw h w k : nat) (m : matrix) :
  i < sh -> matrix_shaped (h * sh) (w * sw) m -> k < h ->
  nth k (subgrid i sh j sw m) [] = every zero j sw (nth (i + k * sh) m []).
Proof.
  intros Hi [Hm Hr] Hk. unfold subgrid.
  rewrite (nth_map_default _ _ _ []) by (erewrite every_length; eauto).
  f_equal. now apply (every_nth _ _ _ _ h).
Qed.

Lemma assign_subgrid_shaped (i sh j sw H W : nat) (src dst : matrix) :
  matrix_shaped H W dst -> matrix_shaped H W (assign_subgrid i sh j sw src dst).
Proof.
  intros [Hd Hr]. unfold assign_subgrid. split.
  - now rewrite assign_every_length.
  - apply Forall_forall. intros row Hin. rewrite Forall_forall in Hr.
    apply assign_every_In in Hin.
    destruct Hin as [Hin|(srow & drow & Hin & ->)]; [now apply Hr|].
    rewrite assign_every_length. now apply Hr.
Qed.

Lemma assign_subgrid_entry (i sh j sw h w r c : nat) (m dst : matrix) :
  i < sh -> j < sw ->
  matrix_shaped (h * sh) (w * sw) m ->
  matrix_shaped (h * sh) (w * sw) dst ->
  r < h * sh -> c < w * sw ->
  entry r c (assign_subgrid i sh j sw (subgrid i sh j sw m) dst)
  = if (r mod sh =? i) && (c mod sw =? j) then entry r c m else entry r c dst.
Proof.
  intros Hi Hj Hm Hdst Hr Hc. unfold entry, assign_subgrid.
  destruct Hdst as [Hd Hrows].
  assert (Lr : length (nth r dst []) = w * sw).
  { rewrite Forall_forall in Hrows. apply Hrows, nth_In. lia. }
  rewrite assign_every_nth by lia. rewrite on_stride by exact Hi.
  destruct (Nat.eqb_spec (r mod sh) i) as [Er|Er]; [|reflexivity].
  destruct (back_on_stride i sh r Hi Er) as [Eback Ediv].
  rewrite assign_every_nth by lia. rewrite on_stride by exact Hj.
  destruct (Nat.eqb_spec (c mod sw) j) as [Ec|Ec]; [|reflexivity].
  destruct (back_on_stride j sw c Hj Ec) as [Eback' Ediv']. cbn [andb].
  assert (Hq : (r - i) / sh < h).
  { rewrite Ediv. apply Nat.Div0.div_lt_upper_bound. lia. }
  rewrite (subgrid_row i sh j sw h w) by assumption.
  rewrite Eback.
  assert (Lm : length (nth r m []) = w * sw).
  { destruct Hm as [Hm Hmr]. rewrite Forall_forall in Hmr. apply Hmr, nth_In. lia. }
  rewrite (every_nth zero zero j sw w) by
    (try assumption; rewrite Ediv'; apply Nat.Div0.div_lt_upper_bound; lia).
  now rewrite Eback'.
Qed.

(** The loop of lines 93-99 on one channel [m]: every sub-grid of [m] in
    turn onto [acc]. *)
Definition refill (sh sw : nat) (m : matrix) (ps : list (nat * nat)) (acc : matrix)
  : matrix :=
  fold_left (fun acc ij =>
               assign_subgrid (fst ij) sh (snd ij) sw
                 (subgrid (fst ij) sh (snd ij) sw m) acc) ps acc.

Definition covered (sh sw r c : nat) (ps : list (nat * nat)) : bool :=
  existsb (fun ij => (r mod sh =? fst ij) && (c mod sw =? snd ij)) ps.

Lemma refill_spec (sh sw h w : nat) (m : matrix) (ps : list (nat * nat)) :
  Forall (fun ij => fst ij < sh /\ snd ij < sw) ps ->
  matrix_shaped (h * sh) (w * sw) m ->
  forall acc,
    matrix_shaped (h * sh) (w * sw) acc ->
    matrix_shaped (h * sh) (w * sw) (refill sh sw m ps acc) /\
    forall r c, r < h * sh -> c < w * sw ->
      entry r c (refill sh sw m ps acc)
      = if covered sh sw r c ps then entry r c m else entry r c acc.
Proof.
  intros Hps Hm. induction Hps as [|[i j] ps [Hi Hj] Hps IH]; intros acc Hacc.
  - split; [exact Hacc|reflexivity].
  - cbn [fst snd] in Hi, Hj. unfold refill. cbn [fold_left fst snd].
    pose proof (assign_subgrid_shaped i sh j sw _ _ (subgrid i sh j sw m) acc Hacc) as Hs.
    destruct (IH _ Hs) as [Hshape Hentry]. split; [exact Hshape|].
    intros r c Hr Hc. unfold refill in Hentry. rewrite Hentry by assumption.
    unfold covered. cbn [existsb fst snd]. fold (covered sh sw r c ps).
    rewrite (assign_subgrid_entry i sh j sw h w) by assumption.
    destruct (covered sh sw r c ps); [now rewrite orb_true_r|].
    rewrite orb_false_r. reflexivity.
Qed.

Lemma strides_bounds (sh sw : nat) :
  Forall (fun ij => fst ij < sh /\ snd ij < sw) (strides sh sw).
Proof.
  apply Forall_forall. intros [i j] Hin. unfold strides in Hin.
  apply in_flat_map in Hin. destruct Hin as (i' & Hi & Hin).
  apply in_map_iff in Hin. destruct Hin as (j' & E & Hj). injection E as <- <-.
  apply in_seq in Hi. apply in_seq in Hj. cbn [fst snd]. lia.
Qed.

Lemma strides_cover (sh sw r c : nat) :
  0 < sh -> 0 < sw -> covered sh sw r c (strides sh sw) = true.
Proof.
  intros Hsh Hsw. unfold covered. apply existsb_exists.
  exists (r mod sh, c mod sw). cbn [fst snd]. rewrite !Nat.eqb_refl. split; [|reflexivity].
  unfold strides. apply in_flat_map. exists (r mod sh). split.
  - apply in_seq. pose proof (Nat.mod_upper_bound r sh). lia.
  - apply in_map. apply in_seq. pose proof (Nat.mod_upper_bound c sw). lia.
Qed.

Lemma zeros_matrix_shaped (H W : nat) : matrix_shaped H W (repeat (repeat zero W) H).
Proof.
  split; [apply repeat_length|]. apply Forall_forall. intros row Hin.
  apply repeat_spec in Hin. subst. apply repeat_length.
Qed.

Lemma refill_all (sh sw h w : nat) (m : matrix) :
  0 < sh -> 0 < sw ->
  matrix_shaped (h * sh) (w * sw) m ->
  refill sh sw m (strides sh sw) (repeat (repeat zero (w * sw)) (h * sh)) = m.
Proof.
  intros Hsh Hsw Hm.
  destruct (refill_spec sh sw h w m (strides sh sw) (strides_bounds sh sw) Hm _
              (zeros_matrix_shaped (h * sh) (w * sw))) as [Hshape Hentry].
  apply (matrix_ext (h * sh) (w * sw)); [exact Hshape|exact Hm|].
  intros r c Hr Hc. rewrite Hentry by assumption.
  now rewrite strides_cover.
Qed.

(** *** The sub-grids of a tensor, stacked along the channels *)

Definition pieces (sh sw : nat) (one_x : tensor) : list tensor :=
  map (fun ij => grid (fst ij) sh (snd ij) sw one_x) (strides sh sw).

Lemma strides_length (sh sw : nat) : length (strides sh sw) = sh * sw.
Proof.
  unfold strides. generalize 0 at 2. induction sh as [|sh IH]; intros k; [reflexivity|].
  cbn [seq flat_map]. rewrite length_app, length_map, length_seq, IH. lia.
Qed.

Lemma grid_shaped (i sh j sw b c h w : nat) (x : tensor) :
  i < sh -> j < sw ->
  shaped b c (h * sh) (w * sw) x -> shaped b c h w (grid i sh j sw x).
Proof.
  intros Hi Hj [Hb Hx]. unfold grid. split; [now rewrite length_map|].
  apply Forall_map. eapply Forall_impl; [|exact Hx].
  intros sample [Hc Hs]. split; [now rewrite length_map|].
  apply Forall_map. eapply Forall_impl; [|exact Hs].
  intros m. now apply subgrid_shaped.
Qed.

Lemma pieces_shaped (sh sw b c h w : nat) (x : tensor) :
  shaped b c (h * sh) (w * sw) x ->
  Forall (shaped b c h w) (pieces sh sw x).
Proof.
  intros Hx. unfold pieces. apply Forall_map.
  eapply Forall_impl; [|apply strides_bounds].
  intros [i j] [Hi Hj]. now apply grid_shaped.
Qed.

Lemma join_chans_length (ts : list tensor) (b : nat) :
  Forall (fun t => length t = b) ts -> length (join_chans ts b) = b.
Proof.
  induction 1 as [|t ts Ht Hts IH]; cbn [join_chans]; [apply repeat_length|].
  rewrite map2_length; congruence.
Qed.

Lemma join_chans_shaped (b n h w : nat) (ts : list tensor) :
  Forall (shaped b n h w) ts -> shaped b (length ts * n) h w (join_chans ts b).
Proof.
  induction 1 as [|t ts Ht Hts IH]; cbn [join_chans length].
  - split; [apply repeat_length|]. apply Forall_forall. intros sample Hin.
    apply repeat_spec in Hin. subst. split; [reflexivity|constructor].
  - replace (S (length ts) * n) with (n + length ts * n) by lia.
    now apply app_shaped.
Qed.

Lemma map2_app_assoc {A : Type} (x y z : list (list A)) :
  map2 (@app A) x (map2 (@app A) y z) = map2 (@app A) (map2 (@app A) x y) z.
Proof.
  revert y z. induction x as [|a x IH]; intros [|b y] [|c z]; try reflexivity.
  simpl. now rewrite app_assoc, IH.
Qed.

Lemma map2_nil_app {A : Type} (x : list (list A)) :
  map2 (@app A) (repeat [] (length x)) x = x.
Proof.
  induction x as [|l x IH]; [reflexivity|]. simpl. now rewrite IH.
Qed.

Lemma join_chans_app (b : nat) (l1 l2 : list tensor) :
  Forall (fun t => length t = b) l2 ->
  join_chans (l1 ++ l2) b = map2 (@app matrix) (join_chans l1 b) (join_chans l2 b).
Proof.
  intros H2. induction l1 as [|t l1 IH]; cbn [app join_chans].
  - rewrite <- (join_chans_length l2 b H2) at 2. now rewrite map2_nil_app.
  - now rewrite IH, map2_app_assoc.
Qed.

Lemma chans_past (c1 lo hi : nat) (t u : tensor) :
  Forall (fun sample => length sample = c1) t ->
  chans (c1 + lo) (c1 + hi) (map2 (@app matrix) t u) = chans lo hi (map2 (fun _ s => s) t u).
Proof.
  intros Ht. unfold chans. revert u.
  induction Ht as [|s t Hs Ht IH]; intros [|s' u]; try reflexivity.
  cbn [map2 map]. rewrite IH. f_equal.
  rewrite skipn_app, skipn_all2 by lia. cbn [app].
  replace (c1 + lo - length s) with lo by lia. f_equal. lia.
Qed.

Lemma map2_snd_same_length {A B : Type} (t : list A) (u : list B) :
  length t = length u -> map2 (fun _ s => s) t u = u.
Proof.
  revert u. induction t as [|a t IH]; intros [|b u] H; try discriminate;
    [reflexivity|]. simpl. f_equal. apply IH. now injection H.
Qed.

Lemma chans_join (b n h w : nat) (ts : list tensor) :
  Forall (shaped b n h w) ts ->
  forall k, k < length ts ->
    chans (k * n) (k * n + n) (join_chans ts b) = nth k ts [].
Proof.
  induction 1 as [|t ts Ht Hts IH]; intros k Hk; [simpl in Hk; lia|].
  cbn [join_chans]. pose proof (join_chans_shaped b n h w ts Hts) as HJ.
  destruct k as [|k].
  - cbn [nth]. replace (0 * n + n) with n by lia. cbn [Nat.mul].
    now destruct (chans_of_app b n _ h w t _ Ht HJ) as [E _].
  - cbn [nth]. replace (S k * n) with (n + k * n) by lia.
    replace (n + k * n + n) with (n + (k * n + n)) by lia.
    rewrite chans_past.
    + rewrite map2_snd_same_length; [apply IH; simpl in Hk; lia|].
      destruct Ht as [-> _]. now destruct HJ as [-> _].
    + destruct Ht as [_ Ht]. eapply Forall_impl; [|exact Ht]. now intros s [Hc _].
Qed.

Lemma zeros_as_map (b n H W h w : nat) (one : tensor) :
  shaped b n h w one ->
  zeros b n H W = map (map (fun _ => repeat (repeat zero W) H)) one.
Proof.
  intros [Hb Hx]. unfold zeros. subst b.
  induction Hx as [|sample one [Hc _] Hx IH]; [reflexivity|].
  cbn [length repeat map]. rewrite IH. f_equal.
  subst n. clear. induction sample as [|m sample IH]; [reflexivity|].
  cbn [length repeat map]. now rewrite IH.
Qed.

(** *** One piece of the features back onto its grid *)

Lemma zeros_shaped (b c H W : nat) : shaped b c H W (zeros b c H W).
Proof.
  unfold zeros. split; [apply repeat_length|].
  apply Forall_forall. intros sample Hs. apply repeat_spec in Hs. subst.
  split; [apply repeat_length|].
  apply Forall_forall. intros m Hm. apply repeat_spec in Hm. subst.
  apply zeros_matrix_shaped.
Qed.

Lemma assign_grid_returns (i sh j sw b n h w : nat) (dst src : tensor) :
  i < sh -> j < sw -> 0 < b -> 0 < n -> 0 < h ->
  shaped b n (h * sh) (w * sw) dst -> shaped b n h w src ->
  assign_grid i sh j sw dst src
  = Returns (map2 (map2 (assign_subgrid i sh j sw)) src dst).
Proof.
  intros Hi Hj Hb Hn Hh Hdst Hsrc. unfold assign_grid.
  destruct (shaped_sizes _ _ _ _ _ Hsrc Hb Hn Hh) as (-> & -> & -> & ->).
  destruct (shaped_sizes _ _ _ _ _ Hdst Hb Hn ltac:(nia)) as (-> & -> & -> & ->).
  rewrite !every_count by assumption. now rewrite !Nat.eqb_refl.
Qed.

Lemma refilled_shaped (sh sw b n h w : nat) (one : tensor) (ps : list (nat * nat)) :
  Forall (fun ij => fst ij < sh /\ snd ij < sw) ps ->
  shaped b n (h * sh) (w * sw) one ->
  shaped b n (h * sh) (w * sw)
    (map (map (fun m => refill sh sw m ps (repeat (repeat zero (w * sw)) (h * sh)))) one).
Proof.
  intros Hps [Hb Hx]. split; [now rewrite length_map|].
  apply Forall_map. eapply Forall_impl; [|exact Hx].
  intros sample [Hc Hs]. split; [now rewrite length_map|].
  apply Forall_map. eapply Forall_impl; [|exact Hs].
  intros m Hm.
  now destruct (refill_spec sh sw h w m ps Hps Hm _ (zeros_matrix_shaped _ _)).
Qed.

Lemma unsplit_loop (sh sw b n h w : nat) (one : tensor) :
  0 < b -> 0 < n -> 0 < h ->
  shaped b n (h * sh) (w * sw) one ->
  forall todo done,
    strides sh sw = done ++ todo ->
    for_each
      (fun st ij =>
         let '(previous_features, cur_chan) := st in
         previous_features <-
           assign_grid (fst ij) sh (snd ij) sw previous_features
             (chans (cur_chan * n) (cur_chan * n + n)
                    (join_chans (pieces sh sw one) b)) ;;
         Returns (previous_features, cur_chan + 1))
      todo
      (map (map (fun m => refill sh sw m done (repeat (repeat zero (w * sw)) (h * sh)))) one,
       length done)
    = Returns
        (map (map (fun m => refill sh sw m (done ++ todo)
                              (repeat (repeat zero (w * sw)) (h * sh)))) one,
         length done + length todo).
Proof.
  intros Hb Hn Hh Hone.
  induction todo as [|[i j] todo IH]; intros done Hsplit.
  - cbn [for_each length]. now rewrite app_nil_r, Nat.add_0_r.
  - cbn [for_each fst snd].
    pose proof (strides_bounds sh sw) as Hbounds. rewrite Hsplit in Hbounds.
    apply Forall_app in Hbounds. destruct Hbounds as [Hdone Htodo].
    pose proof (Forall_inv Htodo) as [Hi Hj]. cbn [fst snd] in Hi, Hj.
    rewrite (chans_join b n h w) by
      (try (apply pieces_shaped; exact Hone);
       unfold pieces; rewrite length_map, Hsplit, length_app; simpl; lia).
    assert (Epiece : nth (length done) (pieces sh sw one) [] = grid i sh j sw one).
    { unfold pieces. rewrite Hsplit, map_app. cbn [map].
      rewrite app_nth2 by (rewrite length_map; lia).
      rewrite length_map, Nat.sub_diag. reflexivity. }
    rewrite Epiece.
    rewrite (assign_grid_returns i sh j sw b n h w); try assumption;
      [|now apply refilled_shaped|now apply grid_shaped].
    cbn [bind]. unfold grid at 1.
    rewrite map2_map_map.
    assert (Estep :
      map (fun sample =>
             map2 (assign_subgrid i sh j sw) (map (subgrid i sh j sw) sample)
               (map (fun m => refill sh sw m done
                                (repeat (repeat zero (w * sw)) (h * sh))) sample)) one
      = map (map (fun m => refill sh sw m (done ++ [(i, j)])
                             (repeat (repeat zero (w * sw)) (h * sh)))) one).
    { apply map_ext. intros sample. rewrite map2_map_map. apply map_ext.
      intros m. unfold refill. now rewrite fold_left_app. }
    rewrite Estep.
    replace (length done + 1) with (length (done ++ [(i, j)]))
      by (rewrite length_app; reflexivity).
    etransitivity; [apply (IH (done ++ [(i, j)])); now rewrite <- app_assoc|].
    rewrite <- app_assoc. cbn [app]. f_equal. f_equal.
    rewrite length_app. simpl. lia.
Qed.

Lemma unsplit_pieces (sh sw b n h w : nat) (one : tensor) :
  0 < b -> 0 < n -> 0 < h -> 0 < sh -> 0 < sw ->
  shaped b n (h * sh) (w * sw) one ->
  unsplit (sh, sw) (join_chans (pieces sh sw one) b) = Returns one.
Proof.
  intros Hb Hn Hh Hsh Hsw Hone.
  pose proof (join_chans_shaped b n h w _ (pieces_shaped sh sw b n h w one Hone)) as HP.
  unfold pieces in HP at 1. rewrite length_map, strides_length in HP.
  destruct (shaped_sizes _ _ _ _ _ HP Hb ltac:(nia) Hh) as (E0 & E1 & E2 & E3).
  unfold unsplit. cbn [fst snd]. rewrite E0, E1, E2, E3.
  rewrite (Nat.mul_comm (sh * sw) n), Nat.div_mul by nia.
  destruct (shaped_sizes _ _ _ _ _ (zeros_shaped b n (h * sh) (w * sw)) Hb Hn ltac:(nia))
    as (_ & -> & _ & _).
  rewrite (zeros_as_map b n (h * sh) (w * sw) _ _ one Hone).
  pose proof (unsplit_loop sh sw b n h w one Hb Hn Hh Hone (strides sh sw) [] eq_refl) as L.
  cbn [app length Nat.add] in L. unfold refill at 1 in L. cbn [fold_left] in L.
  match goal with
  | |- bind ?loop _ = _ =>
      assert (E : loop = Returns
                (map (map (fun m => refill sh sw m (strides sh sw)
                                      (repeat (repeat zero (w * sw)) (h * sh)))) one,
                 length (strides sh sw))) by exact L;
      rewrite E
  end.
  cbn [bind]. f_equal.
  rewrite <- (map_id one) at 2. apply map_ext_Forall.
  destruct Hone as [_ Hx]. eapply Forall_impl; [|exact Hx].
  intros sample [_ Hs]. rewrite <- (map_id sample) at 2. apply map_ext_Forall.
  eapply Forall_impl; [|exact Hs]. intros m Hm. now apply refill_all.
Qed.

(** *** A splitter and its inverse *)

Lemma cat1_pieces (sh sw b c h w : nat) (x : tensor) :
  0 < b -> 0 < c -> 0 < h -> 0 < sh -> 0 < sw ->
  shaped b c (h * sh) (w * sw) x ->
  cat1 (pieces sh sw x) = Returns (join_chans (pieces sh sw x) b) /\
  shaped b (sh * sw * c) h w (join_chans (pieces sh sw x) b).
Proof.
  intros Hb Hc Hh Hsh Hsw Hx.
  pose proof (pieces_shaped sh sw b c h w x Hx) as Hp.
  pose proof (join_chans_shaped b c h w _ Hp) as HJ.
  unfold pieces in HJ at 1. rewrite length_map, strides_length in HJ.
  split; [|exact HJ].
  apply (cat1_returns b h w); try assumption.
  - intros E. apply (f_equal (@length _)) in E. unfold pieces in E.
    rewrite length_map, strides_length in E. simpl in E. nia.
  - eapply Forall_impl; [|exact Hp]. intros t Ht. exists c. now split.
Qed.

Lemma cat1_single (b c h w : nat) (x : tensor) :
  0 < b -> 0 < c -> 0 < h -> shaped b c h w x -> cat1 [x] = Returns x.
Proof.
  intros Hb Hc Hh Hx.
  rewrite (cat1_returns b h w) by
    (auto; try discriminate; repeat constructor; eauto).
  cbn [join_chans]. destruct Hx as [<- _]. now rewrite map2_app_nil.
Qed.

Lemma single_stream_round_trip (sh sw b c h w : nat) (chunk : bool) (x : tensor) :
  0 < b -> 0 < c -> 0 < h -> 0 < sh -> 0 < sw ->
  shaped b c (h * sh) (w * sw) x ->
  chunk = false \/ c = 1 ->
  exists y, subsample_forward (sh, sw) chunk x = Returns y /\
            shaped b (sh * sw * c) h w y /\
            subsample_invert (sh, sw) chunk y = Returns x.
Proof.
  intros Hb Hc Hh Hsh Hsw Hx Hone.
  destruct (cat1_pieces sh sw b c h w x Hb Hc Hh Hsh Hsw Hx) as [Ecat Hy].
  destruct (shaped_sizes _ _ _ _ _ Hx Hb Hc ltac:(nia)) as (_ & Ec & _ & _).
  exists (join_chans (pieces sh sw x) b). split; [|split; [exact Hy|]].
  - unfold subsample_forward. cbn [fst snd].
    assert (Exs : (if chunk then chunk2 x else [x]) = [x]).
    { destruct Hone as [->| ->]; [reflexivity|]. destruct chunk; [|reflexivity].
      unfold chunk2. rewrite Ec. reflexivity. }
    rewrite Exs. cbn [flat_map]. rewrite app_nil_r. exact Ecat.
  - unfold subsample_invert. cbn [fst snd].
    replace (sh * sw =? 0) with false by (symmetry; apply Nat.eqb_neq; nia).
    destruct (shaped_sizes _ _ _ _ _ Hy Hb ltac:(nia) Hh) as (_ & Ey & _ & _).
    rewrite Ey, (Nat.mul_comm (sh * sw) c), Nat.div_mul by nia.
    assert (Echunk : chunk && (1 <? c) = false).
    { destruct Hone as [->| ->]; [reflexivity|]. apply andb_false_r. }
    rewrite Echunk. cbn [map_outcome].
    rewrite (unsplit_pieces sh sw b c h w) by assumption.
    cbn [bind]. now apply (cat1_single b c (h * sh) (w * sw)); try nia.
Qed.

Lemma half_of_odd (n : nat) : (2 * n + 1) / 2 = n.
Proof. symmetry. apply Nat.div_unique with (r := 1); lia. Qed.

Lemma chunk2_even (b n h w : nat) (x : tensor) :
  0 < b -> 0 < n -> 0 < h ->
  shaped b (2 * n) h w x ->
  chunk2 x = [chans 0 n x; chans n (2 * n) x].
Proof.
  intros Hb Hn Hh Hx. unfold chunk2.
  destruct (shaped_sizes _ _ _ _ _ Hx Hb ltac:(lia) Hh) as (_ & -> & _ & _).
  rewrite half_of_odd.
  destruct (Nat.leb_spec (2 * n) n); [lia|reflexivity].
Qed.

Lemma two_stream_round_trip (sh sw b n h w : nat) (x : tensor) :
  0 < b -> 0 < n -> 0 < h -> 0 < sh -> 0 < sw ->
  shaped b (2 * n) (h * sh) (w * sw) x ->
  exists y, subsample_forward (sh, sw) true x = Returns y /\
            shaped b (sh * sw * (2 * n)) h w y /\
            subsample_invert (sh, sw) true y = Returns x.
Proof.
  intros Hb Hn Hh Hsh Hsw Hx.
  assert (HA : shaped b n (h * sh) (w * sw) (chans 0 n x)).
  { replace n with (n - 0) at 1 by lia. apply (chans_shaped b (2 * n)); [exact Hx|lia]. }
  assert (HB : shaped b n (h * sh) (w * sw) (chans n (2 * n) x)).
  { replace n with (2 * n - n) at 1 by lia. apply (chans_shaped b (2 * n)); [exact Hx|lia]. }
  set (A := chans 0 n x) in *. set (B := chans n (2 * n) x) in *.
  destruct (cat1_pieces sh sw b n h w A Hb Hn Hh Hsh Hsw HA) as [_ HJA].
  destruct (cat1_pieces sh sw b n h w B Hb Hn Hh Hsh Hsw HB) as [_ HJB].
  set (JA := join_chans (pieces sh sw A) b) in *.
  set (JB := join_chans (pieces sh sw B) b) in *.
  assert (Hy : shaped b (sh * sw * (2 * n)) h w (map2 (@app matrix) JA JB)).
  { replace (sh * sw * (2 * n)) with (sh * sw * n + sh * sw * n) by lia.
    now apply app_shaped. }
  assert (Ejoin : join_chans (pieces sh sw A ++ pieces sh sw B) b
                  = map2 (@app matrix) JA JB).
  { apply join_chans_app.
    eapply Forall_impl; [|apply (pieces_shaped sh sw b n h w B HB)].
    now intros t [Ht _]. }
  exists (map2 (@app matrix) JA JB). split; [|split; [exact Hy|]].
  - unfold subsample_forward. cbn [fst snd].
    rewrite (chunk2_even b n (h * sh) (w * sw)) by (try assumption; nia).
    cbn [flat_map]. rewrite app_nil_r. fold A B. fold (pieces sh sw A) (pieces sh sw B).
    rewrite (cat1_returns b h w); try assumption.
    + now rewrite Ejoin.
    + intros E. apply (f_equal (@length _)) in E. unfold pieces in E.
      rewrite length_app, !length_map, strides_length in E. simpl in E. nia.
    + apply Forall_app. split.
      * eapply Forall_impl; [|apply (pieces_shaped sh sw b n h w A HA)].
        intros t Ht. exists n. now split.
      * eapply Forall_impl; [|apply (pieces_shaped sh sw b n h w B HB)].
        intros t Ht. exists n. now split.
  - unfold subsample_invert. cbn [fst snd].
    replace (sh * sw =? 0) with false by (symmetry; apply Nat.eqb_neq; nia).
    destruct (shaped_sizes _ _ _ _ _ Hy Hb ltac:(nia) Hh) as (_ & Ey & _ & _).
    rewrite Ey, (Nat.mul_comm (sh * sw) (2 * n)), Nat.div_mul by nia.
    replace (1 <? 2 * n) with true by (symmetry; apply Nat.ltb_lt; lia).
    cbn [andb].
    assert (Hy' : shaped b (2 * (sh * sw * n)) h w (map2 (@app matrix) JA JB)).
    { replace (2 * (sh * sw * n)) with (sh * sw * (2 * n)) by lia. exact Hy. }
    rewrite (chunk2_even b (sh * sw * n) h w) by (try assumption; nia).
    destruct (chans_of_app b (sh * sw * n) (sh * sw * n) h w JA JB HJA HJB) as [E1 E2].
    replace (2 * (sh * sw * n)) with (sh * sw * n + sh * sw * n) by lia.
    rewrite E1, E2. cbn [map_outcome]. unfold JA, JB.
    rewrite !(unsplit_pieces sh sw b n h w) by assumption.
    cbn [bind].
    rewrite (cat1_pair b n n (h * sh) (w * sw)) by (try assumption; nia).
    f_equal. unfold A, B. apply (chans_halves b (2 * n) (h * sh) (w * sw)); [exact Hx|lia].
Qed.

(** *** Stages in sequence *)

(** The stages fit a [b x c x h x w] input: a coupling block meets an even
    number of channels and sub-transforms that keep the shape of a half;
    a splitter meets spatial sizes that its strides divide and, when it
    chunks the channels first, a single channel or an even number of
    them. *)
Fixpoint fits (ms : list module) (b c h w : nat) : Prop :=
  match ms with
  | [] => True
  | ReversibleBlock F G :: ms' =>
      Nat.even c = true /\
      keeps_shape b (c / 2) h w F /\ keeps_shape b (c / 2) h w G /\
      fits ms' b c h w
  | SubsampleSplitter stride chunk_chans_first :: ms' =>
      0 < fst stride /\ 0 < snd stride /\
      h mod fst stride = 0 /\ w mod snd stride = 0 /\
      (chunk_chans_first = true -> c = 1 \/ Nat.even c = true) /\
      fits ms' b (fst stride * snd stride * c) (h / fst stride) (w / snd stride)
  end.

Lemma for_each_app {A S : Type} (body : S -> A -> outcome S) (l1 l2 : list A) (s : S) :
  for_each body (l1 ++ l2) s = bind (for_each body l1 s) (for_each body l2).
Proof.
  revert s. induction l1 as [|x l1 IH]; intros s; [reflexivity|].
  cbn [app for_each]. destruct (body s x); [apply IH|reflexivity].
Qed.

Lemma even_double (c : nat) : Nat.even c = true -> c = 2 * (c / 2).
Proof.
  intros H. apply Nat.even_spec in H. destruct H as [m ->].
  now rewrite Nat.mul_comm, Nat.div_mul, Nat.mul_comm.
Qed.

Ltac conjuncts :=
  repeat match goal with |- _ /\ _ => split end.

Lemma module_round_trip (m : module) (ms : list module) (b c h w : nat) (x : tensor) :
  0 < b -> 0 < c -> 0 < h ->
  shaped b c h w x -> fits (m :: ms) b c h w ->
  exists c' h' w' y,
    0 < c' /\ 0 < h' /\ c' * h' * w' = c * h * w /\
    forward_module m x = Returns y /\ shaped b c' h' w' y /\
    fits ms b c' h' w' /\
    invert_module m y = Returns x.
Proof.
  intros Hb Hc Hh Hx Hfit. destruct m as [F G|[sh sw] chunk]; cbn [fits fst snd] in Hfit.
  - destruct Hfit as (Heven & HF & HG & Hrest).
    pose proof (even_double c Heven) as Ec. set (n := c / 2) in *.
    rewrite Ec in Hx.
    destruct (reversible_round_trip F G b n h w x Hb ltac:(lia) Hh HF HG Hx)
      as (y & Ef & Hy & Ei).
    assert (Hy' : shaped b c h w y) by (rewrite Ec; exact Hy).
    exists c, h, w, y. conjuncts; (assumption || reflexivity).
  - destruct Hfit as (Hsh & Hsw & Hdh & Hdw & Hchunk & Hrest).
    assert (Eh : h = h / sh * sh).
    { pose proof (Nat.div_mod_eq h sh). lia. }
    assert (Ew : w = w / sw * sw).
    { pose proof (Nat.div_mod_eq w sw). lia. }
    assert (Hh' : 0 < h / sh) by nia.
    assert (Esize : sh * sw * c * (h / sh) * (w / sw) = c * h * w).
    { transitivity (c * (h / sh * sh) * (w / sw * sw)); [ring|].
      now rewrite <- Eh, <- Ew. }
    rewrite Eh, Ew in Hx.
    assert (Hcases : (chunk = false \/ c = 1) \/ (chunk = true /\ Nat.even c = true /\ c <> 1)).
    { destruct chunk; [|now left; left].
      destruct (Hchunk eq_refl) as [->|He]; [now left; right|].
      destruct (Nat.eq_dec c 1) as [->|Hne]; [now left; right|now right]. }
    destruct Hcases as [Hone|(-> & Heven & Hne)].
    + destruct (single_stream_round_trip sh sw b c (h / sh) (w / sw) chunk x
                  Hb Hc Hh' Hsh Hsw Hx Hone) as (y & Ef & Hy & Ei).
      exists (sh * sw * c), (h / sh), (w / sw), y.
      conjuncts; try assumption; nia.
    + pose proof (even_double c Heven) as Ec. set (n := c / 2) in *.
      rewrite Ec in Hx.
      destruct (two_stream_round_trip sh sw b n (h / sh) (w / sw) x
                  Hb ltac:(lia) Hh' Hsh Hsw Hx) as (y & Ef & Hy & Ei).
      rewrite <- Ec in Hy.
      exists (sh * sw * c), (h / sh), (w / sw), y.
      conjuncts; try assumption; nia.
Qed.

Lemma stages_round_trip (ms : list module) :
  forall (b c h w : nat) (x : tensor),
    0 < b -> 0 < c -> 0 < h ->
    shaped b c h w x -> fits ms b c h w ->
    exists c' h' w' y,
      c' * h' * w' = c * h * w /\ shaped b c' h' w' y /\
      for_each (fun x m => forward_module m x) ms x = Returns y /\
      for_each (fun features m => invert_module m features) (rev ms) y = Returns x.
Proof.
  induction ms as [|m ms IH]; intros b c h w x Hb Hc Hh Hx Hfit.
  - exists c, h, w, x. conjuncts; (assumption || reflexivity).
  - destruct (module_round_trip m ms b c h w x Hb Hc Hh Hx Hfit)
      as (c1 & h1 & w1 & y1 & Hc1 & Hh1 & E1 & Ef & Hy1 & Hfit' & Ei).
    destruct (IH b c1 h1 w1 y1 Hb Hc1 Hh1 Hy1 Hfit')
      as (c' & h' & w' & y & E' & Hy & Efs & Eis).
    exists c', h', w', y. conjuncts.
    + now rewrite E'.
    + exact Hy.
    + cbn [for_each]. rewrite Ef. exact Efs.
    + cbn [rev]. rewrite for_each_app, Eis. cbn [bind for_each]. now rewrite Ei.
Qed.

(** X14. The round trip, for the inputs on which [invert] follows
    [forward]: on a model whose stages fit the input in the sense of
    [fits] (in particular, every splitter that chunks the channels meets
    one channel or an even number of them), [forward] returns, and
    [invert] returns the input from what [forward] returned. *)
Lemma round_trip (fm : model) (b c h w : nat) (x : tensor) :
  0 < b -> 0 < c -> 0 < h ->
  shaped b c h w x -> fits (children fm) b c h w ->
  exists y, forward fm x = Returns y /\ invert fm y = Returns x.
Proof.
  intros Hb Hc Hh Hx Hfit. unfold forward, invert.
  destruct (stages_round_trip (children fm) b c h w x Hb Hc Hh Hx Hfit)
    as (_ & _ & _ & y & _ & _ & Ef & Ei).
  exists y. split; assumption.
Qed.

(** X15. The stages only move entries around: what [forward] returns has
    the batch size of the input and as many entries per sample, the
    channels times the height times the width. *)
Theorem forward_keeps_entries (fm : model) (b c h w : nat) (x : tensor) :
  0 < b -> 0 < c -> 0 < h ->
  shaped b c h w x -> fits (children fm) b c h w ->
  exists c' h' w' y,
    forward fm x = Returns y /\ shaped b c' h' w' y /\ c' * h' * w' = c * h * w.
Proof.
  intros Hb Hc Hh Hx Hfit. unfold forward.
  destruct (stages_round_trip (children fm) b c h w x Hb Hc Hh Hx Hfit)
    as (c' & h' & w' & y & E & Hy & Ef & _).
  exists c', h', w', y. conjuncts; assumption.
Qed.

(** A sub-transform that works entry by entry keeps the shape. *)
Lemma entrywise_keeps_shape (f : T -> T) (b c h w : nat) :
  keeps_shape b c h w (map (map (map (map f)))).
Proof.
  intros x [Hb Hx]. split; [now rewrite length_map|].
  apply Forall_map. eapply Forall_impl; [|exact Hx].
  intros sample [Hc Hs]. split; [now rewrite length_map|].
  apply Forall_map. eapply Forall_impl; [|exact Hs].
  intros m [Hh Hm]. split; [now rewrite length_map|].
  apply Forall_map. eapply Forall_impl; [|exact Hm].
  intros row Hrow. cbn beta. now rewrite length_map.
Qed.

(** *** Strides that do not divide the spatial sizes *)

Lemma grid_sizes (i sh j sw b c h w : nat) (x : tensor) :
  0 < b -> 0 < c -> 0 < sh -> i < h -> shaped b c h w x ->
  size2 (grid i sh j sw x) = (h - i + sh - 1) / sh /\
  size3 (grid i sh j sw x) = (w - j + sw - 1) / sw.
Proof.
  intros Hb Hc Hsh Hi [Hbx Hx]. unfold size2, size3, grid.
  destruct x as [|sample x]; [simpl in Hbx; lia|].
  destruct (Forall_inv Hx) as [Hcs Hs].
  destruct sample as [|m sample]; [simpl in Hcs; lia|].
  destruct (Forall_inv Hs) as [Hh Hm].
  cbn [map hd]. unfold subgrid. unfold every at 2 4. rewrite Hh.
  split; [now rewrite !length_map, length_seq|].
  assert (Hcount : 0 < (h - i + sh - 1) / sh) by (apply Nat.div_str_pos; lia).
  destruct ((h - i + sh - 1) / sh) as [|k]; [lia|].
  cbn [seq map hd]. unfold every. rewrite length_map, length_seq.
  rewrite Forall_forall in Hm. rewrite (Hm (nth (i + 0 * sh) m [])); [reflexivity|].
  apply nth_In. lia.
Qed.

Lemma cat1_refuses (t u : tensor) (ts : list tensor) :
  In u (t :: ts) -> size2 u <> size2 t \/ size3 u <> size3 t ->
  cat1 (t :: ts) = Raises RuntimeError.
Proof.
  intros Hin Hne. unfold cat1.
  destruct (forallb _ (t :: ts)) eqn:E; [|reflexivity].
  rewrite forallb_forall in E. specialize (E u Hin).
  apply andb_prop in E. destruct E as [E E3]. apply andb_prop in E. destruct E as [_ E2].
  apply Nat.eqb_eq in E2, E3. destruct Hne; contradiction.
Qed.

Lemma chunk2_head (b c h w : nat) (x : tensor) :
  0 < b -> 0 < c -> 0 < h -> shaped b c h w x ->
  exists c0 x0 rest, 0 < c0 /\ shaped b c0 h w x0 /\ chunk2 x = x0 :: rest.
Proof.
  intros Hb Hc Hh Hx. unfold chunk2.
  destruct (shaped_sizes _ _ _ _ _ Hx Hb Hc Hh) as (_ & -> & _ & _).
  destruct (c <=? (c + 1) / 2).
  - exists c, x, []. auto.
  - exists ((c + 1) / 2 - 0), (chans 0 ((c + 1) / 2) x), [chans ((c + 1) / 2) c x].
    assert (Hhalf : 0 < (c + 1) / 2 <= c).
    { pose proof (Nat.div_mod_eq (c + 1) 2) as E.
      pose proof (Nat.mod_upper_bound (c + 1) 2 ltac:(lia)). lia. }
    split; [lia|]. split; [|reflexivity].
    apply (chans_shaped b c); [exact Hx|lia].
Qed.

(** X21. A splitter needs strides that divide the spatial sizes: on a
    [b x c x h x w] input with a stride that fits into its side but does
    not divide it, the sub-grids are of different sizes and [th.cat]
    refuses them, whether or not the channels are chunked first. *)
Theorem splitter_needs_divisible (stride : nat * nat) (chunk_chans_first : bool)
  (b c h w : nat) (x : tensor) :
  0 < b -> 0 < c ->
  0 < fst stride <= h -> 0 < snd stride <= w ->
  shaped b c h w x ->
  h mod fst stride <> 0 \/ w mod snd stride <> 0 ->
  forward (Single (SubsampleSplitter stride chunk_chans_first)) x = Raises RuntimeError.
Proof.
  destruct stride as [sh sw]. cbn [fst snd].
  intros Hb Hc Hsh Hsw Hx Hndiv.
  unfold forward. cbn [children for_each forward_module].
  assert (Hraise : subsample_forward (sh, sw) chunk_chans_first x = Raises RuntimeError);
    [|now rewrite Hraise].
  unfold subsample_forward. cbn [fst snd].
  assert (Hxs : exists c0 x0 rest, 0 < c0 /\ shaped b c0 h w x0 /\
                 (if chunk_chans_first then chunk2 x else [x]) = x0 :: rest).
  { destruct chunk_chans_first; [apply (chunk2_head b c h w); (assumption || lia)|].
    exists c, x, []. auto. }
  destruct Hxs as (c0 & x0 & rest & Hc0 & Hx0 & ->).
  cbn [flat_map].
  assert (Hhead : exists tl, strides sh sw = (0, 0) :: tl).
  { unfold strides. destruct sh as [|sh']; [lia|]. destruct sw as [|sw']; [lia|].
    cbn [seq flat_map map app]. eauto. }
  destruct Hhead as [tl Etl].
  assert (Hin : forall i j, i < sh -> j < sw ->
            In (grid i sh j sw x0)
               (map (fun ij => grid (fst ij) sh (snd ij) sw x0) (strides sh sw))).
  { intros i j Hi Hj.
    apply (in_map (fun ij => grid (fst ij) sh (snd ij) sw x0) _ (i, j)).
    unfold strides. apply in_flat_map. exists i. split; [apply in_seq; lia|].
    apply in_map. apply in_seq. lia. }
  destruct (grid_sizes 0 sh 0 sw b c0 h w x0 Hb Hc0 ltac:(lia) ltac:(lia) Hx0) as [T2 T3].
  rewrite Nat.sub_0_r in T2, T3.
  assert (Hup : forall n s, 0 < s -> n mod s <> 0 -> (n + s - 1) / s <> n / s).
  { intros n s Hs Hm.
    pose proof (Nat.div_mod_eq n s) as E. pose proof (Nat.mod_upper_bound n s ltac:(lia)) as Hr.
    assert (E' : (n + s - 1) / s = n / s + 1); [|lia].
    symmetry. apply Nat.div_unique with (r := n mod s - 1); nia. }
  destruct Hndiv as [Hh|Hw].
  - specialize (Hin (sh - 1) 0 ltac:(lia) ltac:(lia)).
    destruct (grid_sizes (sh - 1) sh 0 sw b c0 h w x0 Hb Hc0 ltac:(lia) ltac:(lia) Hx0)
      as [U2 _].
    replace (h - (sh - 1) + sh - 1) with h in U2 by lia.
    revert Hin. rewrite Etl. cbn [map app fst snd]. intros Hin.
    apply (cat1_refuses _ (grid (sh - 1) sh 0 sw x0)).
    + destruct Hin as [E|Hin]; [left; exact E|right; apply in_or_app; left; exact Hin].
    + left. rewrite T2, U2. intros E. now apply (Hup h sh ltac:(lia) Hh).
  - specialize (Hin 0 (sw - 1) ltac:(lia) ltac:(lia)).
    destruct (grid_sizes 0 sh (sw - 1) sw b c0 h w x0 Hb Hc0 ltac:(lia) ltac:(lia) Hx0)
      as [_ U3].
    replace (w - (sw - 1) + sw - 1) with w in U3 by lia.
    revert Hin. rewrite Etl. cbn [map app fst snd]. intros Hin.
    apply (cat1_refuses _ (grid 0 sh (sw - 1) sw x0)).
    + destruct Hin as [E|Hin]; [left; exact E|right; apply in_or_app; left; exact Hin].
    + right. rewrite T3, U3. intros E. now apply (Hup w sw ltac:(lia) Hw).
Qed.

(** X22. A coupling block needs an even number of channels: on an odd
    number its [forward] stops at the assertion, before [F] or [G] is
    called. *)
Theorem coupling_needs_even_channels (F G : tensor -> tensor) (b c h w : nat)
  (x : tensor) :
  0 < b -> 0 < c -> 0 < h ->
  shaped b c h w x -> c mod 2 = 1 ->
  forward (Single (ReversibleBlock F G)) x = Raises AssertionError.
Proof.
  intros Hb Hc Hh Hx Hodd.
  unfold forward. cbn [children for_each forward_module]. unfold reversible_forward.
  destruct (shaped_sizes _ _ _ _ _ Hx Hb Hc Hh) as (_ & -> & _ & _).
  rewrite Hodd. reflexivity.
Qed.

(** *** A coupling block after its inverse *)

(** The other way round the arithmetic has to be exact as well: adding
    [a] to [b - a] gives [b]. *)
Hypothesis sub_add : forall a b, add a (sub b a) = b.

Lemma map2_cancel_back {A : Type} (f g : A -> A -> A) (P Q : A -> Prop) (a b : list A) :
  (forall x y, P x -> Q y -> g x (f y x) = y) ->
  length a = length b -> Forall P a -> Forall Q b ->
  map2 g a (map2 f b a) = b.
Proof.
  intros Hfg Hlen Ha. revert b Hlen.
  induction Ha as [|x a Hx Ha IH]; intros [|y b] Hlen Hb; try discriminate;
    [reflexivity|].
  inversion Hb; subst. simpl. rewrite Hfg, IH; auto.
Qed.

Lemma pointwise_sub_add (b c h w : nat) (x y : tensor) :
  shaped b c h w x -> shaped b c h w y ->
  map2 (map2 (map2 (map2 add))) x (map2 (map2 (map2 (map2 sub))) y x) = y.
Proof.
  intros [Hbx Hx] [Hby Hy].
  eapply map2_cancel_back; [|same_length|exact Hx|exact Hy].
  intros s1 s2 [Hc1 Hs1] [Hc2 Hs2].
  eapply map2_cancel_back; [|same_length|exact Hs1|exact Hs2].
  intros m1 m2 [Hh1 Hm1] [Hh2 Hm2].
  eapply map2_cancel_back; [|same_length|exact Hm1|exact Hm2].
  intros r1 r2 Hr1 Hr2. cbn beta in *.
  apply (map2_cancel_back sub add (fun _ => True) (fun _ => True)).
  - intros. apply sub_add.
  - same_length.
  - apply Forall_forall. auto.
  - apply Forall_forall. auto.
Qed.

(** X16. The branch of [invert] for a coupling block is an inverse on
    both sides: on features with an even number of channels it returns,
    and the block's [forward] takes what it returned back to the
    features. *)
Theorem coupling_invert_then_forward (F G : tensor -> tensor) (b n h w : nat)
  (features : tensor) :
  0 < b -> 0 < n -> 0 < h ->
  keeps_shape b n h w F -> keeps_shape b n h w G ->
  shaped b (2 * n) h w features ->
  exists x, invert (Single (ReversibleBlock F G)) features = Returns x /\
            shaped b (2 * n) h w x /\
            forward (Single (ReversibleBlock F G)) x = Returns features.
Proof.
  intros Hb Hn Hh HF HG Hy.
  unfold invert, forward. cbn [children rev app for_each invert_module forward_module].
  destruct (shaped_sizes _ _ _ _ _ Hy Hb ltac:(lia) Hh) as (_ & Ec & _ & _).
  assert (Ehalf : 2 * n / 2 = n) by (rewrite Nat.mul_comm; apply Nat.div_mul; lia).
  assert (H1 : shaped b n h w (chans 0 n features)).
  { replace n with (n - 0) at 1 by lia. apply (chans_shaped b (2 * n)); [exact Hy|lia]. }
  assert (H2 : shaped b n h w (chans n (2 * n) features)).
  { replace n with (2 * n - n) at 1 by lia. apply (chans_shaped b (2 * n)); [exact Hy|lia]. }
  set (y1 := chans 0 n features) in *. set (y2 := chans n (2 * n) features) in *.
  destruct (pointwise_returns sub b n h w y2 (G y1) Hb Hn Hh H2 (HG _ H1)) as [Ex1 Hx1].
  set (x1 := map2 (map2 (map2 (map2 sub))) y2 (G y1)) in *.
  destruct (pointwise_returns sub b n h w y1 (F x1) Hb Hn Hh H1 (HF _ Hx1)) as [Ex2 Hx2].
  set (x2 := map2 (map2 (map2 (map2 sub))) y1 (F x1)) in *.
  exists (map2 (@app matrix) x1 x2).
  assert (Hx : shaped b (2 * n) h w (map2 (@app matrix) x1 x2)).
  { replace (2 * n) with (n + n) by lia. now apply app_shaped. }
  split; [|split; [exact Hx|]].
  - unfold reversible_invert. rewrite Ec, Ehalf. fold y1 y2.
    rewrite Ex1. cbn [bind]. rewrite Ex2. cbn [bind].
    rewrite (cat1_pair b n n h w) by assumption. reflexivity.
  - unfold reversible_forward.
    destruct (shaped_sizes _ _ _ _ _ Hx Hb ltac:(lia) Hh) as (_ & Ec' & _ & _).
    rewrite Ec', Ehalf.
    replace (2 * n mod 2 =? 0) with true
      by (symmetry; apply Nat.eqb_eq; rewrite Nat.mul_comm; apply Nat.Div0.mod_mul).
    cbn [assert bind].
    destruct (chans_of_app b n n h w x1 x2 Hx1 Hx2) as [E1 E2].
    replace (2 * n) with (n + n) by lia. rewrite E1, E2.
    assert (Ey1 : map2 (map2 (map2 (map2 add))) (F x1) x2 = y1)
      by (apply (pointwise_sub_add b n h w (F x1) y1 (HF _ Hx1) H1)).
    destruct (pointwise_returns add b n h w (F x1) x2 Hb Hn Hh (HF _ Hx1) Hx2) as [Ea1 _].
    rewrite Ea1. cbn [bind]. rewrite Ey1.
    assert (Ey2 : map2 (map2 (map2 (map2 add))) (G y1) x1 = y2)
      by (apply (pointwise_sub_add b n h w (G y1) y2 (HG _ H1) H2)).
    destruct (pointwise_returns add b n h w (G y1) x1 Hb Hn Hh (HG _ H1) Hx1) as [Ea2 _].
    rewrite Ea2. cbn [bind]. rewrite Ey2.
    rewrite (cat1_pair b n n h w) by assumption. cbn [bind].
    f_equal. unfold y1, y2. apply (chans_halves b (2 * n) h w); [exact Hy|lia].
Qed.

End Tensors.

Arguments ReversibleBlock {T} F G.
Arguments SubsampleSplitter {T} stride chunk_chans_first.
Arguments Single {T} m.
Arguments Sequential {T} ms.

(** *** Integer tensors, for running the two functions *)

Definition forwardZ := forward Z 0%Z Z.add.
Definition invertZ := invert Z 0%Z Z.sub.

(** A sub-transform that returns zeros of the shape it is given. *)
Definition zero_fn (x : tensor Z) : tensor Z := map (map (map (map (fun _ => 0%Z)))) x.

(** One that doubles every entry. *)
Definition double_fn (x : tensor Z) : tensor Z := map (map (map (map (Z.mul 2)))) x.

(** The scenario of the specification: one block with [F = G = 0] on the
    four channels 1, 2, 3, 4. *)
Example coupling_scenario :
  forwardZ (Single (ReversibleBlock zero_fn zero_fn)) [[[[1]]; [[2]]; [[3]]; [[4]]]]%Z
    = Returns [[[[3]]; [[4]]; [[1]]; [[2]]]]%Z /\
  invertZ (Single (ReversibleBlock zero_fn zero_fn)) [[[[3]]; [[4]]; [[1]]; [[2]]]]%Z
    = Returns [[[[1]]; [[2]]; [[3]]; [[4]]]]%Z.
Proof. split; reflexivity. Qed.

Definition image_2x4 : tensor Z :=
  [[ [[1; 2; 3; 4]; [5; 6; 7; 8]]; [[11; 12; 13; 14]; [15; 16; 17; 18]] ]]%Z.

Example subsample_two_channels :
  forwardZ (Single (SubsampleSplitter (2, 2) true)) image_2x4
    = Returns [[ [[1; 3]]; [[2; 4]]; [[5; 7]]; [[6; 8]];
                 [[11; 13]]; [[12; 14]]; [[15; 17]]; [[16; 18]] ]]%Z /\
  invertZ (Single (SubsampleSplitter (2, 2) true))
    [[ [[1; 3]]; [[2; 4]]; [[5; 7]]; [[6; 8]];
       [[11; 13]]; [[12; 14]]; [[15; 17]]; [[16; 18]] ]]%Z
    = Returns image_2x4.
Proof. split; reflexivity. Qed.

Definition stack : model Z :=
  Sequential [ SubsampleSplitter (2, 1) true;
               ReversibleBlock double_fn zero_fn;
               SubsampleSplitter (1, 2) false;
               ReversibleBlock zero_fn double_fn ].

Example stack_round_trip :
  bind (forwardZ stack image_2x4) (invertZ stack) = Returns image_2x4.
Proof. reflexivity. Qed.

Lemma image_2x4_shaped : shaped Z 1 2 2 4 image_2x4.
Proof.
  unfold image_2x4, shaped, sample_shaped, matrix_shaped.
  repeat (split || constructor).
Qed.

Lemma stack_fits : fits Z (children Z stack) 1 2 2 4.
Proof.
  cbn. unfold zero_fn, double_fn.
  repeat match goal with
         | |- _ /\ _ => split
         | |- keeps_shape _ _ _ _ _ _ => apply entrywise_keeps_shape
         end; try reflexivity; try lia; auto.
Qed.

Lemma round_trip_witness :
  exists y, forwardZ stack image_2x4 = Returns y /\ invertZ stack y = Returns image_2x4.
Proof.
  apply (round_trip Z 0%Z Z.add Z.sub ltac:(intros; lia) stack 1 2 2 4).
  - lia.
  - lia.
  - lia.
  - exact image_2x4_shaped.
  - exact stack_fits.
Defined.

Lemma splitter_needs_divisible_witness :
  forwardZ (Single (SubsampleSplitter (2, 1) false)) [[ [[1]; [2]; [3]] ]]%Z
  = Raises RuntimeError.
Proof.
  apply (splitter_needs_divisible Z 0%Z Z.add (2, 1) false 1 1 3 1).
  - lia.
  - lia.
  - simpl. lia.
  - simpl. lia.
  - unfold shaped, sample_shaped, matrix_shaped. repeat (split || constructor).
  - left. simpl. discriminate.
Defined.

Lemma coupling_needs_even_channels_witness :
  forwardZ (Single (ReversibleBlock double_fn zero_fn)) [[ [[1]]; [[2]]; [[3]] ]]%Z
  = Raises AssertionError.
Proof.
  apply (coupling_needs_even_channels Z 0%Z Z.add double_fn zero_fn 1 3 1 1).
  - lia.
  - lia.
  - lia.
  - unfold shaped, sample_shaped, matrix_shaped. repeat (split || constructor).
  - reflexivity.
Defined.

Lemma coupling_invert_then_forward_witness :
  exists x,
    invertZ (Single (ReversibleBlock double_fn zero_fn))
      [[ [[1; 2]]; [[3; 4]]; [[5; 6]]; [[7; 8]] ]]%Z = Returns x /\
    shaped Z 1 (2 * 2) 1 2 x /\
    forwardZ (Single (ReversibleBlock double_fn zero_fn)) x
      = Returns [[ [[1; 2]]; [[3; 4]]; [[5; 6]]; [[7; 8]] ]]%Z.
Proof.
  apply (coupling_invert_then_forward Z 0%Z Z.add Z.sub ltac:(intros; lia)
           double_fn zero_fn 1 2 1 2).
  - lia.
  - lia.
  - lia.
  - apply entrywise_keeps_shape.
  - apply entrywise_keeps_shape.
  - unfold shaped, sample_shaped, matrix_shaped. repeat (split || constructor).
Defined.

Lemma forward_keeps_entries_witness :
  exists c' h' w' y,
    forwardZ stack image_2x4 = Returns y /\ shaped Z 1 c' h' w' y /\
    c' * h' * w' = 2 * 2 * 4.
Proof.
  apply (forward_keeps_entries Z 0%Z Z.add Z.sub ltac:(intros; lia) stack 1 2 2 4).
  - lia.
  - lia.
  - lia.
  - exact image_2x4_shaped.
  - exact stack_fits.
Defined.

Example single_channel_round_trip :
  bind (forwardZ (Single (SubsampleSplitter (2, 2) true)) [[ [[1; 2]; [3; 4]] ]]%Z)
       (invertZ (Single (SubsampleSplitter (2, 2) true)))
  = Returns [[ [[1; 2]; [3; 4]] ]]%Z.
Proof. reflexivity. Qed.

(** Spatial sizes that the strides do not divide: [th.cat] refuses the
    sub-grids, which are of different sizes. *)
Example subsample_needs_divisible :
  forwardZ (Single (SubsampleSplitter (2, 1) false)) [[ [[1]; [2]; [3]] ]]%Z
  = Raises RuntimeError.
Proof. reflexivity. Qed.

(** C1, at an input where the source fails: three channels of two rows
    into a splitter of stride (2, 1) that chunks the channels first.
    [forward] chunks 3 channels into 2 + 1 and returns 4 + 2 = 6 channels;
    [invert] chunks those 6 into 3 + 3, takes each piece for the sub-grids
    of [3 // 2 = 1] channel, and returns two channels made of entries of
    three. *)
Theorem invert_miscounts_odd_channels :
  forwardZ (Single (SubsampleSplitter (2, 1) true))
    [[ [[1]; [2]]; [[3]; [4]]; [[5]; [6]] ]]%Z
    = Returns [[ [[1]]; [[3]]; [[2]]; [[4]]; [[5]]; [[6]] ]]%Z /\
  invertZ (Single (SubsampleSplitter (2, 1) true))
    [[ [[1]]; [[3]]; [[2]]; [[4]]; [[5]]; [[6]] ]]%Z
    = Returns [[ [[1]; [3]]; [[4]; [5]] ]]%Z.
Proof. split; reflexivity. Qed.

End Reversible.
